(** * GraphR: generalized Ramsey numbers and extremal graphs

    A shallow embedding of [genramsey.py], [dividedramsey.py] and
    [sparseramsey.py], with the properties of their predicates, of the
    f-set oracle, of the extremal search engine and of what the
    command-line modules print. *)

From Stdlib Require Import ZArith Lia.
From stdpp Require Import base relations list sorting gmap strings pretty.
From Equations.Prop Require Import Equations Logic.

Local Open Scope Z_scope.

(** ** Python results

    A call either returns a value or raises: [IndexError] (list index
    out of range), [AssertionError] (a failed [assert]) or [TypeError]
    (an operation on a value of the wrong kind). *)

Inductive exn := IndexError | AssertionError | TypeError.

Inductive result (A : Type) :=
  | Ok (a : A)
  | Raise (e : exn).
Arguments Ok {A} a.
Arguments Raise {A} e.

#[global] Instance result_ret : MRet result := λ A a, Ok a.
#[global] Instance result_bind : MBind result := λ A B k m,
  match m with Ok a => k a | Raise e => Raise e end.

(** [l[i]] for a nonnegative index. *)
Definition getitem {A} (l : list A) (i : nat) : result A :=
  match l !! i with Some x => Ok x | None => Raise IndexError end.

(** [assert c]. *)
Definition py_assert (c : bool) : result unit :=
  if c then Ok tt else Raise AssertionError.

(** ** Graphs, vertex sets, predicates

    A graph of order [n] is a list of [n] adjacency lists; a set of
    vertices is a sorted list (or tuple) of its elements. *)

Abbreviation graph := (list (list nat)).
Definition pred := graph → list nat → result bool.

(** [v] is listed among the neighbours of [u]. *)
Definition adj (g : graph) (u v : nat) : Prop :=
  ∃ l, g !! u = Some l ∧ v ∈ l.

#[global] Instance adj_dec g u v : Decision (adj g u v).
Proof.
  unfold adj. destruct (g !! u) as [l|] eqn:Hl.
  - destruct (decide (v ∈ l)) as [Hin|Hnin].
    + left. by exists l.
    + right. intros (l' & ? & ?). congruence.
  - right. intros (l' & ? & ?). congruence.
Defined.

(** The representation invariant of a graph: adjacency lists are
    duplicate-free, name vertices of the graph only, never the vertex
    itself, and are symmetric. *)
Definition graph_ok (g : graph) : Prop :=
  ∀ u l, g !! u = Some l →
    NoDup l ∧ ∀ v, v ∈ l → (v < length g)%nat ∧ v ≠ u ∧ adj g v u.

(** An ascending, duplicate-free list of vertices of [g]. *)
Definition vertex_subset (g : graph) (s : list nat) : Prop :=
  StronglySorted lt s ∧ Forall (λ v, (v < length g)%nat) s.

(** [f] returns a bool on every vertex subset of [g]. *)
Definition returns_bool (f : pred) (g : graph) : Prop :=
  ∀ s, vertex_subset g s → ∃ b, f g s = Ok b.

(** ** genramsey.py: predicates *)

Module genramsey.

Fixpoint is_independent_nbrs (s nbrs : list nat) : bool :=
  match nbrs with
  | [] => true
  | x :: nbrs' =>
      if bool_decide (x ∈ s) then false else is_independent_nbrs s nbrs'
  end.

Fixpoint is_independent_loop (g : graph) (s vs : list nat) : result bool :=
  match vs with
  | [] => Ok true
  | v :: vs' =>
      nbrs ← getitem g v;
      if is_independent_nbrs s nbrs then is_independent_loop g s vs'
      else Ok false
  end.

Definition is_independent : pred := λ g s, is_independent_loop g s s.

Fixpoint is_clique_inner (g : graph) (v : nat) (xs : list nat) : result bool :=
  match xs with
  | [] => Ok true
  | x :: xs' =>
      if bool_decide (x ≠ v) then
        nbrs ← getitem g v;
        if bool_decide (x ∉ nbrs) then Ok false else is_clique_inner g v xs'
      else is_clique_inner g v xs'
  end.

Fixpoint is_clique_loop (g : graph) (s vs : list nat) : result bool :=
  match vs with
  | [] => Ok true
  | v :: vs' =>
      ok ← is_clique_inner g v s;
      if ok : bool then is_clique_loop g s vs' else Ok false
  end.

Definition is_clique : pred := λ g s, is_clique_loop g s s.

(** ** genramsey.py: checking for f-sets *)

(** [itertools.combinations(l, r)]: the [r]-element subsequences of [l],
    in lexicographic order of positions. *)
Fixpoint combinations {A} (l : list A) (r : nat) : list (list A) :=
  match r with
  | O => [[]]
  | S r' =>
      match l with
      | [] => []
      | x :: l' => ((x ::.) <$> combinations l' r') ++ combinations l' r
      end
  end.

(** [xrange(n)]. *)
Definition xrange (n : nat) : list nat := seq 0 n.

(** The loop [for s in ss: if f(g, s): return True] followed by
    [return False]. *)
Fixpoint any_fset (f : pred) (g : graph) (ss : list (list nat)) : result bool :=
  match ss with
  | [] => Ok false
  | s :: ss' =>
      b ← f g s;
      if b : bool then Ok true else any_fset f g ss'
  end.

Definition has_fset (f : pred) (b : Z) (g : graph) : result bool :=
  if b <? 0 then Ok false
  else
    let n := length g in
    if b >? Z.of_nat n then Ok false
    else any_fset f g (combinations (xrange n) (Z.to_nat b)).

(** The loop of [has_fset_with_last]: [s = ss + (n-1,)] for each [ss]. *)
Fixpoint any_fset_with (f : pred) (g : graph) (last : nat)
    (sss : list (list nat)) : result bool :=
  match sss with
  | [] => Ok false
  | ss :: sss' =>
      let s := ss ++ [last] in
      b ← f g s;
      if b : bool then Ok true else any_fset_with f g last sss'
  end.

Definition has_fset_with_last (f : pred) (b : Z) (g : graph) : result bool :=
  if b <? 1 then Ok false
  else
    let n := length g in
    if b >? Z.of_nat n then Ok false
    else any_fset_with f g (n - 1)
           (combinations (xrange (n - 1)) (Z.to_nat (b - 1))).

(** ** genramsey.py: finding extremal graphs

    [isograph.graphs], [isograph.powerset] and [isograph.unique_iso]
    come from the graph utilities module; generators are consumed into
    lists.  [extremals] leaves [printflag] out, which only prints;
    [extremals_with_printflag] is the same text with what it prints. *)

Section engine.
Variable graphs : nat → list graph.
Variable powerset : list nat → list (list nat).
Variable unique_iso : list graph → list graph.

(** [not has(f1, b1, g) and not has(f2, b2, g)], left to right. *)
Definition neither (has : pred → Z → graph → result bool)
    (f1 f2 : pred) (b1 b2 : Z) (g : graph) : result bool :=
  h1 ← has f1 b1 g;
  if h1 : bool then Ok false else h2 ← has f2 b2 g; Ok (negb h2).

Fixpoint counterexamples_zero_loop (f1 f2 : pred) (b1 b2 : Z)
    (gs : list graph) : result (list graph) :=
  match gs with
  | [] => Ok []
  | g :: gs' =>
      keep ← neither has_fset f1 f2 b1 b2 g;
      rest ← counterexamples_zero_loop f1 f2 b1 b2 gs';
      Ok (if keep : bool then g :: rest else rest)
  end.

Definition _counterexamples_zero (f1 f2 : pred) (b1 b2 : Z)
    : result (list graph) :=
  counterexamples_zero_loop f1 f2 b1 b2 (graphs 0).

(** [for v in vs: g[v] = g[v] + [n-1]].  The engine calls it with
    [n >= 1], where [n - 1] is the last vertex. *)
Fixpoint add_last (g : graph) (n : nat) (vs : list nat) : result graph :=
  match vs with
  | [] => Ok g
  | v :: vs' =>
      nbrs ← getitem g v;
      add_last (<[v := nbrs ++ [(n - 1)%nat]]> g) n vs'
  end.

(** The candidate built from [oldg] and [vset]. *)
Definition candidate (oldg : graph) (n : nat) (vset : list nat)
    : result graph :=
  add_last (oldg ++ [vset]) n vset.

(** The loop over [vset] for one [oldg]. *)
Fixpoint extensions (f1 f2 : pred) (n : nat) (b1 b2 : Z) (oldg : graph)
    (vsets : list (list nat)) : result (list graph) :=
  match vsets with
  | [] => Ok []
  | vset :: vsets' =>
      g ← candidate oldg n vset;
      keep ← neither has_fset_with_last f1 f2 b1 b2 g;
      rest ← extensions f1 f2 n b1 b2 oldg vsets';
      Ok (if keep : bool then g :: rest else rest)
  end.

Fixpoint counterexamples_up_big_list (f1 f2 : pred) (n : nat) (b1 b2 : Z)
    (old : list graph) : result (list graph) :=
  match old with
  | [] => Ok []
  | oldg :: old' =>
      gs ← extensions f1 f2 n b1 b2 oldg (powerset (xrange (n - 1)));
      rest ← counterexamples_up_big_list f1 f2 n b1 b2 old';
      Ok (gs ++ rest)
  end.

Definition _counterexamples_up (f1 f2 : pred) (b1 b2 : Z) (n : nat)
    (old : list graph) : result (list graph) :=
  gs ← counterexamples_up_big_list f1 f2 n b1 b2 old;
  Ok (unique_iso gs).

(** The loop [for n in itertools.count(1)], entered at order [n] with
    the counterexample graphs [gs] of order [n-1].  It need not
    terminate: [None] means that [fuel] iterations were not enough. *)
Fixpoint extremals_loop (f1 f2 : pred) (b1 b2 : Z) (fuel n : nat)
    (gs : list graph) : option (result (nat * list graph)) :=
  match fuel with
  | O => None
  | S fuel' =>
      let oldgs := gs in
      match _counterexamples_up f1 f2 b1 b2 n oldgs with
      | Raise e => Some (Raise e)
      | Ok gs =>
          let howmany := length gs in
          if decide (howmany = 0)%nat then Some (Ok (n, oldgs))
          else extremals_loop f1 f2 b1 b2 fuel' (S n) gs
      end
  end.

Definition extremals (f1 f2 : pred) (b1 b2 : Z) (fuel : nat)
    : option (result (nat * list graph)) :=
  match _counterexamples_zero f1 f2 b1 b2 with
  | Raise e => Some (Raise e)
  | Ok gs =>
      let howmany := length gs in
      if decide (howmany = 0)%nat then Some (Ok (O, []))
      else extremals_loop f1 f2 b1 b2 fuel 1 gs
  end.

(** [print u, v]: the two numbers separated by a space. *)
Definition table_line (u v : nat) : string := pretty u +:+ " " +:+ pretty v.

Definition table_header : string := "Order & number of counterexample graphs:".

(** The loop of [extremals] with its [printflag]: what it prints, one
    item per [print] statement, and how it ends. *)
Fixpoint extremals_loop_with_printflag (f1 f2 : pred) (b1 b2 : Z)
    (printflag : bool) (fuel n : nat) (gs : list graph)
    : list string * option (result (nat * list graph)) :=
  match fuel with
  | O => ([], None)
  | S fuel' =>
      let oldgs := gs in
      match _counterexamples_up f1 f2 b1 b2 n oldgs with
      | Raise e => ([], Some (Raise e))
      | Ok gs =>
          let howmany := length gs in
          let out := if printflag then [table_line n howmany] else [] in
          if decide (howmany = 0)%nat then (out, Some (Ok (n, oldgs)))
          else
            let '(out', r) :=
              extremals_loop_with_printflag f1 f2 b1 b2 printflag
                fuel' (S n) gs in
            (out ++ out', r)
      end
  end.

(** [extremals] with its [printflag]. *)
Definition extremals_with_printflag (f1 f2 : pred) (b1 b2 : Z)
    (printflag : bool) (fuel : nat)
    : list string * option (result (nat * list graph)) :=
  let out0 := if printflag then [table_header] else [] in
  match _counterexamples_zero f1 f2 b1 b2 with
  | Raise e => (out0, Some (Raise e))
  | Ok gs =>
      let howmany := length gs in
      let out1 := if printflag then [table_line 0 howmany] else [] in
      if decide (howmany = 0)%nat then (out0 ++ out1, Some (Ok (O, [])))
      else
        let '(out', r) :=
          extremals_loop_with_printflag f1 f2 b1 b2 printflag fuel 1 gs in
        (out0 ++ out1 ++ out', r)
  end.
End engine.

End genramsey.

Import genramsey.

(** ** dividedramsey.py: checking whether a set is k-divided *)

Module dividedramsey.

(** The state of the search: the work stack (top first), the [pushed]
    markers, one per vertex of the graph, and the number of vertices
    found so far in the current component. *)
Record dfs_state := DfsState {
  stack : list nat;
  pushed : list bool;
  compsize : Z
}.

(** The loop [for y in s] run for the popped vertex [x].  [skip y nbrs]
    is the second half of the [continue] test: [y not in g[x]] in
    [is_k_divided], [y in g[x]] in [is_k_divided_compl]; [g[x]] is only
    looked up when [pushed[y]] is false.  [None] stands for
    [return False]. *)
Fixpoint scan (skip : nat → list nat → bool) (k : Z) (g : graph) (x : nat)
    (ys : list nat) (st : dfs_state) : result (option dfs_state) :=
  match ys with
  | [] => Ok (Some st)
  | y :: ys' =>
      p ← getitem (pushed st) y;
      c ← (if p : bool then Ok true
           else nbrs ← getitem g x; Ok (skip y nbrs));
      if c : bool then scan skip k g x ys' st
      else if compsize st >=? k then Ok None
      else scan skip k g x ys'
             (DfsState (y :: stack st) (<[y:=true]> (pushed st))
                       (compsize st + 1))
  end.

(** What decreases along the [while stack] loop: every vertex is pushed
    at most once, and every iteration pops one. *)
Definition dfs_measure (stk : list nat) (psh : list bool) : nat :=
  2 * length (filter (λ b, b = false) psh) + length stk.

(** The loop [while stack: x = stack.pop(); for y in s: ...].  It yields
    the final [pushed] markers, or [None] for [return False]. *)
Equations? while_stack (skip : nat → list nat → bool) (k : Z) (g : graph)
    (s : list nat) (stk : list nat) (psh : list bool) (cs : Z)
    : result (option (list bool)) by wf (dfs_measure stk psh) lt :=
  while_stack skip k g s [] psh cs := Ok (Some psh);
  while_stack skip k g s (x :: stk) psh cs
    with inspect (scan skip k g x s (DfsState stk psh cs)) := {
    | exist _ (Ok (Some st')) Hscan :=
        while_stack skip k g s (stack st') (pushed st') (compsize st');
    | exist _ (Ok None) _ := Ok None;
    | exist _ (Raise e) _ := Raise e }.
Proof.
  enough (dfs_measure (stack st') (pushed st') ≤ dfs_measure stk psh)%nat
    by (unfold dfs_measure in *; simpl; lia).
  clear while_stack.
  assert (∀ ys st, scan skip k g x ys st = Ok (Some st') →
    dfs_measure (stack st') (pushed st')
    ≤ dfs_measure (stack st) (pushed st))%nat as Hmono;
    [|by apply (Hmono _ _ Hscan)].
  clear Hscan. induction ys as [|y ys IH]; intros st; simpl.
  - by intros [= ->].
  - destruct (getitem (pushed st) y) as [[]|] eqn:Hy; simpl;
      [by apply IH| |done].
    unfold getitem in Hy.
    destruct (pushed st !! y) as [p|] eqn:Hp; [|done].
    injection Hy as ->. rename Hp into Hy.
    destruct (getitem g x) as [l|]; simpl; [|done].
    destruct (skip y l); [by apply IH|].
    destruct (compsize st >=? k); [done|]. intros Hs%IH. simpl in Hs.
    etrans; [done|]. unfold dfs_measure. simpl.
    apply list_elem_of_split_length in Hy as (p1 & p2 & -> & ->).
    rewrite insert_app_r_alt, Nat.sub_diag by done. simpl.
    rewrite !filter_app, !filter_cons, !length_app.
    repeat case_decide; try done; simpl; lia.
Qed.

Fixpoint divided_loop (skip : nat → list nat → bool) (k : Z) (g : graph)
    (s vs : list nat) (psh : list bool) : result bool :=
  match vs with
  | [] => Ok true
  | v :: vs' =>
      p ← getitem psh v;
      if p : bool then divided_loop skip k g s vs' psh
      else
        r ← while_stack skip k g s [v] (<[v:=true]> psh) 1;
        match r with
        | None => Ok false
        | Some psh' => divided_loop skip k g s vs' psh'
        end
  end.

Definition not_in (y : nat) (nbrs : list nat) : bool := bool_decide (y ∉ nbrs).
Definition is_in (y : nat) (nbrs : list nat) : bool := bool_decide (y ∈ nbrs).

Definition is_k_divided (k : Z) : pred :=
  λ g s, divided_loop not_in k g s s (replicate (length g) false).

Definition make_k_divided_func (k : Z) : result pred :=
  _ ← py_assert (k >=? 1); Ok (is_k_divided k).

Definition is_k_divided_compl (k : Z) : pred :=
  λ g s, divided_loop is_in k g s s (replicate (length g) false).

Definition make_k_divided_compl_func (k : Z) : result pred :=
  _ ← py_assert (k >=? 1); Ok (is_k_divided_compl k).

(** [find_extremals], over the collaborators of the engine. *)
Definition find_extremals (graphs : nat → list graph)
    (powerset : list nat → list (list nat))
    (unique_iso : list graph → list graph)
    (k a b : Z) (fuel : nat) : option (result (nat * list graph)) :=
  match
    _ ← py_assert (k >=? 1);
    _ ← py_assert (a >=? 0);
    _ ← py_assert (b >=? 0);
    f1 ← make_k_divided_func k;
    f2 ← make_k_divided_compl_func k;
    Ok (f1, f2)
  with
  | Raise e => Some (Raise e)
  | Ok (f1, f2) =>
      genramsey.extremals graphs powerset unique_iso f1 f2 a b fuel
  end.

(** [find_extremals] with its [printflag]. *)
Definition find_extremals_with_printflag (graphs : nat → list graph)
    (powerset : list nat → list (list nat))
    (unique_iso : list graph → list graph)
    (k a b : Z) (printflag : bool) (fuel : nat)
    : list string * option (result (nat * list graph)) :=
  match
    _ ← py_assert (k >=? 1);
    _ ← py_assert (a >=? 0);
    _ ← py_assert (b >=? 0);
    f1 ← make_k_divided_func k;
    f2 ← make_k_divided_compl_func k;
    Ok (f1, f2)
  with
  | Raise e => ([], Some (Raise e))
  | Ok (f1, f2) =>
      genramsey.extremals_with_printflag graphs powerset unique_iso
        f1 f2 a b printflag fuel
  end.

(** The loop [for g in gs] of [print_extremals], entered with the
    counter [gcount]; [dot_str] stands for [isograph.dot_str]. *)
Fixpoint print_graphs (dot_str : graph → string → string)
    (graphbasename : string) (gcount : nat) (gs : list graph) : list string :=
  match gs with
  | [] => []
  | g :: gs' =>
      let gcount := S gcount in
      let graphname := graphbasename +:+ pretty gcount in
      dot_str g graphname :: "" :: print_graphs dot_str graphbasename gcount gs'
  end.

(** [print_extremals]: what it prints, one item per [print], and how it
    ends. *)
Definition print_extremals (graphs : nat → list graph)
    (powerset : list nat → list (list nat))
    (unique_iso : list graph → list graph)
    (dot_str : graph → string → string)
    (k a b : Z) (printflag : bool) (fuel : nat)
    : list string * option (result unit) :=
  match
    _ ← py_assert (k >=? 1);
    _ ← py_assert (a >=? 0);
    py_assert (b >=? 0)
  with
  | Raise e => ([], Some (Raise e))
  | Ok _ =>
      let out1 :=
        ["Finding R*_" +:+ pretty k +:+ "(" +:+ pretty a +:+ "," +:+
           pretty b +:+ ")"; ""] in
      match find_extremals_with_printflag graphs powerset unique_iso
              k a b printflag fuel with
      | (out2, None) => (out1 ++ out2, None)
      | (out2, Some (Raise e)) => (out1 ++ out2, Some (Raise e))
      | (out2, Some (Ok (n, gs))) =>
          let out3 :=
            (if printflag then [""] else []) ++
            [pretty (length gs) +:+ " extremal graph(s):"; ""] in
          let graphbasename :=
            "rs" +:+ pretty k +:+ "_" +:+ pretty a +:+ "_" +:+ pretty b +:+
            "e" in
          let out4 := print_graphs dot_str graphbasename 0 gs in
          let out5 :=
            ["R*_" +:+ pretty k +:+ "(" +:+ pretty a +:+ "," +:+ pretty b +:+
               ") = " +:+ pretty n;
             pretty (length gs) +:+ " extremal graph(s)"] in
          (out1 ++ out2 ++ out3 ++ out4 ++ out5, Some (Ok tt))
      end
  end.

End dividedramsey.

(** ** sparseramsey.py: checking whether a set is k-sparse *)

Module sparseramsey.

(** The loop [for x in g[v]] of [is_k_sparse], entered with counter [d].
    [None] stands for [return False], [Some d'] for the end of the loop
    with counter [d']. *)
Fixpoint is_k_sparse_count (k : Z) (s nbrs : list nat) (d : Z) : option Z :=
  match nbrs with
  | [] => Some d
  | x :: nbrs' =>
      if bool_decide (x ∈ s) then
        let d' := d + 1 in
        if d' >? k then None else is_k_sparse_count k s nbrs' d'
      else is_k_sparse_count k s nbrs' d
  end.

Fixpoint is_k_sparse_loop (k : Z) (g : graph) (s vs : list nat)
    : result bool :=
  match vs with
  | [] => Ok true
  | v :: vs' =>
      nbrs ← getitem g v;
      match is_k_sparse_count k s nbrs 0 with
      | None => Ok false
      | Some _ => is_k_sparse_loop k g s vs'
      end
  end.

Definition is_k_sparse (k : Z) : pred := λ g s, is_k_sparse_loop k g s s.

Definition make_k_sparse_func (k : Z) : result pred := Ok (is_k_sparse k).

(** The loop [for x in s] of [is_k_sparse_compl]; [g[v]] is only looked
    up when [x != v]. *)
Fixpoint is_k_sparse_compl_count (k : Z) (g : graph) (v : nat)
    (xs : list nat) (d : Z) : result (option Z) :=
  match xs with
  | [] => Ok (Some d)
  | x :: xs' =>
      c ← (if bool_decide (x ≠ v) then
             nbrs ← getitem g v; Ok (bool_decide (x ∉ nbrs))
           else Ok false);
      if c : bool then
        let d' := d + 1 in
        if d' >? k then Ok None else is_k_sparse_compl_count k g v xs' d'
      else is_k_sparse_compl_count k g v xs' d
  end.

Fixpoint is_k_sparse_compl_loop (k : Z) (g : graph) (s vs : list nat)
    : result bool :=
  match vs with
  | [] => Ok true
  | v :: vs' =>
      r ← is_k_sparse_compl_count k g v s 0;
      match r with
      | None => Ok false
      | Some _ => is_k_sparse_compl_loop k g s vs'
      end
  end.

Definition is_k_sparse_compl (k : Z) : pred :=
  λ g s, is_k_sparse_compl_loop k g s s.

Definition make_k_sparse_compl_func (k : Z) : result pred :=
  Ok (is_k_sparse_compl k).

(** [find_extremals], over the collaborators of the engine. *)
Definition find_extremals (graphs : nat → list graph)
    (powerset : list nat → list (list nat))
    (unique_iso : list graph → list graph)
    (k a b : Z) (fuel : nat) : option (result (nat * list graph)) :=
  match
    _ ← py_assert (k >=? 0);
    _ ← py_assert (a >=? 0);
    _ ← py_assert (b >=? 0);
    f1 ← make_k_sparse_func k;
    f2 ← make_k_sparse_compl_func k;
    Ok (f1, f2)
  with
  | Raise e => Some (Raise e)
  | Ok (f1, f2) =>
      genramsey.extremals graphs powerset unique_iso f1 f2 a b fuel
  end.

(** [find_extremals] with its [printflag]. *)
Definition find_extremals_with_printflag (graphs : nat → list graph)
    (powerset : list nat → list (list nat))
    (unique_iso : list graph → list graph)
    (k a b : Z) (printflag : bool) (fuel : nat)
    : list string * option (result (nat * list graph)) :=
  match
    _ ← py_assert (k >=? 0);
    _ ← py_assert (a >=? 0);
    _ ← py_assert (b >=? 0);
    f1 ← make_k_sparse_func k;
    f2 ← make_k_sparse_compl_func k;
    Ok (f1, f2)
  with
  | Raise e => ([], Some (Raise e))
  | Ok (f1, f2) =>
      genramsey.extremals_with_printflag graphs powerset unique_iso
        f1 f2 a b printflag fuel
  end.

(** The loop [for g in gs] of [print_extremals], entered with the
    counter [gcount]; [dot_str] stands for [isograph.dot_str]. *)
Fixpoint print_graphs (dot_str : graph → string → string)
    (graphbasename : string) (gcount : nat) (gs : list graph) : list string :=
  match gs with
  | [] => []
  | g :: gs' =>
      let gcount := S gcount in
      let graphname := graphbasename +:+ pretty gcount in
      dot_str g graphname :: "" :: print_graphs dot_str graphbasename gcount gs'
  end.

(** [print_extremals]: what it prints, one item per [print], and how it
    ends. *)
Definition print_extremals (graphs : nat → list graph)
    (powerset : list nat → list (list nat))
    (unique_iso : list graph → list graph)
    (dot_str : graph → string → string)
    (k a b : Z) (printflag : bool) (fuel : nat)
    : list string * option (result unit) :=
  match
    _ ← py_assert (k >=? 0);
    _ ← py_assert (a >=? 0);
    py_assert (b >=? 0)
  with
  | Raise e => ([], Some (Raise e))
  | Ok _ =>
      let out1 :=
        ["Finding R_" +:+ pretty k +:+ "(" +:+ pretty a +:+ "," +:+
           pretty b +:+ ")"; ""] in
      match find_extremals_with_printflag graphs powerset unique_iso
              k a b printflag fuel with
      | (out2, None) => (out1 ++ out2, None)
      | (out2, Some (Raise e)) => (out1 ++ out2, Some (Raise e))
      | (out2, Some (Ok (n, gs))) =>
          let out3 :=
            (if printflag then [""] else []) ++
            [pretty (length gs) +:+ " extremal graph(s):"; ""] in
          let graphbasename :=
            "r" +:+ pretty k +:+ "_" +:+ pretty a +:+ "_" +:+ pretty b +:+
            "e" in
          let out4 := print_graphs dot_str graphbasename 0 gs in
          let out5 :=
            ["R_" +:+ pretty k +:+ "(" +:+ pretty a +:+ "," +:+ pretty b +:+
               ") = " +:+ pretty n;
             pretty (length gs) +:+ " extremal graph(s)"] in
          (out1 ++ out2 ++ out3 ++ out4 ++ out5, Some (Ok tt))
      end
  end.

End sparseramsey.

(** ** dividedramsey.py and sparseramsey.py: the command line

    [main] has the same text in both modules, each calling its own
    [print_extremals].  [getopt] stands for the call of [getopt.getopt]
    on [argv[1:]] with the options of the module (an error message, or
    the options and the remaining arguments), [int] for the conversion
    of an argument ([None] when it raises). *)

Module commandline.

(** What [main] does to the outside: a line printed, the usage message
    ([__doc__]) printed, a line printed on the error stream, the
    doctests run. *)
Inductive event :=
  | Stdout (text : string)
  | Usage
  | Stderr (text : string)
  | Testmod (verbose : bool).

Section main.
Variable getopt :
  list string → string + (list (string * string) * list string).
Variable int : string → option Z.
Variable print_extremals :
  Z → Z → Z → bool → nat → list string * option (result unit).

(** The handler [except UsageError]. *)
Definition usage_error (argv : list string) (msg : string)
    : list event * option (result Z) :=
  match getitem argv 0 with
  | Raise e => ([], Some (Raise e))
  | Ok prog =>
      ([Stderr (prog +:+ ": " +:+ msg); Stderr "For help use --help"],
       Some (Ok 2))
  end.

(** The loop [for o, a in optlist]: it ends with the value of
    [printcounterexamples], or returns an exit code. *)
Fixpoint main_options (optlist : list (string * string))
    (printcounterexamples : bool) : list event * result (bool + Z) :=
  match optlist with
  | [] => ([], Ok (inl printcounterexamples))
  | (o, _) :: optlist' =>
      if bool_decide (o ∈ ["-h"; "--help"]) then ([Usage], Ok (inr 0))
      else if bool_decide (o ∈ ["-q"; "--quiet"]) then
        main_options optlist' false
      else if bool_decide (o = "--test" ∨ o = "--Test") then
        let verbose := bool_decide (o = "--Test") in
        ([Stdout (if verbose then "Running doctests (verbose mode)"
                  else "Running doctests");
          Testmod verbose], Ok (inr 0))
      else ([], Raise AssertionError)
  end.

Definition main (argv : list string) (fuel : nat)
    : list event * option (result Z) :=
  match getopt (drop 1 argv) with
  | inl msg => usage_error argv msg
  | inr (optlist, args) =>
      match main_options optlist true with
      | (out, Raise e) => (out, Some (Raise e))
      | (out, Ok (inr code)) => (out, Some (Ok code))
      | (out, Ok (inl printcounterexamples)) =>
          if bool_decide (length args ≠ 3%nat) then
            usage_error argv "Must have exactly 3 arguments"
          else
            match
              k ← args !! 0%nat ≫= int;
              a ← args !! 1%nat ≫= int;
              b ← args !! 2%nat ≫= int;
              Some (k, a, b)
            with
            | None => usage_error argv "Arguments must be integers"
            | Some (k, a, b) =>
                match print_extremals k a b printcounterexamples fuel with
                | (lines, None) => (Stdout <$> lines, None)
                | (lines, Some (Raise e)) =>
                    (Stdout <$> lines, Some (Raise e))
                | (lines, Some (Ok _)) => (Stdout <$> lines, Some (Ok 0))
                end
            end
      end
  end.
End main.

End commandline.

(** ** isograph.py: the collaborators of the engine

    The graph utilities module is not part of the sources at hand; the
    engine is stated over any collaborators, and the following ones
    serve to run it. *)

Module isograph.

(** Modelled from the spec: [powerset] is missing; it is a "powerset
    generator over an ordered index range, ascending order, including
    empty and full subsets". *)
Definition powerset (l : list nat) : list (list nat) :=
  mjoin (genramsey.combinations l <$> seq 0 (S (length l))).

(** Modelled from the spec: the graphs on one more labeled vertex, for
    the missing [graphs]; the new vertex is joined to [vset]. *)
Definition extend (g : graph) (vset : list nat) : graph :=
  imap (λ v nbrs, if bool_decide (v ∈ vset) then nbrs ++ [length g] else nbrs)
       g ++ [vset].

(** Modelled from the spec: [graphs] is missing; it "produces a finite
    sequence of all graphs on n labeled vertices (used only for n = 0
    [...], yielding the single empty graph)". *)
Fixpoint graphs (n : nat) : list graph :=
  match n with
  | O => [[]]
  | S m =>
      mjoin ((λ g, extend g <$> powerset (genramsey.xrange m)) <$> graphs m)
  end.

(** Modelled from the spec: the relabelings tried by the missing
    [isomorphic]; [p] relabels vertex [u] to [p !!! u]. *)
Definition relabels (g h : graph) (p : list nat) : bool :=
  forallb (λ u,
    forallb (λ v,
      Bool.eqb (bool_decide (adj g u v))
               (bool_decide (adj h (p !!! u) (p !!! v))))
      (genramsey.xrange (length g)))
    (genramsey.xrange (length g)).

(** Modelled from the spec: [isomorphic] is missing; it decides
    "structural equivalence under vertex relabeling". *)
Definition isomorphic (g h : graph) : bool :=
  bool_decide (length g = length h) &&
  existsb (relabels g h) (permutations (genramsey.xrange (length g))).

(** Modelled from the spec: the loop of the missing [unique_iso], with
    the representatives [seen] so far. *)
Fixpoint unique_iso_from (seen gs : list graph) : list graph :=
  match gs with
  | [] => []
  | g :: gs' =>
      if existsb (isomorphic g) seen then unique_iso_from seen gs'
      else g :: unique_iso_from (seen ++ [g]) gs'
  end.

(** Modelled from the spec: [unique_iso] is missing; it "returns one
    representative per isomorphism class present in the input, [...]
    first-encountered representative retained". *)
Definition unique_iso (gs : list graph) : list graph := unique_iso_from [] gs.

End isograph.

(** ** The candidate loop on a store of list objects

    Python lists are mutable objects and a graph is a list of references
    to its adjacency lists, so that [oldg + [list(vset)]] shares the
    adjacency lists of [oldg].  This second model of
    [counterexamples_up_big_list] runs on a store of list objects, to
    tell fresh lists from lists updated in place. *)

Module store.

Abbreviation loc := positive.

Inductive val :=
  | VInt (n : nat)
  | VRef (l : loc).

Abbreviation heap := (gmap loc (list val)).

(** Computations on the store that may raise. *)
Definition storeM (A : Type) : Type := heap → heap * result A.

#[global] Instance storeM_ret : MRet storeM := λ A a h, (h, Ok a).
#[global] Instance storeM_bind : MBind storeM := λ A B k m h,
  match m h with
  | (h', Ok a) => k a h'
  | (h', Raise e) => (h', Raise e)
  end.

Definition raise {A} (e : exn) : storeM A := λ h, (h, Raise e).

(** A new list object. *)
Definition new_list (items : list val) : storeM loc :=
  λ h, let l := fresh (dom h) in (<[l := items]> h, Ok l).

(** The items of the list object at [l]. *)
Definition items_of (l : loc) : storeM (list val) :=
  λ h, match h !! l with
       | Some items => (h, Ok items)
       | None => (h, Raise TypeError)
       end.

(** [l[i] = x]. *)
Definition setitem (l : loc) (i : nat) (x : val) : storeM unit :=
  λ h, match h !! l with
       | Some items =>
           if decide (i < length items)%nat
           then (<[l := <[i := x]> items]> h, Ok tt)
           else (h, Raise IndexError)
       | None => (h, Raise TypeError)
       end.

(** The list object at the reference [v]. *)
Definition as_list (v : val) : storeM loc :=
  match v with
  | VRef l => mret l
  | VInt _ => raise TypeError
  end.

(** [for v in vs: g[v] = g[v] + [n-1]]: the sum is a new list. *)
Fixpoint add_last (g : loc) (n : nat) (vs : list nat) : storeM unit :=
  match vs with
  | [] => mret tt
  | v :: vs' =>
      items ← items_of g;
      match items !! v with
      | None => raise IndexError
      | Some x =>
          lv ← as_list x;
          nbrs ← items_of lv;
          single ← new_list [VInt (n - 1)];
          extra ← items_of single;
          sum ← new_list (nbrs ++ extra);
          _ ← setitem g v (VRef sum);
          add_last g n vs'
      end
  end.

(** [g = oldg + [list(vset)]] followed by the loop [loop] over [vset]. *)
Definition candidate_with (loop : loc → nat → list nat → storeM unit)
    (oldg : loc) (n : nat) (vset : list nat) : storeM loc :=
  old_items ← items_of oldg;
  copy ← new_list (VInt <$> vset);
  single ← new_list [VRef copy];
  extra ← items_of single;
  g ← new_list (old_items ++ extra);
  _ ← loop g n vset;
  mret g.

Definition candidate : loc → nat → list nat → storeM loc :=
  candidate_with add_last.

(** The graph a reference stands for. *)
Definition read_ints (items : list val) : option (list nat) :=
  mapM (λ v, match v with VInt n => Some n | VRef _ => None end) items.

Definition read_graph (h : heap) (g : loc) : option graph :=
  items ← h !! g;
  mapM (λ v, match v with
             | VRef l => nbrs ← h !! l; read_ints nbrs
             | VInt _ => None
             end) items.

(** The reference [v] stands for the adjacency list [nbrs]. *)
Definition reads_list (h : heap) (v : val) (nbrs : list nat) : Prop :=
  ∃ l x, v = VRef l ∧ h !! l = Some x ∧ read_ints x = Some nbrs.

(** The predicates only read the graph. *)
Definition test (f1 f2 : pred) (b1 b2 : Z) (g : loc) : storeM bool :=
  λ h, match read_graph h g with
       | Some gv => (h, genramsey.neither genramsey.has_fset_with_last
                          f1 f2 b1 b2 gv)
       | None => (h, Raise TypeError)
       end.

Fixpoint extensions (f1 f2 : pred) (n : nat) (b1 b2 : Z) (oldg : loc)
    (vsets : list (list nat)) : storeM (list loc) :=
  match vsets with
  | [] => mret []
  | vset :: vsets' =>
      g ← candidate oldg n vset;
      keep ← test f1 f2 b1 b2 g;
      rest ← extensions f1 f2 n b1 b2 oldg vsets';
      mret (if keep : bool then g :: rest else rest)
  end.

Section big_list.
Variable powerset : list nat → list (list nat).

Fixpoint counterexamples_up_big_list (f1 f2 : pred) (n : nat) (b1 b2 : Z)
    (old : list loc) : storeM (list loc) :=
  match old with
  | [] => mret []
  | oldg :: old' =>
      gs ← extensions f1 f2 n b1 b2 oldg
             (powerset (genramsey.xrange (n - 1)));
      rest ← counterexamples_up_big_list f1 f2 n b1 b2 old';
      mret (gs ++ rest)
  end.
End big_list.

(** The variant the source warns against, [g[v].append(n-1)]: the
    adjacency list is updated in place. *)
Fixpoint add_last_in_place (g : loc) (n : nat) (vs : list nat)
    : storeM unit :=
  match vs with
  | [] => mret tt
  | v :: vs' =>
      items ← items_of g;
      match items !! v with
      | None => raise IndexError
      | Some x =>
          lv ← as_list x;
          nbrs ← items_of lv;
          _ ← (λ h, (<[lv := nbrs ++ [VInt (n - 1)]]> h, Ok tt)) : storeM unit;
          add_last_in_place g n vs'
      end
  end.

(** A store with the graph [[[]]] of order 1 at reference 1. *)
Definition one_vertex : heap := {[ 1%positive := [VRef 2%positive];
                                   2%positive := [] ]}.

(** Every list object of [h] is the same in [h']. *)
Definition preserved (h h' : heap) : Prop :=
  ∀ l, l ∈ dom h → h' !! l = h !! l.

(** Running [m] keeps the list objects of [h0], provided the store it
    starts from does. *)
Definition frame {A} (h0 : heap) (m : storeM A) : Prop :=
  ∀ h h' r, m h = (h', r) → preserved h0 h → preserved h0 h'.

End store.

(** ** Specification vocabulary *)

(** The complement of [g] on the same vertex set. *)
Definition complement_nbrs (n v : nat) (nbrs : list nat) : list nat :=
  filter (λ x, x ≠ v ∧ x ∉ nbrs) (seq 0 n).

Definition complement (g : graph) : graph :=
  imap (complement_nbrs (length g)) g.

(** An edge of the subgraph of [g] induced by [s], and being joined by
    a path in it. *)
Definition induced_edge (g : graph) (s : list nat) (u v : nat) : Prop :=
  u ∈ s ∧ v ∈ s ∧ adj g u v.

Definition connected (g : graph) (s : list nat) : relation nat :=
  rtc (induced_edge g s).

(** [s] is k-divided in [g]: every connected component of the subgraph
    induced by [s] has at most [k] vertices, that is, [k] bounds the
    length of every duplicate-free list of vertices connected to one
    vertex [v] of [s]. *)
Definition k_divided (g : graph) (s : list nat) (k : Z) : Prop :=
  ∀ v c, v ∈ s → NoDup c → (∀ u, u ∈ c → connected g s v u) →
    Z.of_nat (length c) ≤ k.

(** The degree of [v] in the subgraph of [g] induced by [s]. *)
Definition induced_degree (g : graph) (s : list nat) (v : nat) : nat :=
  length (filter (adj g v) s).

(** Lexicographic order on lists of vertices. *)
Inductive lex_lt : list nat → list nat → Prop :=
  | lex_lt_nil x l : lex_lt [] (x :: l)
  | lex_lt_head x y l k : (x < y)%nat → lex_lt (x :: l) (y :: k)
  | lex_lt_tail x l k : lex_lt l k → lex_lt (x :: l) (x :: k).

(** The subgraph of [g] induced by the vertices [0 .. m-1]. *)
Definition induced_prefix (g : graph) (m : nat) : graph :=
  filter (λ x, (x < m)%nat) <$> take m g.

(** [φ] embeds [h] into [g] as an induced subgraph: it renames the
    vertices of [h] injectively to vertices of [g], and two vertices are
    adjacent in [h] exactly when their images are adjacent in [g]. *)
Definition embedding (h g : graph) (φ : nat → nat) : Prop :=
  (∀ u, (u < length h)%nat → (φ u < length g)%nat) ∧
  (∀ u v, (u < length h)%nat → (v < length h)%nat → φ u = φ v → u = v) ∧
  (∀ u v, (u < length h)%nat → (v < length h)%nat →
     adj h u v ↔ adj g (φ u) (φ v)).

(** Induced-hereditary predicates: if [h] is an induced subgraph of [g]
    and [s] is a set of vertices of [h], then [s] is an f-set in [h] iff
    it (that is, its image [s'], as a sorted list) is an f-set in [g]. *)
Definition induced_hereditary (f : pred) : Prop :=
  ∀ h g φ s s',
    graph_ok h → graph_ok g → embedding h g φ →
    vertex_subset h s → vertex_subset g s' → s' ≡ₚ φ <$> s →
    f h s = Ok true ↔ f g s' = Ok true.

(** An isomorphism from [g] to [h]: a bijection [σ] of the vertices,
    with inverse [τ], that maps edges to edges and non-edges to
    non-edges. *)
Definition isomorphism (g h : graph) (σ τ : nat → nat) : Prop :=
  length g = length h ∧
  (∀ u, (u < length g)%nat → (σ u < length h)%nat ∧ τ (σ u) = u) ∧
  (∀ v, (v < length h)%nat → (τ v < length g)%nat ∧ σ (τ v) = v) ∧
  (∀ u v, (u < length g)%nat → (v < length g)%nat →
     adj g u v ↔ adj h (σ u) (σ v)).

Definition isomorphic (g h : graph) : Prop := ∃ σ τ, isomorphism g h σ τ.

(** [f] is a predicate: it returns a bool on every vertex subset of
    every graph. *)
Definition is_predicate (f : pred) : Prop :=
  ∀ g, graph_ok g → returns_bool f g.

(** [g] contains no f-set of order [b]. *)
Definition no_fset (f : pred) (b : Z) (g : graph) : Prop :=
  ∀ s, vertex_subset g s → Z.of_nat (length s) = b → f g s ≠ Ok true.

(** A counterexample graph: no f1-set of order [b1] and no f2-set of
    order [b2]. *)
Definition counterexample (f1 f2 : pred) (b1 b2 : Z) (g : graph) : Prop :=
  graph_ok g ∧ no_fset f1 b1 g ∧ no_fset f2 b2 g.

(** [gs] holds exactly one graph from each isomorphism class of the
    graphs satisfying [P]. *)
Definition representatives (P : graph → Prop) (gs : list graph) : Prop :=
  (∀ g, g ∈ gs → P g) ∧
  (∀ g, P g → ∃ g', g' ∈ gs ∧ isomorphic g g') ∧
  (∀ i j g1 g2, gs !! i = Some g1 → gs !! j = Some g2 →
     isomorphic g1 g2 → i = j).

(** Independent sets and cliques. *)
Definition independent (g : graph) (s : list nat) : Prop :=
  ∀ u v, u ∈ s → v ∈ s → ¬ adj g u v.

Definition clique (g : graph) (s : list nat) : Prop :=
  ∀ u v, u ∈ s → v ∈ s → v ≠ u → adj g u v.

(** [s] is k-sparse in [g]: every vertex of [s] has at most [k]
    neighbours in [s]. *)
Definition k_sparse (g : graph) (s : list nat) (k : Z) : Prop :=
  ∀ v, v ∈ s → Z.of_nat (induced_degree g s v) ≤ k.

(** A counterexample graph of the two command-line modules, for a
    property [P] of vertex sets: [g] has no set with [a] vertices that
    has the property, and the complement of [g] has none with [b]
    vertices. *)
Definition ramsey_counterexample (P : graph → list nat → Prop) (a b : Z)
    (g : graph) : Prop :=
  graph_ok g ∧
  (∀ s, vertex_subset g s → Z.of_nat (length s) = a → ¬ P g s) ∧
  (∀ s, vertex_subset g s → Z.of_nat (length s) = b → ¬ P (complement g) s).

(** Every adjacency list is in ascending order. *)
Definition sorted_lists (g : graph) : Prop :=
  ∀ u l, g !! u = Some l → StronglySorted lt l.

(** An option of the command line that only silences the table. *)
Definition quiet_option (oa : string * string) : Prop :=
  oa.1 ∈ ["-q"; "--quiet"].

(** ** Instances for running [main]

    A [getopt] for command lines without options, which hands the
    arguments over as they are, and an [int] that reads the numerals
    [0], [1] and [2]. *)

Definition getopt_plain (args : list string)
    : string + (list (string * string) * list string) :=
  inr ([], args).

Definition int_small (x : string) : option Z :=
  if bool_decide (x = "0") then Some 0
  else if bool_decide (x = "1") then Some 1
  else if bool_decide (x = "2") then Some 2
  else None.

(** ** Graphs of the doctests *)

Definition star3 : graph := [[3]; [3]; [3]; [0; 1; 2]]%nat.

Definition path5 : graph := [[1]; [0; 2]; [1; 3]; [2; 4]; [3]]%nat.

Definition path5_compl : graph :=
  [[2; 3; 4]; [3; 4]; [0; 4]; [0; 1]; [0; 1; 2]]%nat.

Definition cycle5 : graph := [[2; 3]; [3; 4]; [0; 4]; [0; 1]; [1; 2]]%nat.

(** A predicate that no set satisfies. *)
Definition never : pred := λ _ _, Ok false.

(** The representation invariant, as a check that can be run. *)
Definition graph_okb (g : graph) : bool :=
  forallb (λ u,
    match g !! u with
    | Some l =>
        bool_decide (NoDup l) &&
        forallb (λ v, bool_decide (v < length g)%nat && bool_decide (v ≠ u) &&
                      bool_decide (adj g v u)) l
    | None => true
    end) (seq 0 (length g)).

(** ** Invariants of the component search

    The vertices marked in [psh]; all neighbours of [u] inside [s] being
    marked; the component of [u] having at most [k] vertices. *)

Definition marked (psh : list bool) (i : nat) : Prop := psh !! i = Some true.

Definition closed_at (g : graph) (s : list nat) (psh : list bool) (u : nat)
    : Prop :=
  ∀ w, w ∈ s → adj g u w → marked psh w.

Definition bounded (k : Z) (g : graph) (s : list nat) (u : nat) : Prop :=
  ∀ c, NoDup c → (∀ w, w ∈ c → connected g s u w) → Z.of_nat (length c) ≤ k.

(** Between two roots, the marked vertices form a union of components
    of size at most [k]. *)
Record outer_inv (k : Z) (g : graph) (s : list nat) (psh : list bool)
    : Prop := {
  oi_len : length psh = length g;
  oi_sub : ∀ u, marked psh u → u ∈ s;
  oi_closed : ∀ u, marked psh u → closed_at g s psh u;
  oi_bounded : ∀ u, marked psh u → bounded k g s u
}.
Arguments oi_len {k g s psh} _.
Arguments oi_sub {k g s psh} _ u _.
Arguments oi_closed {k g s psh} _ u _.
Arguments oi_bounded {k g s psh} _ u _.

(** While the component of the root [v] is explored from the markers
    [psh0]: [C] lists the vertices found so far, and the vertices of [C]
    outside [todo] have been fully scanned. *)
Record comp_inv (k : Z) (g : graph) (s : list nat) (v : nat)
    (psh0 : list bool) (C todo : list nat) (st : dividedramsey.dfs_state)
    : Prop := {
  ci_len : length (dividedramsey.pushed st) = length g;
  ci_nodup : NoDup C;
  ci_size : dividedramsey.compsize st = Z.of_nat (length C);
  ci_le : dividedramsey.compsize st ≤ k;
  ci_conn : ∀ u, u ∈ C → connected g s v u;
  ci_stack : ∀ z, z ∈ dividedramsey.stack st → z ∈ C;
  ci_marked : ∀ i, marked (dividedramsey.pushed st) i ↔ marked psh0 i ∨ i ∈ C;
  ci_fresh : ∀ u, u ∈ C → ¬ marked psh0 u;
  ci_done : ∀ u, u ∈ C → u ∉ todo →
    closed_at g s (dividedramsey.pushed st) u
}.
Arguments ci_len {k g s v psh0 C todo st} _.
Arguments ci_nodup {k g s v psh0 C todo st} _.
Arguments ci_size {k g s v psh0 C todo st} _.
Arguments ci_le {k g s v psh0 C todo st} _.
Arguments ci_conn {k g s v psh0 C todo st} _ u _.
Arguments ci_stack {k g s v psh0 C todo st} _ z _.
Arguments ci_marked {k g s v psh0 C todo st} _ i.
Arguments ci_fresh {k g s v psh0 C todo st} _ u _.
Arguments ci_done {k g s v psh0 C todo st} _ u _ _.

(** * Properties *)

(** ** Doctests of the oracle *)

Example has_fset_doctests :
  [has_fset is_independent (-1) star3; has_fset is_independent 0 star3;
   has_fset is_independent 1 star3; has_fset is_independent 2 star3;
   has_fset is_independent 3 star3; has_fset is_independent 4 star3;
   has_fset is_clique 1 star3; has_fset is_clique 2 star3;
   has_fset is_clique 3 star3]
  = Ok <$> [false; true; true; true; true; false; true; true; false].
Proof. vm_compute. reflexivity. Qed.

Example has_fset_with_last_doctests :
  [has_fset_with_last is_independent (-1) star3;
   has_fset_with_last is_independent 0 star3;
   has_fset_with_last is_independent 1 star3;
   has_fset_with_last is_independent 2 star3;
   has_fset_with_last is_independent 3 star3;
   has_fset_with_last is_independent 4 star3;
   has_fset_with_last is_clique 1 star3;
   has_fset_with_last is_clique 2 star3;
   has_fset_with_last is_clique 3 star3]
  = Ok <$> [false; false; true; false; false; false; true; true; false].
Proof. vm_compute. reflexivity. Qed.

(** ** Results *)

Lemma getitem_Ok {A} (l : list A) i x : getitem l i = Ok x ↔ l !! i = Some x.
Proof. unfold getitem. destruct (l !! i); naive_solver. Qed.

Lemma getitem_lt {A} (l : list A) i :
  (i < length l)%nat → ∃ x, getitem l i = Ok x ∧ l !! i = Some x.
Proof.
  intros [x Hx]%lookup_lt_is_Some. exists x. by rewrite getitem_Ok.
Qed.

(** ** Subsequences of a range *)

Lemma elem_of_combinations {A} (l : list A) r s :
  s ∈ combinations l r ↔ s `sublist_of` l ∧ length s = r.
Proof.
  revert r s. induction l as [|x l IH]; intros [|r] s; simpl.
  - rewrite list_elem_of_singleton, sublist_nil_r. split; [by intros ->|].
    by intros [-> _].
  - rewrite elem_of_nil, sublist_nil_r. split; [done|]. by intros [-> ?].
  - rewrite list_elem_of_singleton. split.
    + intros ->. split; [apply sublist_nil_l|done].
    + intros [_ Hl]. by destruct s.
  - rewrite elem_of_app, list_elem_of_fmap. setoid_rewrite IH. split.
    + intros [(t & -> & Ht & <-)|[Hs <-]].
      * split; [by apply sublist_skip|done].
      * split; [by apply sublist_cons|done].
    + intros [Hs Hl]. apply sublist_cons_r in Hs as [Hs|(t & -> & Ht)].
      * by right.
      * left. exists t. simpl in Hl. split_and!; [done|done|lia].
Qed.

Lemma sublist_seq a n s :
  s `sublist_of` seq a n ↔
  StronglySorted lt s ∧ Forall (λ v, (a ≤ v < a + n)%nat) s.
Proof.
  revert a s. induction n as [|n IH]; intros a s; simpl.
  - rewrite sublist_nil_r. split.
    + intros ->. split; constructor.
    + intros [_ Hs]. destruct s as [|x s]; [done|].
      apply Forall_cons in Hs as [? _]. lia.
  - rewrite sublist_cons_r. setoid_rewrite IH. split.
    + intros [[Hs Hb]|(t & -> & Hs & Hb)].
      * split; [done|]. eapply Forall_impl; [done|]. simpl. lia.
      * split.
        -- constructor; [done|]. eapply Forall_impl; [done|]. simpl. lia.
        -- constructor; [lia|]. eapply Forall_impl; [done|]. simpl. lia.
    + intros [Hs Hb]. destruct s as [|x s]; [left; split; constructor|].
      apply StronglySorted_inv in Hs as [Hs Hx].
      apply Forall_cons in Hb as [Hxb Hb].
      destruct (decide (x = a)) as [->|Hne].
      * right. exists s. split_and!; [done|done|].
        rewrite Forall_forall in Hx, Hb. apply Forall_forall. intros y Hy.
        specialize (Hx y Hy). specialize (Hb y Hy). simpl in *. lia.
      * left. split; [by constructor|]. constructor; [lia|].
        rewrite Forall_forall in Hx, Hb. apply Forall_forall. intros y Hy.
        specialize (Hx y Hy). specialize (Hb y Hy). simpl in *. lia.
Qed.

Lemma vertex_subset_sublist g s :
  vertex_subset g s ↔ s `sublist_of` xrange (length g).
Proof.
  unfold vertex_subset, xrange. rewrite sublist_seq. f_equiv.
  apply Forall_proper; [|done]. intros v. lia.
Qed.

Lemma elem_of_combinations_xrange g r s :
  s ∈ combinations (xrange (length g)) r ↔ vertex_subset g s ∧ length s = r.
Proof. by rewrite elem_of_combinations, vertex_subset_sublist. Qed.

(** ** The oracle's loops *)

Lemma any_fset_true f g ss :
  any_fset f g ss = Ok true ↔
  ∃ pre s post, ss = pre ++ s :: post ∧
    Forall (λ t, f g t = Ok false) pre ∧ f g s = Ok true.
Proof.
  induction ss as [|s ss IH]; simpl.
  - split; [done|]. intros (pre & s & post & H & _). by destruct pre.
  - destruct (f g s) as [[]|e] eqn:Hs; simpl.
    + split; [|done]. intros _. exists [], s, ss. by split_and!.
    + rewrite IH. split.
      * intros (pre & t & post & -> & Hpre & Ht).
        exists (s :: pre), t, post. split_and!; [done| |done].
        by constructor.
      * intros (pre & t & post & Heq & Hpre & Ht).
        destruct pre as [|s' pre]; simplify_eq/=; [congruence|].
        apply Forall_cons in Hpre as [_ Hpre]. by exists pre, t, post.
    + split; [done|]. intros (pre & t & post & Heq & Hpre & Ht).
      destruct pre as [|s' pre]; simplify_eq/=; [congruence|].
      apply Forall_cons in Hpre as [? _]. congruence.
Qed.

Lemma any_fset_false f g ss :
  any_fset f g ss = Ok false ↔ Forall (λ t, f g t = Ok false) ss.
Proof.
  induction ss as [|s ss IH]; simpl.
  - split; [constructor|done].
  - rewrite Forall_cons, <-IH. destruct (f g s) as [[]|e]; simpl.
    + split; [done|]. by intros [? _].
    + split; [done|]. by intros [_ ?].
    + split; [done|]. by intros [? _].
Qed.

Lemma any_fset_returns f g ss :
  (∀ s, s ∈ ss → ∃ b, f g s = Ok b) → ∃ b, any_fset f g ss = Ok b.
Proof.
  induction ss as [|s ss IH]; simpl; intros Hf; [by eexists|].
  destruct (Hf s) as [[] ->]; [left|by eexists|]; simpl.
  apply IH. intros t Ht. apply Hf. by right.
Qed.

Lemma any_fset_true_elem f g ss :
  (∀ s, s ∈ ss → ∃ b, f g s = Ok b) →
  any_fset f g ss = Ok true ↔ ∃ s, s ∈ ss ∧ f g s = Ok true.
Proof.
  intros Hf. split.
  - intros (pre & s & post & -> & _ & Hs)%any_fset_true. exists s.
    split; [|done]. apply elem_of_app. right. left.
  - intros (s & Hin & Hs). destruct (any_fset_returns f g ss Hf) as [[] Hb];
      [done|]. rewrite any_fset_false, Forall_forall in Hb.
    specialize (Hb s Hin). congruence.
Qed.

Lemma any_fset_with_fmap f g last sss :
  any_fset_with f g last sss = any_fset f g ((λ ss, ss ++ [last]) <$> sss).
Proof. induction sss as [|ss sss IH]; simpl; [done|]. by rewrite IH. Qed.

(** The outcome only depends on the subsets up to the first f-set. *)
Lemma any_fset_prefix f f' g pre s post :
  Forall (λ t, f g t = Ok false) pre → f g s = Ok true →
  (∀ t, t ∈ pre ++ [s] → f' g t = f g t) →
  any_fset f' g (pre ++ s :: post) = Ok true.
Proof.
  intros Hpre Hs Hf'. apply any_fset_true. exists pre, s, post.
  split_and!; [done| |].
  - rewrite Forall_forall in Hpre. apply Forall_forall. intros t Ht.
    rewrite Hf'; [by apply Hpre|]. apply elem_of_app. by left.
  - rewrite Hf'; [done|]. apply elem_of_app. right. left.
Qed.

(** ** Lexicographic order of the enumeration *)

Lemma combinations_lex (l : list nat) r :
  StronglySorted lt l → StronglySorted lex_lt (combinations l r).
Proof.
  revert r. induction l as [|x l IH]; intros [|r] Hl; simpl.
  - repeat constructor.
  - constructor.
  - repeat constructor.
  - apply StronglySorted_inv in Hl as [Hl Hx].
    apply StronglySorted_app_2; [| |by apply IH].
    + intros t1 t2 (t & -> & _)%list_elem_of_fmap
        [Ht2 Hlen]%elem_of_combinations.
      destruct t2 as [|y t2]; [done|]. apply lex_lt_head.
      rewrite Forall_forall in Hx. apply Hx.
      eapply elem_of_sublist; [|done]. left.
    + eapply StronglySorted_fmap; [|by apply IH]. by constructor.
Qed.

Lemma StronglySorted_xrange n : StronglySorted lt (xrange n).
Proof.
  apply (sublist_seq 0 n). done.
Qed.

(** ** Vertex subsets and the last vertex *)

Lemma vertex_subset_snoc (g : graph) ss :
  (1 ≤ length g)%nat →
  ss `sublist_of` xrange (length g - 1) →
  vertex_subset g (ss ++ [(length g - 1)%nat]).
Proof.
  intros Hn [Hs Hb]%sublist_seq. split.
  - apply StronglySorted_app_2; [|done|repeat constructor].
    intros x y Hx ->%list_elem_of_singleton.
    rewrite Forall_forall in Hb. specialize (Hb x Hx). simpl in Hb. lia.
  - apply Forall_app. split; [|repeat constructor; lia].
    eapply Forall_impl; [done|]. simpl. lia.
Qed.

Lemma vertex_subset_with_last (g : graph) s :
  vertex_subset g s → (length g - 1)%nat ∈ s →
  ∃ ss, s = ss ++ [(length g - 1)%nat] ∧
        ss `sublist_of` xrange (length g - 1).
Proof.
  intros [Hs Hb] Hin. destruct s as [|y ss _] using rev_ind.
  { by apply elem_of_nil in Hin. }
  apply StronglySorted_app in Hs as (Hlt & Hss & _).
  apply Forall_app in Hb as [Hbss Hby]. rewrite Forall_singleton in Hby.
  assert (y = (length g - 1)%nat) as ->.
  { apply elem_of_app in Hin as [Hin| ->%list_elem_of_singleton]; [|done].
    specialize (Hlt _ y Hin (list_elem_of_here _ _)). lia. }
  exists ss. split; [done|]. apply sublist_seq. split; [done|].
  apply Forall_forall. intros x Hx.
  specialize (Hlt x _ Hx (list_elem_of_here _ _)). lia.
Qed.

Lemma vertex_subset_without_last (g : graph) s :
  vertex_subset g s → (length g - 1)%nat ∉ s →
  s `sublist_of` xrange (length g - 1).
Proof.
  intros [Hs Hb] Hnin. apply sublist_seq. split; [done|].
  rewrite Forall_forall in Hb. apply Forall_forall. intros x Hx.
  specialize (Hb x Hx). simpl in Hb.
  assert (x ≠ (length g - 1)%nat) by (by intros ->). lia.
Qed.

Lemma vertex_subset_length (g : graph) s :
  vertex_subset g s → (length s ≤ length g)%nat.
Proof.
  intros Hs%vertex_subset_sublist%sublist_length.
  unfold xrange in Hs. by rewrite length_seq in Hs.
Qed.

(** ** The oracle: [has_fset] *)

Lemma has_fset_unfold f b g :
  0 ≤ b ≤ Z.of_nat (length g) →
  has_fset f b g =
  any_fset f g (combinations (xrange (length g)) (Z.to_nat b)).
Proof.
  intros Hb. unfold has_fset.
  destruct (Z.ltb_spec b 0); [lia|].
  destruct (Z.gtb_spec b (Z.of_nat (length g))); [lia|done].
Qed.

Lemma has_fset_true_range f b g :
  has_fset f b g = Ok true → 0 ≤ b ≤ Z.of_nat (length g).
Proof.
  unfold has_fset. destruct (Z.ltb_spec b 0); [done|].
  destruct (Z.gtb_spec b (Z.of_nat (length g))); [done|lia].
Qed.

Lemma has_fset_true f b g :
  returns_bool f g →
  has_fset f b g = Ok true ↔
  ∃ s, vertex_subset g s ∧ Z.of_nat (length s) = b ∧ f g s = Ok true.
Proof.
  intros Hf. split.
  - intros Ht. pose proof (has_fset_true_range _ _ _ Ht) as Hb.
    rewrite has_fset_unfold in Ht by done.
    apply any_fset_true in Ht as (pre & s & post & Heq & _ & Hs).
    assert (s ∈ combinations (xrange (length g)) (Z.to_nat b)) as Hin.
    { rewrite Heq. apply elem_of_app. right. left. }
    apply elem_of_combinations_xrange in Hin as [Hv Hl].
    exists s. split_and!; [done|lia|done].
  - intros (s & Hv & Hl & Hs).
    pose proof (vertex_subset_length _ _ Hv).
    rewrite has_fset_unfold by lia. apply any_fset_true_elem.
    + intros t [Ht _]%elem_of_combinations_xrange. by apply Hf.
    + exists s. split; [|done]. apply elem_of_combinations_xrange.
      split; [done|lia].
Qed.

Lemma has_fset_false f b g :
  0 ≤ b ≤ Z.of_nat (length g) →
  has_fset f b g = Ok false ↔
  ∀ s, vertex_subset g s → Z.of_nat (length s) = b → f g s = Ok false.
Proof.
  intros Hb. rewrite has_fset_unfold, any_fset_false, Forall_forall by done.
  setoid_rewrite elem_of_combinations_xrange. split.
  - intros H s Hv Hl. apply H. split; [done|lia].
  - intros H s [Hv Hl]. apply H; [done|lia].
Qed.

Lemma has_fset_returns f b g :
  returns_bool f g → ∃ r, has_fset f b g = Ok r.
Proof.
  intros Hf. unfold has_fset. destruct (b <? 0); [by eexists|].
  destruct (b >? _); [by eexists|]. apply any_fset_returns.
  intros t [Ht _]%elem_of_combinations_xrange. by apply Hf.
Qed.

(** C4.  [has_fset f b g] is [False] for [b < 0] and for [b] above the
    order of [g]; otherwise it is [True] exactly when some ascending
    size-[b] subset of the vertex range satisfies [f].  The subsets are
    enumerated in lexicographic order, and the search stops at the first
    satisfying one: predicates that agree with [f] up to and including
    that subset give [True] whatever they do on later subsets. *)
Theorem has_fset_spec (f : pred) (b : Z) (g : graph) :
  (b < 0 → has_fset f b g = Ok false) ∧
  (b > Z.of_nat (length g) → has_fset f b g = Ok false) ∧
  (0 ≤ b ≤ Z.of_nat (length g) → returns_bool f g →
     (has_fset f b g = Ok true ↔
        ∃ s, vertex_subset g s ∧ Z.of_nat (length s) = b ∧ f g s = Ok true) ∧
     (has_fset f b g = Ok true ∨ has_fset f b g = Ok false) ∧
     ∃ css : list (list nat),
       (∀ s, s ∈ css ↔ vertex_subset g s ∧ Z.of_nat (length s) = b) ∧
       StronglySorted lex_lt css ∧
       ∀ pre s post, css = pre ++ s :: post →
         Forall (λ t, f g t = Ok false) pre → f g s = Ok true →
         ∀ f' : pred, (∀ t, t ∈ pre ++ [s] → f' g t = f g t) →
           has_fset f' b g = Ok true).
Proof.
  split_and!.
  - intros Hb. unfold has_fset. by destruct (Z.ltb_spec b 0); [|lia].
  - intros Hb. unfold has_fset. destruct (b <? 0); [done|].
    by destruct (Z.gtb_spec b (Z.of_nat (length g))); [|lia].
  - intros Hb Hf. split_and!.
    + by apply has_fset_true.
    + destruct (has_fset_returns f b g Hf) as [[] ->]; auto.
    + exists (combinations (xrange (length g)) (Z.to_nat b)). split_and!.
      * intros s. rewrite elem_of_combinations_xrange.
        split; intros [? ?]; (split; [done|lia]).
      * apply combinations_lex, StronglySorted_xrange.
      * intros pre s post Heq Hpre Hs f' Hf'.
        rewrite has_fset_unfold, Heq by done.
        by eapply any_fset_prefix.
Qed.

(** ** The oracle: [has_fset_with_last] *)

Lemma has_fset_with_last_unfold f b g :
  1 ≤ b ≤ Z.of_nat (length g) →
  has_fset_with_last f b g =
  any_fset f g ((λ ss, ss ++ [(length g - 1)%nat]) <$>
                combinations (xrange (length g - 1)) (Z.to_nat (b - 1))).
Proof.
  intros Hb. unfold has_fset_with_last.
  destruct (Z.ltb_spec b 1); [lia|].
  destruct (Z.gtb_spec b (Z.of_nat (length g))); [lia|].
  apply any_fset_with_fmap.
Qed.

Lemma has_fset_with_last_true_range f b g :
  has_fset_with_last f b g = Ok true → 1 ≤ b ≤ Z.of_nat (length g).
Proof.
  unfold has_fset_with_last. destruct (Z.ltb_spec b 1); [done|].
  destruct (Z.gtb_spec b (Z.of_nat (length g))); [done|lia].
Qed.

Lemma elem_of_with_last (g : graph) r s :
  (1 ≤ length g)%nat →
  s ∈ (λ ss, ss ++ [(length g - 1)%nat]) <$>
      combinations (xrange (length g - 1)) r ↔
  vertex_subset g s ∧ length s = S r ∧ (length g - 1)%nat ∈ s.
Proof.
  intros Hn. rewrite list_elem_of_fmap. split.
  - intros (ss & -> & [Hss Hl]%elem_of_combinations). split_and!.
    + by apply vertex_subset_snoc.
    + rewrite length_app. simpl. lia.
    + apply elem_of_app. right. left.
  - intros (Hv & Hl & Hin).
    destruct (vertex_subset_with_last g s Hv Hin) as (ss & -> & Hss).
    exists ss. split; [done|]. apply elem_of_combinations. split; [done|].
    rewrite length_app in Hl. simpl in Hl. lia.
Qed.

Lemma has_fset_with_last_returns f b g :
  returns_bool f g → ∃ r, has_fset_with_last f b g = Ok r.
Proof.
  intros Hf. unfold has_fset_with_last.
  destruct (Z.ltb_spec b 1); [by eexists|].
  destruct (Z.gtb_spec b (Z.of_nat (length g))); [by eexists|].
  rewrite any_fset_with_fmap. apply any_fset_returns.
  intros t [Ht _]%elem_of_with_last; [by apply Hf|lia].
Qed.

Lemma has_fset_with_last_true f b g :
  returns_bool f g →
  has_fset_with_last f b g = Ok true ↔
  ∃ s, vertex_subset g s ∧ Z.of_nat (length s) = b ∧
       (length g - 1)%nat ∈ s ∧ f g s = Ok true.
Proof.
  intros Hf. split.
  - intros Ht. pose proof (has_fset_with_last_true_range _ _ _ Ht) as Hb.
    rewrite has_fset_with_last_unfold in Ht by done.
    apply any_fset_true in Ht as (pre & s & post & Heq & _ & Hs).
    assert (s ∈ (λ ss, ss ++ [(length g - 1)%nat]) <$>
              combinations (xrange (length g - 1)) (Z.to_nat (b - 1)))
      as Hin.
    { rewrite Heq. apply elem_of_app. right. left. }
    apply elem_of_with_last in Hin as (Hv & Hl & Hin); [|lia].
    exists s. split_and!; [done|lia|done|done].
  - intros (s & Hv & Hl & Hin & Hs).
    pose proof (vertex_subset_length _ _ Hv).
    assert (1 ≤ length s)%nat by (destruct s; [by apply elem_of_nil in Hin|
      simpl; lia]).
    rewrite has_fset_with_last_unfold by lia. apply any_fset_true_elem.
    + intros t [Ht _]%elem_of_with_last; [by apply Hf|lia].
    + exists s. split; [|done]. apply elem_of_with_last; [lia|].
      split_and!; [done|lia|done].
Qed.

(** C5.  [has_fset_with_last f b g] is [False] for [b < 1] and for [b]
    above the order [n] of [g]; otherwise it is [True] exactly when some
    size-[b] subset containing vertex [n-1] satisfies [f], and it is
    computed by testing [f] on [ss + (n-1,)] for the size-[(b-1)] subsets
    [ss] of the first [n-1] vertices. *)
Theorem has_fset_with_last_spec (f : pred) (b : Z) (g : graph) :
  (b < 1 → has_fset_with_last f b g = Ok false) ∧
  (b > Z.of_nat (length g) → has_fset_with_last f b g = Ok false) ∧
  (1 ≤ b ≤ Z.of_nat (length g) → returns_bool f g →
     let last := (length g - 1)%nat in
     (has_fset_with_last f b g = Ok true ↔
        ∃ s, vertex_subset g s ∧ Z.of_nat (length s) = b ∧
             last ∈ s ∧ f g s = Ok true) ∧
     (has_fset_with_last f b g = Ok true ∨
      has_fset_with_last f b g = Ok false) ∧
     (has_fset_with_last f b g = Ok true ↔
        ∃ ss, StronglySorted lt ss ∧ Forall (λ v, (v < last)%nat) ss ∧
              Z.of_nat (length ss) = b - 1 ∧ f g (ss ++ [last]) = Ok true)).
Proof.
  split_and!.
  - intros Hb. unfold has_fset_with_last.
    by destruct (Z.ltb_spec b 1); [|lia].
  - intros Hb. unfold has_fset_with_last. destruct (b <? 1); [done|].
    by destruct (Z.gtb_spec b (Z.of_nat (length g))); [|lia].
  - intros Hb Hf last. split_and!.
    + by apply has_fset_with_last_true.
    + destruct (has_fset_with_last_returns f b g Hf) as [[] ->]; auto.
    + rewrite has_fset_with_last_unfold by done.
      rewrite any_fset_true_elem; last first.
      { intros t [Ht _]%elem_of_with_last; [by apply Hf|lia]. }
      setoid_rewrite list_elem_of_fmap.
      setoid_rewrite elem_of_combinations.
      setoid_rewrite sublist_seq. split.
      * intros (s & (ss & -> & (Hs & Hall) & Hl) & Hfs). exists ss.
        split_and!; [done| |lia|done].
        eapply Forall_impl; [done|]. simpl. unfold last. lia.
      * intros (ss & Hs & Hall & Hl & Hfs). exists (ss ++ [last]).
        split; [|done]. exists ss. split_and!; [done|done| |lia].
        eapply Forall_impl; [done|]. simpl. unfold last. lia.
Qed.

(** ** Induced subgraphs on a prefix of the vertices *)

Lemma adj_lt g u v : adj g u v → (u < length g)%nat.
Proof. intros (l & Hl & _). by eapply lookup_lt_Some. Qed.

Lemma induced_prefix_length g m :
  (m ≤ length g)%nat → length (induced_prefix g m) = m.
Proof.
  intros Hm. unfold induced_prefix. rewrite length_fmap, length_take. lia.
Qed.

Lemma induced_prefix_lookup g m u :
  induced_prefix g m !! u =
  if decide (u < m)%nat then filter (λ x, (x < m)%nat) <$> g !! u else None.
Proof.
  unfold induced_prefix. rewrite list_lookup_fmap. case_decide.
  - by rewrite lookup_take_lt.
  - by rewrite lookup_take_ge by lia.
Qed.

Lemma induced_prefix_adj g m u v :
  adj (induced_prefix g m) u v ↔ (u < m)%nat ∧ (v < m)%nat ∧ adj g u v.
Proof.
  unfold adj. setoid_rewrite induced_prefix_lookup. case_decide.
  - split.
    + intros (l & Hl & Hv). destruct (g !! u) as [l'|]; simplify_eq/=.
      apply list_elem_of_filter in Hv as [? ?]. eauto.
    + intros (_ & Hv & l & -> & Hin). eexists. split; [done|].
      by apply list_elem_of_filter.
  - split; [by intros (l & ? & _)|]. intros (? & _). lia.
Qed.

Lemma induced_prefix_ok g m :
  (m ≤ length g)%nat → graph_ok g → graph_ok (induced_prefix g m).
Proof.
  intros Hm Hg u l Hl. rewrite induced_prefix_lookup in Hl.
  case_decide; [|done]. destruct (g !! u) as [l'|] eqn:Hu; simplify_eq/=.
  destruct (Hg u l' Hu) as [Hnd Hl']. split; [by apply NoDup_filter|].
  intros v [Hv Hin]%list_elem_of_filter.
  destruct (Hl' v Hin) as (_ & Hne & Hadj).
  rewrite induced_prefix_length by done. split_and!; [done|done|].
  by apply induced_prefix_adj.
Qed.

Lemma induced_prefix_embedding g m :
  (m ≤ length g)%nat → embedding (induced_prefix g m) g id.
Proof.
  intros Hm. unfold embedding. rewrite induced_prefix_length by done.
  split_and!.
  - simpl. lia.
  - done.
  - intros u v Hu Hv. rewrite induced_prefix_adj. simpl.
    split; [by intros (_ & _ & ?)|by intros ?].
Qed.

Lemma has_fset_with_last_sound f b g :
  returns_bool f g →
  has_fset_with_last f b g = Ok true → has_fset f b g = Ok true.
Proof.
  intros Hf. rewrite has_fset_with_last_true, has_fset_true by done.
  intros (s & ? & ? & _ & ?). eauto.
Qed.

(** If [p] is [g] without its last vertex and has no f-set of order
    [b], every f-set of order [b] of [g] contains the last vertex. *)
Lemma has_fset_with_last_enough f b g p :
  returns_bool f g → induced_hereditary f →
  graph_ok g → graph_ok p → embedding p g id → S (length p) = length g →
  has_fset f b p = Ok false →
  has_fset f b g = Ok true → has_fset_with_last f b g = Ok true.
Proof.
  intros Hf Hher Hg Hpok Hemb Hlen Hp.
  rewrite has_fset_with_last_true, has_fset_true by done.
  intros (s & Hv & Hl & Hs). exists s. split_and!; [done|done| |done].
  destruct (decide ((length g - 1)%nat ∈ s)) as [|Hnin]; [done|exfalso].
  assert (vertex_subset p s) as Hvp.
  { apply vertex_subset_sublist.
    replace (length p) with (length g - 1)%nat by lia.
    by apply vertex_subset_without_last. }
  pose proof (vertex_subset_length _ _ Hvp) as Hle.
  assert (f p s = Ok true) as Hps.
  { eapply (Hher p g id s s); [done..| |done]. by rewrite list_fmap_id. }
  rewrite has_fset_false in Hp by lia.
  specialize (Hp s Hvp Hl). congruence.
Qed.

(** C2.  A last-vertex f-set is an f-set, and for an induced-hereditary
    [f], when the graph induced by all vertices but the last one has no
    f-set of order [b], the extended graph has one exactly when it has
    one containing the last vertex. *)
Theorem has_fset_with_last_complete (f : pred) (b : Z) (g : graph) :
  returns_bool f g →
  (has_fset_with_last f b g = Ok true → has_fset f b g = Ok true) ∧
  (induced_hereditary f → graph_ok g → (1 ≤ length g)%nat →
   has_fset f b (induced_prefix g (length g - 1)) = Ok false →
   (has_fset f b g = Ok true ↔ has_fset_with_last f b g = Ok true)).
Proof.
  intros Hf. split; [by apply has_fset_with_last_sound|].
  intros Hher Hg Hn Hp. split; [|by apply has_fset_with_last_sound].
  apply (has_fset_with_last_enough f b g
           (induced_prefix g (length g - 1))); try done.
  - apply induced_prefix_ok; [lia|done].
  - apply induced_prefix_embedding. lia.
  - rewrite induced_prefix_length; lia.
Qed.

(** ** Independent sets and cliques *)

Lemma adj_lookup g u l v : g !! u = Some l → adj g u v ↔ v ∈ l.
Proof.
  intros Hl. unfold adj. split; [|by eauto].
  intros (l' & Hl' & Hin). congruence.
Qed.

Lemma is_independent_nbrs_true s nbrs :
  is_independent_nbrs s nbrs = true ↔ ∀ x, x ∈ nbrs → x ∉ s.
Proof.
  induction nbrs as [|x nbrs IH]; simpl.
  - split; [|done]. intros _ x Hx. by apply elem_of_nil in Hx.
  - case_bool_decide as Hx.
    + split; [done|]. intros H. destruct (H x); [left|done].
    + rewrite IH. split.
      * intros H y [->|Hy]%elem_of_cons; auto.
      * intros H y Hy. apply H. by right.
Qed.

Lemma is_independent_loop_spec g s vs :
  Forall (λ v, (v < length g)%nat) vs →
  ∃ b, is_independent_loop g s vs = Ok b ∧
       (b = true ↔ ∀ u v, u ∈ vs → v ∈ s → ¬ adj g u v).
Proof.
  induction 1 as [|u vs Hu _ IH]; simpl.
  - exists true. split; [done|]. split; [|done].
    intros _ u v Hu. by apply elem_of_nil in Hu.
  - destruct (getitem_lt g u Hu) as (l & -> & Hl). simpl.
    destruct (is_independent_nbrs s l) eqn:Hnb.
    + destruct IH as (b & -> & Hb). exists b. split; [done|].
      rewrite Hb. rewrite is_independent_nbrs_true in Hnb. split.
      * intros H u' v [->|Hu']%elem_of_cons Hv; [|by apply H].
        rewrite (adj_lookup _ _ _ _ Hl). intros ?. by eapply Hnb.
      * intros H u' v Hu'. apply H. by right.
    + exists false. split; [done|]. split; [done|]. intros H.
      assert (is_independent_nbrs s l = true); [|congruence].
      apply is_independent_nbrs_true. intros x Hx Hs.
      apply (H u x); [left|done|]. by apply (adj_lookup _ _ _ _ Hl).
Qed.

Lemma is_independent_spec g s :
  Forall (λ v, (v < length g)%nat) s →
  ∃ b, is_independent g s = Ok b ∧
       (b = true ↔ ∀ u v, u ∈ s → v ∈ s → ¬ adj g u v).
Proof. apply is_independent_loop_spec. Qed.

Lemma is_clique_inner_spec g v xs :
  (v < length g)%nat →
  ∃ b, is_clique_inner g v xs = Ok b ∧
       (b = true ↔ ∀ x, x ∈ xs → x ≠ v → adj g v x).
Proof.
  intros Hv. destruct (getitem_lt g v Hv) as (l & Hgl & Hl).
  induction xs as [|x xs IH]; simpl.
  - exists true. split; [done|]. split; [|done].
    intros _ x Hx. by apply elem_of_nil in Hx.
  - destruct IH as (b & IHeq & Hb). case_bool_decide as Hne.
    + rewrite Hgl. simpl. case_bool_decide as Hin.
      * exists false. split; [done|]. split; [done|]. intros H.
        destruct Hin. apply (adj_lookup _ _ _ _ Hl). apply H; [left|done].
      * exists b. split; [done|]. rewrite Hb. split.
        -- intros H y [->|Hy]%elem_of_cons ?; [|by apply H].
           by apply (adj_lookup _ _ _ _ Hl).
        -- intros H y Hy. apply H. by right.
    + exists b. split; [done|]. rewrite Hb. split.
      * intros H y [->|Hy]%elem_of_cons ?; [|by apply H].
        destruct Hne. done.
      * intros H y Hy. apply H. by right.
Qed.

Lemma is_clique_loop_spec g s vs :
  Forall (λ v, (v < length g)%nat) vs →
  ∃ b, is_clique_loop g s vs = Ok b ∧
       (b = true ↔ ∀ u v, u ∈ vs → v ∈ s → v ≠ u → adj g u v).
Proof.
  induction 1 as [|u vs Hu _ IH]; simpl.
  - exists true. split; [done|]. split; [|done].
    intros _ u v Hu. by apply elem_of_nil in Hu.
  - destruct (is_clique_inner_spec g u s Hu) as (b1 & -> & Hb1). simpl.
    destruct b1.
    + destruct IH as (b & -> & Hb). exists b. split; [done|].
      rewrite Hb. split.
      * intros H u' v [->|Hu']%elem_of_cons Hv Hne; [|by apply H].
        by apply Hb1.
      * intros H u' v Hu'. apply H. by right.
    + exists false. split; [done|]. split; [done|]. intros H.
      assert (false = true); [|done]. apply Hb1. intros x Hx Hne.
      apply H; [left|done|done].
Qed.

Lemma is_clique_spec g s :
  Forall (λ v, (v < length g)%nat) s →
  ∃ b, is_clique g s = Ok b ∧
       (b = true ↔ ∀ u v, u ∈ s → v ∈ s → v ≠ u → adj g u v).
Proof. apply is_clique_loop_spec. Qed.

Lemma is_independent_returns g : returns_bool is_independent g.
Proof.
  intros s [_ Hs]. destruct (is_independent_spec g s Hs) as (b & ? & _).
  eauto.
Qed.

Lemma is_clique_returns g : returns_bool is_clique g.
Proof.
  intros s [_ Hs]. destruct (is_clique_spec g s Hs) as (b & ? & _). eauto.
Qed.

(** A predicate that only looks at the adjacency between members of the
    set is induced-hereditary. *)
Lemma induced_hereditary_intro (f : pred) (P : graph → list nat → Prop) :
  (∀ g s, Forall (λ v, (v < length g)%nat) s →
     ∃ b, f g s = Ok b ∧ (b = true ↔ P g s)) →
  (∀ h g φ s s', embedding h g φ →
     Forall (λ v, (v < length h)%nat) s → s' ≡ₚ φ <$> s →
     P h s ↔ P g s') →
  induced_hereditary f.
Proof.
  intros Hspec HP h g φ s s' _ _ Hemb [_ Hs] [_ Hs'] Hperm.
  destruct (Hspec h s Hs) as (b & -> & Hb).
  destruct (Hspec g s' Hs') as (b' & -> & Hb').
  specialize (HP h g φ s s' Hemb Hs Hperm).
  split; intros [= ->]; f_equal; [apply Hb', HP, Hb|apply Hb, HP, Hb']; done.
Qed.

Lemma is_independent_hereditary : induced_hereditary is_independent.
Proof.
  apply (induced_hereditary_intro _
    (λ g s, ∀ u v, u ∈ s → v ∈ s → ¬ adj g u v)).
  { apply is_independent_spec. }
  intros h g φ s s' (_ & _ & Hadj) Hs Hperm.
  rewrite Forall_forall in Hs. split.
  - intros H u' v'. rewrite !Hperm.
    intros (u & -> & Hu)%list_elem_of_fmap (v & -> & Hv)%list_elem_of_fmap.
    rewrite <-Hadj by auto. by apply H.
  - intros H u v Hu Hv. rewrite Hadj by auto.
    apply H; rewrite Hperm; by apply list_elem_of_fmap_2.
Qed.

Lemma is_clique_hereditary : induced_hereditary is_clique.
Proof.
  apply (induced_hereditary_intro _
    (λ g s, ∀ u v, u ∈ s → v ∈ s → v ≠ u → adj g u v)).
  { apply is_clique_spec. }
  intros h g φ s s' (_ & Hinj & Hadj) Hs Hperm.
  rewrite Forall_forall in Hs. split.
  - intros H u' v'. rewrite !Hperm.
    intros (u & -> & Hu)%list_elem_of_fmap (v & -> & Hv)%list_elem_of_fmap
      Hne.
    rewrite <-Hadj by auto. apply H; [done|done|]. by intros ->.
  - intros H u v Hu Hv Hne. rewrite Hadj by auto.
    apply H; [rewrite Hperm; by apply list_elem_of_fmap_2..|].
    intros Heq. apply Hne. symmetry. by apply Hinj; auto.
Qed.

(** ** k-sparse sets *)

Import sparseramsey.

Lemma is_k_sparse_count_None k s nbrs d :
  is_k_sparse_count k s nbrs d = None ↔
  let c := Z.of_nat (length (filter (λ x, x ∈ s) nbrs)) in
  1 ≤ c ∧ d + c > k.
Proof.
  revert d. induction nbrs as [|x nbrs IH]; intros d; simpl.
  - split; [done|]. lia.
  - rewrite filter_cons. case_bool_decide as Hx.
    + rewrite decide_True by done. simpl length.
      destruct (Z.gtb_spec (d + 1) k).
      * split; [lia|done].
      * rewrite IH. simpl. lia.
    + rewrite decide_False by done. apply IH.
Qed.

Lemma is_k_sparse_loop_spec k g s vs :
  Forall (λ v, (v < length g)%nat) vs →
  ∃ b, is_k_sparse_loop k g s vs = Ok b ∧
    (b = false ↔ ∃ v l, v ∈ vs ∧ g !! v = Some l ∧
       is_k_sparse_count k s l 0 = None).
Proof.
  induction 1 as [|v vs Hv _ IH]; simpl.
  - exists true. split; [done|]. split; [done|].
    intros (v & l & Hin & _). by apply elem_of_nil in Hin.
  - destruct (getitem_lt g v Hv) as (l & -> & Hl). simpl.
    destruct (is_k_sparse_count k s l 0) as [d|] eqn:Hc.
    + destruct IH as (b & -> & Hb). exists b. split; [done|].
      rewrite Hb. split.
      * intros (u & l' & Hin & ?). exists u, l'. split; [by right|done].
      * intros (u & l' & [->|Hin]%elem_of_cons & Hl' & Hc').
        -- congruence.
        -- by exists u, l'.
    + exists false. split; [done|]. split; [|done]. intros _.
      exists v, l. split; [left|done].
Qed.

(** The vertex whose count first exceeds [k] ends the search: the
    vertices after it are not looked at. *)
Lemma is_k_sparse_loop_exit k g s v vs l :
  g !! v = Some l → is_k_sparse_count k s l 0 = None →
  is_k_sparse_loop k g s (v :: vs) = Ok false.
Proof.
  intros Hl Hc. simpl. apply getitem_Ok in Hl. rewrite Hl. simpl.
  by rewrite Hc.
Qed.

Lemma filter_swap_length (l s : list nat) :
  NoDup l → NoDup s →
  length (filter (λ x, x ∈ s) l) = length (filter (λ x, x ∈ l) s).
Proof.
  intros Hl Hs. apply Permutation_length, NoDup_Permutation.
  - by apply NoDup_filter.
  - by apply NoDup_filter.
  - intros x. rewrite !list_elem_of_filter. tauto.
Qed.

Lemma induced_degree_lookup g s v l :
  g !! v = Some l → induced_degree g s v = length (filter (λ x, x ∈ l) s).
Proof.
  intros Hl. unfold induced_degree. f_equal. apply list_filter_iff.
  intros x. by apply adj_lookup.
Qed.

Lemma vertex_subset_NoDup g s : vertex_subset g s → NoDup s.
Proof.
  intros Hs%vertex_subset_sublist. eapply sublist_NoDup; [|done].
  apply NoDup_seq.
Qed.

Lemma is_k_sparse_true k g s :
  0 ≤ k → graph_ok g → vertex_subset g s →
  ∃ b, is_k_sparse k g s = Ok b ∧
    (b = true ↔ ∀ v, v ∈ s → Z.of_nat (induced_degree g s v) ≤ k).
Proof.
  intros Hk Hg Hs. pose proof (vertex_subset_NoDup _ _ Hs) as Hnd.
  destruct Hs as [_ Hs].
  destruct (is_k_sparse_loop_spec k g s s Hs) as (b & Hb & Hfalse).
  exists b. split; [done|].
  rewrite Forall_forall in Hs. destruct b.
  - split; [intros _|done]. intros v Hv.
    destruct (lookup_lt_is_Some_2 g v (Hs v Hv)) as [l Hl].
    destruct (Z.le_gt_cases (Z.of_nat (induced_degree g s v)) k) as [|Hgt];
      [done|].
    assert (false = true) as [=]. symmetry. apply Hfalse. exists v, l.
    split_and!; [done|done|]. apply is_k_sparse_count_None. simpl.
    rewrite filter_swap_length by (done || by apply (Hg v l)).
    rewrite <-(induced_degree_lookup g s v l) by done. lia.
  - split; [done|]. intros Hdeg. exfalso.
    destruct Hfalse as [(v & l & Hv & Hl & Hc) _]; [done|].
    apply is_k_sparse_count_None in Hc. simpl in Hc.
    rewrite filter_swap_length in Hc by (done || by apply (Hg v l)).
    rewrite <-(induced_degree_lookup g s v l) in Hc by done.
    specialize (Hdeg v Hv). lia.
Qed.

(** C6.  For [k >= 0], the predicate made by [make_k_sparse_func k] is
    [True] on a vertex subset [s] of a graph exactly when every vertex
    of [s] has at most [k] neighbours inside [s]; and a vertex with more
    than [k] neighbours in [s] ends the search with [False] whatever
    follows it. *)
Theorem make_k_sparse_func_spec (k : Z) (g : graph) (s : list nat) :
  0 ≤ k → graph_ok g → vertex_subset g s →
  ∃ f, make_k_sparse_func k = Ok f ∧
    (∃ b, f g s = Ok b ∧
       (b = true ↔ ∀ v, v ∈ s → Z.of_nat (induced_degree g s v) ≤ k)) ∧
    (∀ v rest, (v < length g)%nat → Z.of_nat (induced_degree g s v) > k →
       is_k_sparse_loop k g s (v :: rest) = Ok false).
Proof.
  intros Hk Hg Hs. exists (is_k_sparse k). split_and!; [done| |].
  - by apply is_k_sparse_true.
  - intros v rest Hv Hdeg.
    destruct (lookup_lt_is_Some_2 g v Hv) as [l Hl].
    apply (is_k_sparse_loop_exit k g s v rest l Hl).
    apply is_k_sparse_count_None. simpl.
    rewrite filter_swap_length;
      [|by apply (Hg v l)|by eapply vertex_subset_NoDup].
    rewrite <-(induced_degree_lookup g s v l) by done. lia.
Qed.

(** ** Complement graphs and the k-sparse complement predicate *)

Lemma complement_length g : length (complement g) = length g.
Proof. apply length_imap. Qed.

Lemma complement_lookup g v :
  complement g !! v = complement_nbrs (length g) v <$> g !! v.
Proof. unfold complement. by rewrite list_lookup_imap. Qed.

Lemma complement_adj g u v :
  adj (complement g) u v ↔
  (u < length g)%nat ∧ (v < length g)%nat ∧ v ≠ u ∧ ¬ adj g u v.
Proof.
  unfold adj. setoid_rewrite complement_lookup.
  destruct (g !! u) as [l|] eqn:Hl; simpl.
  - apply lookup_lt_Some in Hl as Hu. split.
    + unfold complement_nbrs.
      intros (l' & [= <-] & [[Hne Hnin] Hv%elem_of_seq]%list_elem_of_filter).
      split_and!; [done|lia|done|].
      intros (? & [= <-] & ?). done.
    + intros (_ & Hv & Hne & Hnadj). eexists. split; [done|].
      unfold complement_nbrs. apply list_elem_of_filter. split.
      * split; [done|]. intros Hin. apply Hnadj. eauto.
      * apply elem_of_seq. lia.
  - apply lookup_ge_None in Hl. split; [by intros (? & ? & _)|].
    intros (? & _). lia.
Qed.

Lemma is_k_sparse_compl_count_spec k g v l xs d :
  g !! v = Some l →
  ∃ r, is_k_sparse_compl_count k g v xs d = Ok r ∧
    (r = None ↔
       let c := Z.of_nat (length (filter (λ x, x ≠ v ∧ x ∉ l) xs)) in
       1 ≤ c ∧ d + c > k).
Proof.
  intros Hl. pose proof (proj2 (getitem_Ok g v l) Hl) as Hgl.
  revert d. induction xs as [|x xs IH]; intros d; simpl.
  - eexists. split; [done|]. split; [done|]. lia.
  - rewrite filter_cons. case_bool_decide as Hne.
    + rewrite Hgl. simpl. case_bool_decide as Hin.
      * rewrite decide_True by done. simpl length.
        destruct (Z.gtb_spec (d + 1) k).
        -- eexists. split; [done|]. split; [lia|done].
        -- destruct (IH (d + 1)) as (r & -> & Hr). exists r.
           split; [done|]. rewrite Hr. simpl. lia.
      * rewrite decide_False by tauto. apply IH.
    + simpl. rewrite decide_False by tauto. apply IH.
Qed.

Lemma complement_count_eq (g : graph) s v l :
  NoDup s → Forall (λ x, (x < length g)%nat) s →
  length (filter (λ x, x ∈ s) (complement_nbrs (length g) v l)) =
  length (filter (λ x, x ≠ v ∧ x ∉ l) s).
Proof.
  intros Hnd Hs. unfold complement_nbrs.
  apply Permutation_length, NoDup_Permutation.
  - apply NoDup_filter, NoDup_filter, NoDup_seq.
  - by apply NoDup_filter.
  - intros x. rewrite !list_elem_of_filter, elem_of_seq.
    rewrite Forall_forall in Hs. split; [tauto|].
    intros [? Hx]. specialize (Hs x Hx). simpl in Hs.
    split; [done|]. split; [done|]. lia.
Qed.

Lemma is_k_sparse_compl_loop_eq k g s vs :
  NoDup s → Forall (λ x, (x < length g)%nat) s →
  Forall (λ x, (x < length g)%nat) vs →
  is_k_sparse_compl_loop k g s vs = is_k_sparse_loop k (complement g) s vs.
Proof.
  intros Hnd Hs. induction 1 as [|v vs Hv _ IH]; simpl; [done|].
  destruct (lookup_lt_is_Some_2 g v Hv) as [l Hl].
  destruct (is_k_sparse_compl_count_spec k g v l s 0 Hl) as (r & -> & Hr).
  assert (getitem (complement g) v = Ok (complement_nbrs (length g) v l))
    as ->.
  { apply getitem_Ok. by rewrite complement_lookup, Hl. }
  simpl.
  pose proof (is_k_sparse_count_None k s
    (complement_nbrs (length g) v l) 0) as Hr'.
  simpl in Hr, Hr'. rewrite complement_count_eq in Hr' by done.
  rewrite <-Hr in Hr'. destruct r as [d|].
  - destruct (is_k_sparse_count _ _ _ _); [done|].
    discriminate (proj1 Hr' eq_refl).
  - by rewrite (proj2 Hr').
Qed.

Lemma is_k_sparse_compl_eq k g s :
  vertex_subset g s →
  is_k_sparse_compl k g s = is_k_sparse k (complement g) s.
Proof.
  intros Hs. pose proof (vertex_subset_NoDup _ _ Hs).
  destruct Hs as [_ Hs]. by apply is_k_sparse_compl_loop_eq.
Qed.

(** ** The search loop of the k-divided predicates *)

Import dividedramsey.

Lemma while_stack_cons skip k g s x stk psh cs :
  while_stack skip k g s (x :: stk) psh cs =
  match scan skip k g x s (DfsState stk psh cs) with
  | Ok (Some st') =>
      while_stack skip k g s (stack st') (pushed st') (compsize st')
  | Ok None => Ok None
  | Raise e => Raise e
  end.
Proof.
  rewrite while_stack_equation_2.
  destruct (Logic.inspect (scan skip k g x s (DfsState stk psh cs)))
    as [[[st'|]|e] Heq]; simpl; rewrite Heq; reflexivity.
Qed.

Lemma dfs_measure_ind (P : list nat → list bool → Z → Prop) :
  (∀ stk psh cs,
     (∀ stk' psh' cs',
        (dfs_measure stk' psh' < dfs_measure stk psh)%nat → P stk' psh' cs') →
     P stk psh cs) →
  ∀ stk psh cs, P stk psh cs.
Proof.
  intros Hstep stk psh cs.
  remember (dfs_measure stk psh) as m eqn:Hm.
  revert stk psh cs Hm. induction (lt_wf m) as [m _ IH].
  intros stk psh cs ->. apply Hstep. intros stk' psh' cs' Hlt.
  by eapply IH.
Qed.

Lemma dfs_measure_insert stk psh y :
  psh !! y = Some false →
  (dfs_measure (y :: stk) (<[y:=true]> psh) < dfs_measure stk psh)%nat.
Proof.
  intros (p1 & p2 & -> & ->)%list_elem_of_split_length.
  unfold dfs_measure.
  rewrite insert_app_r_alt, Nat.sub_diag by done. simpl.
  rewrite !filter_app, !filter_cons, !length_app.
  repeat case_decide; try done; simpl; lia.
Qed.

(** What one run of the inner loop preserves, whatever the test. *)
Lemma scan_frame skip k g x ys st st' :
  scan skip k g x ys st = Ok (Some st') →
  length (pushed st') = length (pushed st) ∧
  (∀ i, pushed st !! i = Some true → pushed st' !! i = Some true) ∧
  (∀ z, z ∈ stack st' → z ∈ stack st ∨ pushed st' !! z = Some true) ∧
  (dfs_measure (stack st') (pushed st')
   ≤ dfs_measure (stack st) (pushed st))%nat.
Proof.
  revert st. induction ys as [|y ys IH]; intros st; simpl.
  { intros [= ->]. split_and!; auto. }
  destruct (getitem (pushed st) y) as [p|] eqn:Hy; simpl; [|done].
  apply getitem_Ok in Hy. destruct p; simpl; [by apply IH|].
  destruct (getitem g x) as [l|]; simpl; [|done].
  destruct (skip y l); [by apply IH|].
  destruct (compsize st >=? k); [done|].
  intros (Hlen & Hmono & Hstk & Hm)%IH. simpl in *.
  rewrite length_insert in Hlen.
  pose proof (lookup_lt_Some _ _ _ Hy) as Hlt.
  split_and!; [done| | |].
  - intros i Hi. apply Hmono.
    destruct (decide (i = y)) as [->|]; [by rewrite list_lookup_insert_eq|].
    by rewrite list_lookup_insert_ne.
  - intros z Hz. destruct (Hstk z Hz) as [[->|?]%elem_of_cons|?]; auto.
    right. apply Hmono. by rewrite list_lookup_insert_eq.
  - pose proof (dfs_measure_insert (stack st) _ _ Hy). lia.
Qed.

Lemma while_stack_length skip k g s stk psh cs psh' :
  while_stack skip k g s stk psh cs = Ok (Some psh') →
  length psh' = length psh.
Proof.
  revert stk psh cs. apply (dfs_measure_ind (λ stk psh cs,
    while_stack skip k g s stk psh cs = Ok (Some psh') →
    length psh' = length psh)).
  intros [|x stk] psh cs IH.
  - rewrite while_stack_equation_1. by intros [= ->].
  - rewrite while_stack_cons.
    destruct (scan skip k g x s _) as [[st'|]|e] eqn:Hscan; [|done..].
    apply scan_frame in Hscan as (Hlen & _ & _ & Hm). simpl in *.
    intros Hw%IH; [congruence|]. unfold dfs_measure in *. simpl. lia.
Qed.

(** ** The complement variant searches the complement graph *)

Lemma is_in_complement n x l y :
  (y < n)%nat → y ≠ x →
  is_in y l = not_in y (complement_nbrs n x l).
Proof.
  intros Hy Hne. unfold is_in, not_in, complement_nbrs.
  apply bool_decide_ext. rewrite list_elem_of_filter, elem_of_seq.
  split.
  - intros Hin [[_ Hnin] _]. done.
  - intros Hnin. destruct (decide (y ∈ l)) as [|Hl]; [done|].
    exfalso. apply Hnin. split_and!; [done|done|lia|lia].
Qed.

Lemma scan_compl_eq k g x ys st :
  length (pushed st) = length g → pushed st !! x = Some true →
  scan is_in k g x ys st = scan not_in k (complement g) x ys st.
Proof.
  revert st. induction ys as [|y ys IH]; intros st Hlen Hx; simpl; [done|].
  destruct (getitem (pushed st) y) as [p|] eqn:Hy; simpl; [|done].
  apply getitem_Ok in Hy. destruct p; simpl; [by apply IH|].
  pose proof (lookup_lt_Some _ _ _ Hx) as Hxlt.
  pose proof (lookup_lt_Some _ _ _ Hy) as Hylt.
  assert (y ≠ x) as Hne by (intros ->; congruence).
  destruct (lookup_lt_is_Some_2 g x) as [l Hl]; [lia|].
  rewrite (proj2 (getitem_Ok g x l) Hl).
  rewrite (proj2 (getitem_Ok (complement g) x (complement_nbrs (length g) x l))).
  2:{ by rewrite complement_lookup, Hl. }
  simpl. rewrite <-is_in_complement by (done || lia).
  destruct (is_in y l); [by apply IH|].
  destruct (compsize st >=? k); [done|]. apply IH; simpl.
  - by rewrite length_insert.
  - by rewrite list_lookup_insert_ne.
Qed.

Lemma while_stack_compl_eq k g s stk psh cs :
  length psh = length g → (∀ z, z ∈ stk → psh !! z = Some true) →
  while_stack is_in k g s stk psh cs =
  while_stack not_in k (complement g) s stk psh cs.
Proof.
  revert stk psh cs. apply (dfs_measure_ind (λ stk psh cs,
    length psh = length g → (∀ z, z ∈ stk → psh !! z = Some true) →
    while_stack is_in k g s stk psh cs =
    while_stack not_in k (complement g) s stk psh cs)).
  intros [|x stk] psh cs IH Hlen Hstk.
  - by rewrite !while_stack_equation_1.
  - rewrite !while_stack_cons.
    rewrite <-scan_compl_eq by (done || apply Hstk; left).
    destruct (scan is_in k g x s _) as [[st'|]|e] eqn:Hscan; [|done..].
    apply scan_frame in Hscan as (Hlen' & Hmono & Hstk' & Hm). simpl in *.
    apply IH.
    + unfold dfs_measure in *. simpl. lia.
    + congruence.
    + intros z Hz. destruct (Hstk' z Hz) as [?|?]; [|done].
      apply Hmono, Hstk. by right.
Qed.

Lemma divided_loop_compl_eq k g s vs psh :
  length psh = length g →
  divided_loop is_in k g s vs psh =
  divided_loop not_in k (complement g) s vs psh.
Proof.
  revert psh. induction vs as [|v vs IH]; intros psh Hlen; simpl; [done|].
  destruct (getitem psh v) as [p|] eqn:Hv; simpl; [|done].
  apply getitem_Ok in Hv. destruct p; [by apply IH|].
  pose proof (lookup_lt_Some _ _ _ Hv) as Hlt.
  rewrite <-while_stack_compl_eq.
  - destruct (while_stack is_in _ _ _ _ _ _) as [[psh'|]|e] eqn:Hw;
      simpl; [|done..].
    apply IH. apply while_stack_length in Hw.
    rewrite length_insert in Hw. congruence.
  - by rewrite length_insert.
  - intros z ->%list_elem_of_singleton. by rewrite list_lookup_insert_eq.
Qed.

Lemma is_k_divided_compl_eq k g s :
  is_k_divided_compl k g s = is_k_divided k (complement g) s.
Proof.
  unfold is_k_divided_compl, is_k_divided. rewrite complement_length.
  apply divided_loop_compl_eq. by rewrite length_replicate.
Qed.

(** C7.  On a vertex subset [s] of [g], the complement predicates agree
    with the plain predicates run on the complement of [g]: the graph on
    the same vertices in which two distinct vertices are adjacent
    exactly when they are not adjacent in [g]. *)
Theorem complement_variants_spec (k : Z) (g : graph) (s : list nat) :
  vertex_subset g s →
  (length (complement g) = length g ∧
   ∀ u v, adj (complement g) u v ↔
     (u < length g)%nat ∧ (v < length g)%nat ∧ v ≠ u ∧ ¬ adj g u v) ∧
  (1 ≤ k → ∃ fc f,
     make_k_divided_compl_func k = Ok fc ∧ make_k_divided_func k = Ok f ∧
     fc g s = f (complement g) s) ∧
  (0 ≤ k → ∃ fc f,
     make_k_sparse_compl_func k = Ok fc ∧ make_k_sparse_func k = Ok f ∧
     fc g s = f (complement g) s).
Proof.
  intros Hs. split_and!.
  - apply complement_length.
  - apply complement_adj.
  - intros Hk. exists (is_k_divided_compl k), (is_k_divided k).
    unfold make_k_divided_compl_func, make_k_divided_func.
    destruct (Z.geb_spec k 1); [|lia]. simpl.
    split_and!; [done|done|]. apply is_k_divided_compl_eq.
  - intros Hk. exists (is_k_sparse_compl k), (is_k_sparse k).
    split_and!; [done|done|]. by apply is_k_sparse_compl_eq.
Qed.

(** ** k-divided sets: correctness of the component search *)

Section k_divided.
Context (k : Z) (g : graph) (s : list nat).
Context (Hk : 1 ≤ k) (Hg : graph_ok g).
Context (Hs : Forall (λ v, (v < length g)%nat) s).

Local Abbreviation closed_at := (closed_at g s).
Local Abbreviation bounded := (bounded k g s).
Local Abbreviation outer_inv := (outer_inv k g s).

Lemma adj_sym u w : adj g u w → adj g w u.
Proof. intros (l & Hl & Hin). by apply (Hg u l Hl). Qed.

Lemma connected_in v u : v ∈ s → connected g s v u → u ∈ s.
Proof.
  intros Hv Hc. induction Hc as [|x y z (_ & Hy & _) _ IH]; auto.
Qed.

Lemma marked_insert psh y i :
  (y < length psh)%nat →
  marked (<[y:=true]> psh) i ↔ i = y ∨ marked psh i.
Proof.
  intros Hy. unfold marked. destruct (decide (i = y)) as [->|Hne].
  - rewrite list_lookup_insert_eq by done. split; auto.
  - rewrite list_lookup_insert_ne by done. split; [auto|].
    by intros [?|?].
Qed.

Lemma not_k_divided v (C : list nat) y :
  v ∈ s → NoDup C → (∀ u, u ∈ C → connected g s v u) →
  y ∉ C → connected g s v y → k ≤ Z.of_nat (length C) →
  ¬ k_divided g s k.
Proof.
  intros Hv HC Hconn Hy Hcy Hlen Hdiv.
  assert (Z.of_nat (length (y :: C)) ≤ k) as Hle.
  { apply (Hdiv v); [done|by constructor|].
    intros u [->|Hu]%elem_of_cons; auto. }
  simpl in Hle. lia.
Qed.

Section root.
Context (v : nat) (psh0 : list bool).
Context (Hv : v ∈ s) (H0 : outer_inv psh0).

Local Abbreviation comp_inv := (comp_inv k g s v psh0).

Lemma scan_spec x ys seen C st :
  comp_inv C (x :: stack st) st → x ∈ C →
  (∀ y, y ∈ ys → y ∈ s) →
  (∀ w, w ∈ seen → adj g x w → marked (pushed st) w) →
  (scan not_in k g x ys st = Ok None ∧ ¬ k_divided g s k) ∨
  (∃ st' C', scan not_in k g x ys st = Ok (Some st') ∧
     comp_inv C' (x :: stack st') st' ∧ x ∈ C' ∧
     ∀ w, w ∈ seen ++ ys → adj g x w → marked (pushed st') w).
Proof.
  revert seen C st.
  induction ys as [|y ys IH]; intros seen C st Hinv Hx Hys Hseen; simpl.
  { right. exists st, C. rewrite app_nil_r. done. }
  assert (y ∈ s) as Hy by (apply Hys; left).
  assert (∀ y, y ∈ ys → y ∈ s) as Hys' by (intros; apply Hys; by right).
  assert (y < length g)%nat as Hylt
    by (by rewrite Forall_forall in Hs; apply Hs).
  assert (x < length g)%nat as Hxlt.
  { rewrite Forall_forall in Hs. apply Hs.
    apply (connected_in v); [done|by apply (ci_conn Hinv)]. }
  destruct (getitem_lt (pushed st) y) as (p & -> & Hp);
    [by rewrite (ci_len Hinv)|]. simpl.
  rewrite (cons_middle y seen ys), (assoc_L (++)).
  destruct p; simpl.
  { apply (IH (seen ++ [y]) C st); [done..|].
    intros w [?| ->%list_elem_of_singleton]%elem_of_app; auto. }
  destruct (getitem_lt g x Hxlt) as (l & -> & Hl). simpl.
  unfold not_in. case_bool_decide as Hin; simpl.
  { apply (IH (seen ++ [y]) C st); [done..|].
    intros w [?| ->%list_elem_of_singleton]%elem_of_app Hadj; auto.
    apply (adj_lookup _ _ _ _ Hl) in Hadj. done. }
  assert (y ∈ l) as Hyl by (destruct (decide (y ∈ l)); first [done|tauto]).
  assert (adj g x y) as Hadj by (by apply (adj_lookup _ _ _ _ Hl)).
  assert (y ∉ C) as HyC.
  { intros HyC. assert (marked (pushed st) y) as Hm
      by (apply (ci_marked Hinv); by right).
    unfold marked in Hm. congruence. }
  assert (connected g s v y) as Hcy.
  { eapply rtc_r; [by apply (ci_conn Hinv)|].
    split_and!; [|done|done]. apply (connected_in v); [done|by apply (ci_conn Hinv)]. }
  destruct (Z.geb_spec (compsize st) k) as [Hge|Hlt].
  { left. split; [done|].
    apply (not_k_divided v C y); [done|apply Hinv|apply Hinv|done|done|].
    rewrite <-(ci_size Hinv). lia. }
  set (st1 := DfsState (y :: stack st) (<[y:=true]> (pushed st))
                       (compsize st + 1)).
  assert (∀ i, marked (pushed st) i → marked (pushed st1) i) as Hmono.
  { intros i Hi. apply marked_insert; [|by right].
    by rewrite (ci_len Hinv). }
  apply (IH (seen ++ [y]) (y :: C) st1); [|by right|done|].
  - split; simpl.
    + by rewrite length_insert, (ci_len Hinv).
    + constructor; [done|apply Hinv].
    + rewrite (ci_size Hinv). lia.
    + lia.
    + intros u [->|Hu]%elem_of_cons; [done|by apply (ci_conn Hinv)].
    + intros z [->|Hz]%elem_of_cons; [left|right].
      by apply (ci_stack Hinv).
    + intros i. rewrite marked_insert
        by (by rewrite (ci_len Hinv)).
      rewrite (ci_marked Hinv), elem_of_cons. tauto.
    + intros u [->|Hu]%elem_of_cons; [|by apply (ci_fresh Hinv)].
      intros Hm0. assert (marked (pushed st) y) as Hm
        by (apply (ci_marked Hinv); by left).
      unfold marked in Hm. congruence.
    + intros u [->|Hu]%elem_of_cons Hnin.
      { destruct Hnin. right. left. }
      intros w Hw Huw. apply Hmono.
      apply (ci_done Hinv u Hu); [|done..].
      intros [->|Hin']%elem_of_cons; apply Hnin; [left|right; by right].
  - intros w [Hw| ->%list_elem_of_singleton]%elem_of_app Hxw.
    + by apply Hmono, Hseen.
    + apply marked_insert; [by rewrite (ci_len Hinv)|by left].
Qed.

(** When the stack is empty the component of [v] is complete. *)
Lemma comp_inv_outer C st :
  comp_inv C [] st → outer_inv (pushed st).
Proof.
  intros Hinv.
  assert (∀ i, marked psh0 i → marked (pushed st) i) as Hmono.
  { intros i Hi. apply (ci_marked Hinv). by left. }
  assert (∀ u w, u ∈ C → connected g s u w → w ∈ C) as Hreach.
  { intros u w Hu. revert w. apply rtc_ind_r; [done|].
    intros y z Hy (Hys & Hzs & Hadj) IH.
    assert (marked (pushed st) z) as [Hz0|?]%(ci_marked Hinv);
      [|exfalso|done].
    { apply (ci_done Hinv y IH); [|done..]. apply not_elem_of_nil. }
    apply (ci_fresh Hinv y IH).
    apply (oi_closed H0 z Hz0); [done|by apply adj_sym]. }
  split.
  - apply Hinv.
  - intros u [Hu|Hu]%(ci_marked Hinv); [by apply (oi_sub H0)|].
    apply (connected_in v); [done|by apply (ci_conn Hinv)].
  - intros u [Hu|Hu]%(ci_marked Hinv).
    + intros w Hw Hadj. by apply Hmono, (oi_closed H0 u).
    + apply (ci_done Hinv u Hu), not_elem_of_nil.
  - intros u [Hu|Hu]%(ci_marked Hinv); [by apply (oi_bounded H0)|].
    intros c Hc Hconn.
    assert (c ⊆+ C) as Hsub%submseteq_length.
    { apply NoDup_submseteq; [done|]. intros w Hw. eauto. }
    pose proof (ci_le Hinv). pose proof (ci_size Hinv). lia.
Qed.

Lemma while_stack_spec stk psh cs C :
  comp_inv C stk (DfsState stk psh cs) →
  (while_stack not_in k g s stk psh cs = Ok None ∧ ¬ k_divided g s k) ∨
  (∃ psh', while_stack not_in k g s stk psh cs = Ok (Some psh') ∧
     outer_inv psh' ∧ ∀ i, marked psh i → marked psh' i).
Proof.
  revert stk psh cs C. apply (dfs_measure_ind (λ stk psh cs, ∀ C,
    comp_inv C stk (DfsState stk psh cs) →
    (while_stack not_in k g s stk psh cs = Ok None ∧ ¬ k_divided g s k) ∨
    (∃ psh', while_stack not_in k g s stk psh cs = Ok (Some psh') ∧
       outer_inv psh' ∧ ∀ i, marked psh i → marked psh' i))).
  intros [|x stk] psh cs IH C Hinv.
  { right. exists psh. rewrite while_stack_equation_1.
    split_and!; [done| |done]. by apply (comp_inv_outer C _ Hinv). }
  rewrite while_stack_cons.
  assert (x ∈ C) as Hx by (apply (ci_stack Hinv); left).
  destruct (scan_spec x s [] C (DfsState stk psh cs)) as
    [[-> Hnd]|(st' & C' & Hscan & Hinv' & Hx' & Hseen)].
  - split; [exact (ci_len Hinv)|exact (ci_nodup Hinv)|exact (ci_size Hinv)|
      exact (ci_le Hinv)|exact (ci_conn Hinv)| |exact (ci_marked Hinv)|
      exact (ci_fresh Hinv)|exact (ci_done Hinv)].
    simpl. intros z Hz. apply (ci_stack Hinv). by right.
  - done.
  - done.
  - intros w Hw. by apply elem_of_nil in Hw.
  - by left.
  - rewrite Hscan.
    pose proof (scan_frame _ _ _ _ _ _ _ Hscan) as (_ & Hmono & _ & Hm).
    simpl in *.
    destruct (IH (stack st') (pushed st') (compsize st')) with (C := C')
      as [[-> Hnd]|(psh' & -> & Hout & Hmono')].
    + unfold dfs_measure in *. simpl. lia.
    + destruct st' as [stk' psh1 cs'].
      split; [exact (ci_len Hinv')|exact (ci_nodup Hinv')|
        exact (ci_size Hinv')|exact (ci_le Hinv')|exact (ci_conn Hinv')|
        exact (ci_stack Hinv')|exact (ci_marked Hinv')|
        exact (ci_fresh Hinv')|].
      simpl in *. intros u Hu Hnin.
      destruct (decide (u = x)) as [->|Hne].
      * intros w Hw Hadj. by apply Hseen.
      * apply (ci_done Hinv'); [done|]. intros [->|?]%elem_of_cons; done.
    + by left.
    + right. exists psh'. split_and!; [done|done|].
      intros i Hi. by apply Hmono', Hmono.
Qed.
End root.

Lemma divided_loop_spec vs psh :
  outer_inv psh → (∀ v, v ∈ vs → v ∈ s) →
  (divided_loop not_in k g s vs psh = Ok false ∧ ¬ k_divided g s k) ∨
  (divided_loop not_in k g s vs psh = Ok true ∧
   ∃ psh', outer_inv psh' ∧ (∀ i, marked psh i → marked psh' i) ∧
           ∀ v, v ∈ vs → marked psh' v).
Proof.
  revert psh. induction vs as [|v vs IH]; intros psh Hout Hvs; simpl.
  { right. split; [done|]. exists psh. split_and!; [done|done|].
    intros v Hv. by apply elem_of_nil in Hv. }
  assert (v ∈ s) as Hv by (apply Hvs; left).
  assert (∀ u, u ∈ vs → u ∈ s) as Hvs' by (intros; apply Hvs; by right).
  assert (v < length psh)%nat as Hvlt.
  { rewrite (oi_len Hout). by rewrite Forall_forall in Hs; apply Hs. }
  destruct (getitem_lt psh v Hvlt) as (p & -> & Hp). simpl.
  destruct p.
  { destruct (IH psh Hout Hvs') as [?|(-> & psh' & Hout' & Hmono & Hall)];
      [by left|right]. split; [done|]. exists psh'.
    split_and!; [done|done|]. intros u [->|Hu]%elem_of_cons; auto. }
  destruct (while_stack_spec v psh Hv Hout [v] (<[v:=true]> psh) 1 [v])
    as [[-> Hnd]|(psh1 & -> & Hout1 & Hmono1)]; simpl.
  - split; simpl.
    + by rewrite length_insert, (oi_len Hout).
    + apply NoDup_singleton.
    + done.
    + done.
    + intros u ->%list_elem_of_singleton. apply rtc_refl.
    + done.
    + intros i. rewrite marked_insert, list_elem_of_singleton by done.
      tauto.
    + intros u ->%list_elem_of_singleton Hm. unfold marked in Hm. congruence.
    + intros u Hu Hnu. done.
  - by left.
  - destruct (IH psh1 Hout1 Hvs') as
      [?|(-> & psh' & Hout' & Hmono & Hall)]; [by left|right].
    split; [done|]. exists psh'.
    assert (∀ i, marked psh i → marked psh1 i) as Hmono0.
    { intros i Hi. apply Hmono1, marked_insert; auto. }
    split_and!; [done|by auto|].
    intros u [->|Hu]%elem_of_cons; [|by auto].
    apply Hmono, Hmono1, marked_insert; auto.
Qed.

Lemma is_k_divided_spec :
  ∃ b, is_k_divided k g s = Ok b ∧ (b = true ↔ k_divided g s k).
Proof.
  unfold is_k_divided.
  destruct (divided_loop_spec s (replicate (length g) false)) as
    [[-> Hnd]|(-> & psh' & Hout & _ & Hall)].
  - split.
    + by rewrite length_replicate.
    + intros u Hu. unfold marked in Hu.
      apply lookup_replicate in Hu as [[=] _].
    + intros u Hu. unfold marked in Hu.
      apply lookup_replicate in Hu as [[=] _].
    + intros u Hu. unfold marked in Hu.
      apply lookup_replicate in Hu as [[=] _].
  - done.
  - exists false. split; [done|]. split; [done|]. intros. by destruct Hnd.
  - exists true. split; [done|]. split; [|done]. intros _ v c Hv.
    by apply (oi_bounded Hout v), Hall.
Qed.
End k_divided.

(** C3.  For [k >= 1], the predicate made by [make_k_divided_func k] is
    [True] on a vertex subset [s] of a graph exactly when every
    connected component of the subgraph induced by [s] has at most [k]
    vertices; the scan returns [False] on the spot when it meets an
    unmarked neighbour while the component already has [k] vertices. *)
Theorem make_k_divided_func_spec (k : Z) (g : graph) (s : list nat) :
  1 ≤ k → graph_ok g → vertex_subset g s →
  ∃ f, make_k_divided_func k = Ok f ∧
    (∃ b, f g s = Ok b ∧ (b = true ↔ k_divided g s k)) ∧
    (∀ x y ys st l,
       pushed st !! y = Some false → g !! x = Some l → y ∈ l →
       k ≤ compsize st →
       scan not_in k g x (y :: ys) st = Ok None).
Proof.
  intros Hk Hg [_ Hs]. exists (is_k_divided k). split_and!.
  - unfold make_k_divided_func. by destruct (Z.geb_spec k 1); [|lia].
  - by apply is_k_divided_spec.
  - intros x y ys st l Hy Hl Hin Hcs. simpl.
    rewrite (proj2 (getitem_Ok _ _ _) Hy). simpl.
    rewrite (proj2 (getitem_Ok _ _ _) Hl). simpl.
    unfold not_in. rewrite bool_decide_false by tauto.
    by destruct (Z.geb_spec (compsize st) k); [|lia].
Qed.

(** ** Parameter checks *)

(** C9.  Out-of-domain parameters make [find_extremals] (both modules)
    and the k-divided predicate makers fail with an assertion error,
    whatever the fuel and the collaborators, so before any search; with
    parameters in their domain no assertion fires: the makers return
    their predicate and [find_extremals] is the search itself. *)
Theorem parameter_checks_spec (graphs : nat → list graph)
    (powerset : list nat → list (list nat))
    (unique_iso : list graph → list graph) (k a b : Z) :
  (k < 1 ∨ a < 0 ∨ b < 0 → ∀ fuel,
     dividedramsey.find_extremals graphs powerset unique_iso k a b fuel
     = Some (Raise AssertionError)) ∧
  (k < 1 →
     make_k_divided_func k = Raise AssertionError ∧
     make_k_divided_compl_func k = Raise AssertionError) ∧
  (k < 0 ∨ a < 0 ∨ b < 0 → ∀ fuel,
     sparseramsey.find_extremals graphs powerset unique_iso k a b fuel
     = Some (Raise AssertionError)) ∧
  (1 ≤ k →
     make_k_divided_func k = Ok (is_k_divided k) ∧
     make_k_divided_compl_func k = Ok (is_k_divided_compl k)) ∧
  (1 ≤ k → 0 ≤ a → 0 ≤ b → ∀ fuel,
     dividedramsey.find_extremals graphs powerset unique_iso k a b fuel
     = extremals graphs powerset unique_iso
         (is_k_divided k) (is_k_divided_compl k) a b fuel) ∧
  (0 ≤ k → 0 ≤ a → 0 ≤ b → ∀ fuel,
     sparseramsey.find_extremals graphs powerset unique_iso k a b fuel
     = extremals graphs powerset unique_iso
         (is_k_sparse k) (is_k_sparse_compl k) a b fuel).
Proof.
  unfold dividedramsey.find_extremals, sparseramsey.find_extremals,
    make_k_divided_func, make_k_divided_compl_func,
    make_k_sparse_func, make_k_sparse_compl_func.
  split_and!.
  - intros Hbad fuel.
    destruct (Z.geb_spec k 1); simpl; [|done].
    destruct (Z.geb_spec a 0); simpl; [|done].
    destruct (Z.geb_spec b 0); simpl; [|done]. lia.
  - intros Hk. by destruct (Z.geb_spec k 1); [lia|].
  - intros Hbad fuel.
    destruct (Z.geb_spec k 0); simpl; [|done].
    destruct (Z.geb_spec a 0); simpl; [|done].
    destruct (Z.geb_spec b 0); simpl; [|done]. lia.
  - intros Hk. by destruct (Z.geb_spec k 1); [|lia].
  - intros Hk Ha Hb fuel.
    destruct (Z.geb_spec k 1); [simpl|lia].
    destruct (Z.geb_spec a 0); [simpl|lia].
    by destruct (Z.geb_spec b 0); [simpl|lia].
  - intros Hk Ha Hb fuel.
    destruct (Z.geb_spec k 0); [simpl|lia].
    destruct (Z.geb_spec a 0); [simpl|lia].
    by destruct (Z.geb_spec b 0); [simpl|lia].
Qed.

(** ** The engine: orders of the graphs *)

Lemma bind_Ok {A B} (m : result A) (k : A → result B) b :
  m ≫= k = Ok b ↔ ∃ a, m = Ok a ∧ k a = Ok b.
Proof.
  destruct m as [a|e]; simpl.
  - split; [by eauto|]. by intros (? & [= <-] & ?).
  - split; [done|]. by intros (? & [=] & _).
Qed.

Lemma counterexamples_zero_loop_elem f1 f2 b1 b2 gs l g :
  counterexamples_zero_loop f1 f2 b1 b2 gs = Ok l →
  g ∈ l ↔ g ∈ gs ∧ neither has_fset f1 f2 b1 b2 g = Ok true.
Proof.
  revert l. induction gs as [|g0 gs IH]; intros l; simpl.
  - intros [= <-]. rewrite !elem_of_nil. tauto.
  - intros (keep & Hkeep & (rest & Hrest & [= <-])%bind_Ok)%bind_Ok.
    specialize (IH rest Hrest). destruct keep.
    + rewrite !elem_of_cons, IH. split; [|tauto].
      intros [->|?]; tauto.
    + rewrite !elem_of_cons, IH. split; [tauto|].
      intros [[->|?] ?]; [congruence|tauto].
Qed.

Lemma add_last_length g n vs g' :
  add_last g n vs = Ok g' → length g' = length g.
Proof.
  revert g. induction vs as [|v vs IH]; intros g; simpl.
  - by intros [= ->].
  - intros (nbrs & _ & ->%IH)%bind_Ok. by rewrite length_insert.
Qed.

Lemma candidate_length oldg n vset g :
  candidate oldg n vset = Ok g → length g = S (length oldg).
Proof.
  intros ->%add_last_length. rewrite length_app. simpl. lia.
Qed.

Lemma extensions_elem f1 f2 n b1 b2 oldg vsets l g :
  extensions f1 f2 n b1 b2 oldg vsets = Ok l →
  g ∈ l ↔ ∃ vset, vset ∈ vsets ∧ candidate oldg n vset = Ok g ∧
           neither has_fset_with_last f1 f2 b1 b2 g = Ok true.
Proof.
  revert l. induction vsets as [|vset vsets IH]; intros l; simpl.
  - intros [= <-]. rewrite elem_of_nil. split; [done|].
    intros (? & []%elem_of_nil & _).
  - intros (g0 & Hg0 & (keep & Hkeep & (rest & Hrest & [= <-])%bind_Ok)
      %bind_Ok)%bind_Ok.
    specialize (IH rest Hrest). setoid_rewrite elem_of_cons.
    destruct keep.
    + rewrite elem_of_cons, IH. split.
      * intros [->|(vset' & ? & ?)]; [exists vset; auto|exists vset'; auto].
      * intros (vset' & [->|?] & Hc & ?); [left; congruence|right; eauto].
    + rewrite IH. split.
      * intros (vset' & ? & ?). exists vset'. auto.
      * intros (vset' & [->|?] & Hc & ?); [congruence|eauto].
Qed.

Lemma counterexamples_up_big_list_elem powerset f1 f2 n b1 b2 old l g :
  counterexamples_up_big_list powerset f1 f2 n b1 b2 old = Ok l →
  g ∈ l ↔ ∃ oldg vset, oldg ∈ old ∧ vset ∈ powerset (xrange (n - 1)) ∧
           candidate oldg n vset = Ok g ∧
           neither has_fset_with_last f1 f2 b1 b2 g = Ok true.
Proof.
  revert l. induction old as [|oldg old IH]; intros l; simpl.
  - intros [= <-]. rewrite elem_of_nil. split; [done|].
    intros (? & ? & []%elem_of_nil & _).
  - intros (gs & Hgs & (rest & Hrest & [= <-])%bind_Ok)%bind_Ok.
    rewrite elem_of_app, (IH rest Hrest), (extensions_elem _ _ _ _ _ _ _ _ _ Hgs).
    setoid_rewrite elem_of_cons. split.
    + intros [(vset & ?)|(oldg' & vset & ? & ?)]; [exists oldg, vset|
        exists oldg', vset]; tauto.
    + intros (oldg' & vset & [->|?] & ?); [left; exists vset; tauto|].
      right. exists oldg', vset. tauto.
Qed.

Section order.
Context (graphs : nat → list graph).
Context (powerset : list nat → list (list nat)).
Context (unique_iso : list graph → list graph).
Context (graphs_zero_order : ∀ g, g ∈ graphs O → length g = O).
Context (unique_iso_sub : ∀ l g, g ∈ unique_iso l → g ∈ l).
Context (f1 f2 : pred) (b1 b2 : Z).

Lemma counterexamples_up_order n old gs :
  (∀ g, g ∈ old → S (length g) = n) →
  _counterexamples_up powerset unique_iso f1 f2 b1 b2 n old = Ok gs →
  ∀ g, g ∈ gs → length g = n.
Proof.
  intros Hold (l & Hl & [= <-])%bind_Ok g Hg%unique_iso_sub.
  apply (counterexamples_up_big_list_elem _ _ _ _ _ _ _ _ _ Hl) in Hg
    as (oldg & vset & Hin & _ & ->%candidate_length & _). auto.
Qed.

Lemma extremals_loop_order fuel n gs n' gs' :
  gs ≠ [] → (∀ g, g ∈ gs → S (length g) = n) →
  extremals_loop powerset unique_iso f1 f2 b1 b2 fuel n gs
    = Some (Ok (n', gs')) →
  gs' ≠ [] ∧ ∀ g, g ∈ gs' → S (length g) = n'.
Proof.
  revert n gs. induction fuel as [|fuel IH]; intros n gs Hne Hlen; simpl;
    [done|].
  destruct (_counterexamples_up _ _ _ _ _ _ _ _) as [new|e] eqn:Hup; [|done].
  case_decide as Hnew.
  - by intros [= <- <-].
  - apply IH.
    + by intros ->.
    + intros g Hg. f_equal.
      by apply (counterexamples_up_order n gs new Hlen Hup).
Qed.

Lemma extremals_order fuel n gs :
  extremals graphs powerset unique_iso f1 f2 b1 b2 fuel = Some (Ok (n, gs)) →
  (n = O ∧ gs = []) ∨
  ((1 ≤ n)%nat ∧ gs ≠ [] ∧ ∀ g, g ∈ gs → length g = (n - 1)%nat).
Proof.
  unfold extremals, _counterexamples_zero.
  destruct (counterexamples_zero_loop _ _ _ _ _) as [l|e] eqn:Hzero; [|done].
  case_decide as Hl.
  - intros [= <- <-]. by left.
  - intros Hloop. right. apply extremals_loop_order in Hloop as [Hne Hlen].
    + split_and!; [|done|].
      * destruct gs as [|g gs]; [done|].
        specialize (Hlen g (list_elem_of_here _ _)). lia.
      * intros g Hg. specialize (Hlen g Hg). lia.
    + by intros ->.
    + intros g Hg. f_equal. apply graphs_zero_order.
      by apply (counterexamples_zero_loop_elem _ _ _ _ _ _ _ Hzero).
Qed.
End order.

(** C10.  When the collaborators keep the orders of the graphs
    ([graphs 0] yields graphs of order 0, [unique_iso] returns graphs of
    its input), a result [(n, gs)] of [extremals] with [n >= 1] has a
    nonempty [gs] whose graphs all have [n-1] vertices, and a result
    with [n = 0] has [gs = []]. *)
Theorem extremals_result_consistent (graphs : nat → list graph)
    (powerset : list nat → list (list nat))
    (unique_iso : list graph → list graph)
    (f1 f2 : pred) (b1 b2 : Z) (fuel n : nat) (gs : list graph) :
  (∀ g, g ∈ graphs O → length g = O) →
  (∀ l g, g ∈ unique_iso l → g ∈ l) →
  extremals graphs powerset unique_iso f1 f2 b1 b2 fuel = Some (Ok (n, gs)) →
  ((1 ≤ n)%nat → gs ≠ [] ∧ ∀ g, g ∈ gs → length g = (n - 1)%nat) ∧
  (n = O → gs = []).
Proof.
  intros Hzero Hsub Hret.
  destruct (extremals_order graphs powerset unique_iso Hzero Hsub
              f1 f2 b1 b2 fuel n gs Hret) as [[-> ->]|(Hn & Hne & Hlen)].
  - split; [lia|done].
  - split; [done|lia].
Qed.

(** ** The engine: candidates *)

Lemma has_fset_false_no_fset f b g :
  returns_bool f g → has_fset f b g = Ok false ↔ no_fset f b g.
Proof.
  intros Hf. destruct (has_fset_returns f b g Hf) as [[] Hr].
  - split; [congruence|]. intros Hno.
    apply has_fset_true in Hr as (s & ? & ? & ?); [|done].
    by destruct (Hno s).
  - split; [|done]. intros _ s Hs Hl Hfs.
    assert (has_fset f b g = Ok true) by (apply has_fset_true; eauto).
    congruence.
Qed.

Lemma neither_true has f1 f2 b1 b2 g :
  neither has f1 f2 b1 b2 g = Ok true ↔
  has f1 b1 g = Ok false ∧ has f2 b2 g = Ok false.
Proof.
  unfold neither. destruct (has f1 b1 g) as [[]|]; simpl.
  - split; [done|]. by intros [[=] _].
  - destruct (has f2 b2 g) as [[]|]; simpl.
    + split; [done|]. by intros [_ [=]].
    + done.
    + split; [done|]. by intros [_ [=]].
  - split; [done|]. by intros [[=] _].
Qed.

Lemma neither_returns has f1 f2 b1 b2 g :
  (∃ r, has f1 b1 g = Ok r) → (∃ r, has f2 b2 g = Ok r) →
  ∃ r, neither has f1 f2 b1 b2 g = Ok r.
Proof.
  intros [r1 H1] [r2 H2]. unfold neither. rewrite H1. simpl.
  destruct r1; [by eexists|]. rewrite H2. simpl. by eexists.
Qed.

Lemma add_last_lookup (g : graph) n vs :
  NoDup vs → Forall (λ v, (v < length g)%nat) vs →
  ∃ g', add_last g n vs = Ok g' ∧
    ∀ u, g' !! u =
      (λ l, if decide (u ∈ vs) then l ++ [(n - 1)%nat] else l) <$> g !! u.
Proof.
  revert g. induction vs as [|v vs IH]; intros g Hnd Hvs; simpl.
  - exists g. split; [done|]. intros u. destruct (g !! u); simpl; [|done].
    try (case_decide as H; [by apply elem_of_nil in H|]); done.
  - apply NoDup_cons in Hnd as [Hv Hnd].
    apply Forall_cons in Hvs as [Hvlt Hvs].
    destruct (getitem_lt g v Hvlt) as (l & -> & Hl). simpl.
    destruct (IH (<[v:=l ++ [(n - 1)%nat]]> g) Hnd) as (g' & -> & Hg').
    { by rewrite length_insert. }
    exists g'. split; [done|]. intros u. rewrite Hg'.
    destruct (decide (u = v)) as [->|Hne].
    + rewrite list_lookup_insert_eq, Hl by done. simpl.
      rewrite decide_False by done. by rewrite decide_True by left.
    + rewrite list_lookup_insert_ne by done.
      destruct (g !! u); simpl; [|done]. f_equal.
      destruct (decide (u ∈ vs)).
      * by rewrite decide_True by (by right).
      * rewrite decide_False; [done|]. by intros [?|?]%elem_of_cons.
Qed.

Section candidate.
Context (oldg : graph) (vset : list nat).
Context (Hvset : vset `sublist_of` xrange (length oldg)).

Local Abbreviation m := (length oldg).

Lemma vset_lt v : v ∈ vset → (v < m)%nat.
Proof.
  intros Hv. eapply elem_of_sublist in Hv; [|done].
  apply elem_of_seq in Hv. lia.
Qed.

Lemma candidate_lookup :
  ∃ g, candidate oldg (S m) vset = Ok g ∧ length g = S m ∧
    ∀ u, g !! u =
      if decide (u < m)%nat then
        (λ l, if decide (u ∈ vset) then l ++ [m] else l) <$> oldg !! u
      else if decide (u = m) then Some vset else None.
Proof.
  destruct (add_last_lookup (oldg ++ [vset]) (S m) vset) as (g & Hg & Hlk).
  { eapply sublist_NoDup; [|done]. apply NoDup_seq. }
  { apply Forall_forall. intros v Hv%vset_lt. rewrite length_app. lia. }
  exists g. split; [done|]. split.
  { apply add_last_length in Hg. rewrite Hg, length_app. simpl. lia. }
  intros u. rewrite Hlk. replace (S m - 1)%nat with m by lia.
  destruct (decide (u < m)%nat) as [Hu|Hu].
  - by rewrite lookup_app_l by done.
  - rewrite lookup_app_r by lia. destruct (decide (u = m)) as [->|Hum].
    + rewrite Nat.sub_diag. simpl.
      rewrite decide_False; [done|]. intros ?%vset_lt. lia.
    + destruct (u - m)%nat as [|d] eqn:Hd; [lia|]. done.
Qed.

Context (g : graph) (Hg : candidate oldg (S m) vset = Ok g).
Context (Hold : graph_ok oldg).

Lemma candidate_lookup_eq u :
  g !! u =
    if decide (u < m)%nat then
      (λ l, if decide (u ∈ vset) then l ++ [m] else l) <$> oldg !! u
    else if decide (u = m) then Some vset else None.
Proof.
  destruct candidate_lookup as (g' & Hg' & _ & Hlk).
  assert (g' = g) as -> by congruence. apply Hlk.
Qed.

Lemma candidate_adj u v :
  adj g u v ↔ adj oldg u v ∨ (u ∈ vset ∧ v = m) ∨ (u = m ∧ v ∈ vset).
Proof.
  unfold adj. setoid_rewrite candidate_lookup_eq.
  destruct (decide (u < m)%nat) as [Hu|Hu].
  - destruct (oldg !! u) as [l|] eqn:Hl; simpl.
    + split.
      * intros (l' & [= <-] & Hin). case_decide.
        -- apply elem_of_app in Hin as [?| ->%list_elem_of_singleton];
             [left; eauto|right; left; done].
        -- left. eauto.
      * intros [(l' & [= <-] & Hin)|[[Hin ->]|[-> _]]]; [| |lia].
        -- eexists. split; [done|]. case_decide; [|done].
           apply elem_of_app. by left.
        -- eexists. split; [done|]. rewrite decide_True by done.
           apply elem_of_app. right. left.
    + apply lookup_ge_None in Hl. lia.
  - destruct (decide (u = m)) as [->|Hum].
    + split.
      * intros (l' & [= <-] & Hin). right. right. done.
      * intros [(l' & Hl' & _)|[[Hin%vset_lt _]|[_ Hin]]];
          [apply lookup_lt_Some in Hl'; lia|lia|eauto].
    + split; [by intros (? & ? & _)|].
      intros [(l' & Hl' & _)|[[Hin%vset_lt _]|[? _]]];
        [apply lookup_lt_Some in Hl'; lia|lia|done].
Qed.

Lemma graph_ok_adj (h : graph) u v :
  graph_ok h → adj h u v →
  (u < length h)%nat ∧ (v < length h)%nat ∧ v ≠ u ∧ adj h v u.
Proof.
  intros Hh (l & Hl & Hin). destruct (Hh u l Hl) as [_ Hall].
  destruct (Hall v Hin) as (? & ? & ?). split_and!; try done.
  by eapply lookup_lt_Some.
Qed.

Lemma candidate_length_eq : length g = S m.
Proof.
  destruct candidate_lookup as (g' & Hg' & Hlen & _).
  by assert (g' = g) as <- by congruence.
Qed.

Lemma candidate_ok : graph_ok g.
Proof.
  intros u l Hl. rewrite candidate_length_eq.
  assert (∀ v, v ∈ l → (v < S m)%nat ∧ v ≠ u ∧ adj g v u) as Hall.
  { intros v Hv. assert (adj g u v) as Hadj by (by exists l).
    apply candidate_adj in Hadj as [Hadj|[[Hin ->]|[-> Hin]]].
    - apply graph_ok_adj in Hadj as (? & ? & ? & ?); [|done].
      split_and!; [lia|done|]. apply candidate_adj. by left.
    - apply vset_lt in Hin as Hlt. split_and!; [lia|lia|].
      apply candidate_adj. right. right. done.
    - apply vset_lt in Hin as Hlt. split_and!; [lia|lia|].
      apply candidate_adj. right. left. done. }
  split; [|done]. rewrite candidate_lookup_eq in Hl.
  destruct (decide (u < m)%nat) as [Hu|Hu].
  - destruct (oldg !! u) as [l0|] eqn:Hl0; simplify_eq/=.
    destruct (Hold u l0 Hl0) as [Hnd Hl0all]. case_decide; [|done].
    apply NoDup_app. split_and!; [done| |apply NoDup_singleton].
    intros x Hx ->%list_elem_of_singleton.
    destruct (Hl0all _ Hx) as (? & _). lia.
  - case_decide; simplify_eq/=.
    eapply sublist_NoDup; [|done]. apply NoDup_seq.
Qed.

Lemma candidate_embedding : embedding oldg g id.
Proof.
  unfold embedding. rewrite candidate_length_eq. simpl.
  split_and!; [lia|done|].
  intros u v Hu Hv. rewrite candidate_adj. split; [by left|].
  intros [?|[[_ ->]|[-> _]]]; [done|lia|lia].
Qed.
End candidate.

(** ** Isomorphic graphs *)

Lemma elem_of_xrange x n : x ∈ xrange n ↔ (x < n)%nat.
Proof. unfold xrange. rewrite elem_of_seq. lia. Qed.

Lemma isomorphic_refl g : isomorphic g g.
Proof. exists id, id. split_and!; auto. Qed.

Lemma isomorphic_trans g1 g2 g3 :
  isomorphic g1 g2 → isomorphic g2 g3 → isomorphic g1 g3.
Proof.
  intros (σ1 & τ1 & Hlen1 & Hσ1 & Hτ1 & Hadj1)
         (σ2 & τ2 & Hlen2 & Hσ2 & Hτ2 & Hadj2).
  exists (σ2 ∘ σ1), (τ1 ∘ τ2). split_and!; simpl.
  - congruence.
  - intros u Hu. destruct (Hσ1 u Hu) as [Hu1 Hinv1].
    destruct (Hσ2 (σ1 u)) as [Hu2 Hinv2]; [lia|].
    split; [done|]. by rewrite Hinv2.
  - intros v Hv. destruct (Hτ2 v Hv) as [Hv2 Hinv2].
    destruct (Hτ1 (τ2 v)) as [Hv1 Hinv1]; [lia|].
    split; [done|]. by rewrite Hinv1.
  - intros u v Hu Hv. rewrite Hadj1 by done. apply Hadj2.
    + destruct (Hσ1 u Hu). lia.
    + destruct (Hσ1 v Hv). lia.
Qed.

Lemma isomorphism_embedding_inv g h σ τ :
  isomorphism g h σ τ → embedding h g τ.
Proof.
  intros (Hlen & Hσ & Hτ & Hadj). split_and!.
  - intros v Hv. by apply Hτ.
  - intros u v Hu Hv Heq.
    destruct (Hτ u Hu) as [_ <-]. destruct (Hτ v Hv) as [_ <-].
    by rewrite Heq.
  - intros u v Hu Hv.
    destruct (Hτ u Hu) as [Hu' Hueq]. destruct (Hτ v Hv) as [Hv' Hveq].
    rewrite (Hadj _ _ Hu' Hv'). by rewrite Hueq, Hveq.
Qed.

(** The image of a vertex set, as a sorted list. *)
Lemma sorted_image (φ : nat → nat) (s : list nat) n :
  NoDup (φ <$> s) → Forall (λ x, (φ x < n)%nat) s →
  ∃ s', s' `sublist_of` xrange n ∧ s' ≡ₚ φ <$> s.
Proof.
  intros Hnd Hlt. exists (filter (λ x, x ∈ φ <$> s) (xrange n)).
  split; [apply sublist_filter|].
  apply NoDup_Permutation; [apply NoDup_filter, NoDup_seq|done|].
  intros x. rewrite list_elem_of_filter. split; [tauto|].
  intros Hx. split; [done|]. apply elem_of_xrange.
  apply list_elem_of_fmap in Hx as (y & -> & Hy).
  rewrite Forall_forall in Hlt. by apply Hlt.
Qed.

Lemma no_fset_isomorphic f b g h :
  induced_hereditary f → graph_ok g → graph_ok h →
  isomorphic g h → no_fset f b g → no_fset f b h.
Proof.
  intros Hher Hg Hh (σ & τ & Hiso) Hno s' Hs' Hl Hfs'.
  pose proof (isomorphism_embedding_inv _ _ _ _ Hiso) as Hemb.
  destruct Hemb as (Hrange & Hinj & Hadj).
  pose proof Hs' as [_ Hs'lt]. rewrite Forall_forall in Hs'lt.
  destruct (sorted_image τ s' (length g)) as (s & Hs & Hperm).
  { apply NoDup_fmap_2_strong; [|by eapply vertex_subset_NoDup].
    intros x y Hx Hy. apply Hinj; auto. }
  { apply Forall_forall. intros x Hx. auto. }
  apply vertex_subset_sublist in Hs.
  apply (Hno s Hs).
  - by rewrite Hperm, length_fmap.
  - by apply (Hher h g τ s' s).
Qed.

Lemma counterexample_isomorphic f1 f2 b1 b2 g h :
  induced_hereditary f1 → induced_hereditary f2 → graph_ok h →
  isomorphic g h → counterexample f1 f2 b1 b2 g → counterexample f1 f2 b1 b2 h.
Proof.
  intros Hh1 Hh2 Hh Hiso (Hg & Hno1 & Hno2).
  split_and!; [done|by eapply no_fset_isomorphic..].
Qed.

(** Every graph of order [m+1] is, up to isomorphism, an extension of
    any graph isomorphic to its restriction to the first [m] vertices. *)
Lemma extension_covers G old :
  graph_ok G → length G = S (length old) → graph_ok old →
  isomorphic (induced_prefix G (length old)) old →
  ∃ vset g', vset `sublist_of` xrange (length old) ∧
    candidate old (S (length old)) vset = Ok g' ∧ isomorphic G g'.
Proof.
  intros HG Hlen Hold (σ & τ & Hplen & Hσ & Hτ & Hadj).
  set (m := length old) in *.
  rewrite induced_prefix_length in Hσ, Hτ, Hadj by lia. clear Hplen.
  destruct (lookup_lt_is_Some_2 G m) as [lm Hlm]; [lia|].
  set (vset := filter (λ x, x ∈ σ <$> lm) (xrange m)).
  assert (vset `sublist_of` xrange m) as Hvset by apply sublist_filter.
  destruct (candidate_lookup old vset Hvset) as (g' & Hg' & Hlen' & _).
  exists vset, g'. split_and!; [done|done|].
  assert (∀ w, w ∈ lm → (w < m)%nat) as Hlm_lt.
  { intros w Hw. destruct (HG m lm Hlm) as [_ Hall].
    destruct (Hall w Hw) as (? & ? & _). lia. }
  assert (∀ v, (v < m)%nat → σ v ∈ vset ↔ v ∈ lm) as Hin_vset.
  { intros v Hv. unfold vset.
    rewrite list_elem_of_filter, list_elem_of_fmap, elem_of_xrange. split.
    - intros [(w & Heq & Hw) _]. assert (v = w) as ->; [|done].
      destruct (Hσ v Hv) as [_ <-].
      destruct (Hσ w (Hlm_lt w Hw)) as [_ <-]. by rewrite Heq.
    - intros Hin. split; [by eauto|]. by destruct (Hσ v Hv). }
  assert (∀ v, v ∈ vset → (v < m)%nat) as Hvset_lt.
  { intros v Hv. eapply elem_of_sublist in Hv; [|done].
    by apply elem_of_xrange in Hv. }
  assert (∀ a b, adj old a b → (a < m)%nat ∧ (b < m)%nat) as Hold_lt.
  { intros a b (? & ? & _)%graph_ok_adj; done. }
  assert (∀ v, adj G m v ↔ v ∈ lm) as HGm by (intros; by apply adj_lookup).
  assert (∀ u v, adj G u v → adj G v u) as Hsym.
  { intros u v (_ & _ & _ & ?)%graph_ok_adj; done. }
  exists (λ u, if decide (u < m)%nat then σ u else u),
         (λ v, if decide (v < m)%nat then τ v else v).
  split_and!.
  - lia.
  - intros u Hu. case_decide as Hum.
    + destruct (Hσ u Hum) as [Hlt Hinv]. rewrite decide_True by lia.
      split; [lia|done].
    + rewrite decide_False by done. split; [lia|done].
  - intros v Hv. case_decide as Hvm.
    + destruct (Hτ v Hvm) as [Hlt Hinv]. rewrite decide_True by lia.
      split; [lia|done].
    + rewrite decide_False by done. split; [lia|done].
  - intros u v Hu Hv. rewrite (candidate_adj old vset Hvset g' Hg').
    destruct (decide (u < m)%nat) as [Hum|Hum];
      destruct (decide (v < m)%nat) as [Hvm|Hvm].
    + destruct (Hσ u Hum) as [Hσu _]. destruct (Hσ v Hvm) as [Hσv _].
      rewrite <-(Hadj u v) by done. rewrite induced_prefix_adj. split.
      * intros ?. by left.
      * intros [(_ & _ & ?)|[[_ Heq]|[Heq _]]]; [done|lia|lia].
    + assert (v = m) as -> by lia. destruct (Hσ u Hum) as [Hσu _].
      rewrite (Hin_vset u Hum), <-HGm. split.
      * intros ?%Hsym. right. left. done.
      * intros [[_ ?]%Hold_lt|[[? _]|[Heq _]]]; [lia|by apply Hsym|lia].
    + assert (u = m) as -> by lia. destruct (Hσ v Hvm) as [Hσv _].
      rewrite (Hin_vset v Hvm), <-HGm. split.
      * intros ?. right. right. done.
      * intros [[? _]%Hold_lt|[[?%Hvset_lt _]|[_ ?]]]; [lia|lia|done].
    + assert (u = m) as -> by lia. assert (v = m) as -> by lia. split.
      * intros (_ & _ & ? & _)%graph_ok_adj; done.
      * intros [[? _]%Hold_lt|[[?%Hvset_lt _]|[_ ?%Hvset_lt]]]; lia.
Qed.

(** ** The engine: one representative per isomorphism class *)

Section engine_correct.
Context (graphs : nat → list graph).
Context (powerset : list nat → list (list nat)).
Context (unique_iso : list graph → list graph).
Context (graphs_zero : graphs O = [[]]).
Context (powerset_spec :
  ∀ n s, s ∈ powerset (xrange n) ↔ s `sublist_of` xrange n).
Context (unique_iso_sub : ∀ l g, g ∈ unique_iso l → g ∈ l).
Context (unique_iso_cover :
  ∀ l g, g ∈ l → ∃ g', g' ∈ unique_iso l ∧ isomorphic g g').
Context (unique_iso_unique :
  ∀ l i j g1 g2, unique_iso l !! i = Some g1 → unique_iso l !! j = Some g2 →
    isomorphic g1 g2 → i = j).
Context (f1 f2 : pred) (b1 b2 : Z).
Context (Hp1 : is_predicate f1) (Hp2 : is_predicate f2).
Context (Hh1 : induced_hereditary f1) (Hh2 : induced_hereditary f2).

Local Abbreviation CE := (counterexample f1 f2 b1 b2).
Local Abbreviation level m :=
  (representatives (λ g, counterexample f1 f2 b1 b2 g ∧ length g = m)).

Lemma counterexample_neither g :
  graph_ok g → neither has_fset f1 f2 b1 b2 g = Ok true ↔ CE g.
Proof.
  intros Hg. rewrite neither_true.
  rewrite !has_fset_false_no_fset by auto. unfold counterexample. tauto.
Qed.

Lemma with_last_false f b oldg g :
  is_predicate f → induced_hereditary f →
  graph_ok oldg → graph_ok g → embedding oldg g id →
  S (length oldg) = length g → no_fset f b oldg →
  has_fset_with_last f b g = Ok false ↔ no_fset f b g.
Proof.
  intros Hp Hh Hold Hg Hemb Hlen Hno.
  rewrite <-has_fset_false_no_fset by auto.
  apply has_fset_false_no_fset in Hno; [|by auto].
  destruct (has_fset_returns f b g (Hp g Hg)) as [r Hr].
  destruct (has_fset_with_last_returns f b g (Hp g Hg)) as [r' Hr'].
  destruct r, r'.
  - by rewrite Hr, Hr'.
  - apply (has_fset_with_last_enough f b g oldg) in Hr; auto. congruence.
  - apply has_fset_with_last_sound in Hr'; auto. congruence.
  - by rewrite Hr, Hr'.
Qed.

Lemma candidate_counterexample oldg vset g :
  CE oldg → vset `sublist_of` xrange (length oldg) →
  candidate oldg (S (length oldg)) vset = Ok g →
  neither has_fset_with_last f1 f2 b1 b2 g = Ok true ↔ CE g.
Proof.
  intros (Hold & Hno1 & Hno2) Hvset Hg.
  pose proof (candidate_ok oldg vset Hvset g Hg Hold) as Hgok.
  pose proof (candidate_embedding oldg vset Hvset g Hg) as Hemb.
  pose proof (candidate_length_eq oldg vset Hvset g Hg) as Hlen.
  rewrite neither_true.
  rewrite !(with_last_false _ _ oldg g) by auto.
  unfold counterexample. tauto.
Qed.

Lemma restrict_counterexample G m :
  CE G → length G = S m →
  CE (induced_prefix G m) ∧ length (induced_prefix G m) = m.
Proof.
  intros (HG & Hno1 & Hno2) Hlen.
  assert (length (induced_prefix G m) = m) as Hplen
    by (apply induced_prefix_length; lia).
  assert (graph_ok (induced_prefix G m)) as Hpok
    by (apply induced_prefix_ok; [lia|done]).
  assert (∀ f b, induced_hereditary f → no_fset f b G →
                 no_fset f b (induced_prefix G m)) as Hres.
  { intros f b Hh Hno s Hs Hl Hfs. apply (Hno s); [|done|].
    - destruct Hs as [Hsort Hlt]. split; [done|].
      eapply Forall_impl; [done|]. simpl. lia.
    - apply (Hh (induced_prefix G m) G id s s); auto.
      + apply induced_prefix_embedding. lia.
      + destruct Hs as [Hsort Hlt]. split; [done|].
        eapply Forall_impl; [done|]. simpl. lia.
      + by rewrite list_fmap_id. }
  split; [|done]. split_and!; auto.
Qed.

Lemma extensions_returns oldg vsets :
  graph_ok oldg →
  (∀ vset, vset ∈ vsets → vset `sublist_of` xrange (length oldg)) →
  ∃ l, extensions f1 f2 (S (length oldg)) b1 b2 oldg vsets = Ok l.
Proof.
  intros Hold. induction vsets as [|vset vsets IH]; intros Hvs; simpl;
    [by eexists|].
  assert (vset `sublist_of` xrange (length oldg)) as Hvset
    by (apply Hvs; left).
  destruct (candidate_lookup oldg vset Hvset) as (g & Hg & _).
  rewrite Hg. simpl.
  pose proof (candidate_ok oldg vset Hvset g Hg Hold) as Hgok.
  destruct (neither_returns has_fset_with_last f1 f2 b1 b2 g)
    as [keep ->]; [apply has_fset_with_last_returns; auto..|]. simpl.
  destruct IH as [rest ->]; [intros; apply Hvs; by right|]. by eexists.
Qed.

Lemma big_list_returns m old :
  (∀ oldg, oldg ∈ old → graph_ok oldg ∧ length oldg = m) →
  ∃ l, counterexamples_up_big_list powerset f1 f2 (S m) b1 b2 old = Ok l.
Proof.
  induction old as [|oldg old IH]; intros Hold; simpl; [by eexists|].
  destruct (Hold oldg) as [Hok <-]; [left|].
  rewrite Nat.sub_0_r.
  destruct (extensions_returns oldg (powerset (xrange (length oldg))))
    as [gs ->]; [done|by intros ? ?%powerset_spec|]. simpl.
  destruct IH as [rest ->]; [intros; apply Hold; by right|]. by eexists.
Qed.

Lemma level_step m L :
  level m L →
  ∃ L', _counterexamples_up powerset unique_iso f1 f2 b1 b2 (S m) L = Ok L' ∧
        level (S m) L'.
Proof.
  intros (Hsound & Hcover & Huniq).
  destruct (big_list_returns m L) as [l Hl].
  { intros oldg Hin. by destruct (Hsound oldg Hin) as [(? & _) ?]. }
  exists (unique_iso l).
  split; [unfold _counterexamples_up; by rewrite Hl|].
  assert (∀ g, g ∈ l ↔ ∃ oldg vset, oldg ∈ L ∧
            vset `sublist_of` xrange (length oldg) ∧
            candidate oldg (S (length oldg)) vset = Ok g ∧ CE g) as Hl_elem.
  { intros g.
    rewrite (counterexamples_up_big_list_elem _ _ _ _ _ _ _ _ _ Hl).
    rewrite Nat.sub_succ, Nat.sub_0_r.
    split; intros (oldg & vset & Hin & Hvs & Hc & Hn); exists oldg, vset;
      destruct (Hsound oldg Hin) as [HCE <-].
    - apply powerset_spec in Hvs. split_and!; [done..|].
      by apply (candidate_counterexample oldg vset g).
    - split_and!; [done|by apply powerset_spec|done|].
      by apply (candidate_counterexample oldg vset g). }
  split_and!.
  - intros g (oldg & vset & Hin & Hvs & Hc & HCE)%unique_iso_sub%Hl_elem.
    split; [done|]. destruct (Hsound oldg Hin) as [_ <-].
    by apply (candidate_length_eq oldg vset).
  - intros G [HCE HlenG].
    destruct (restrict_counterexample G m HCE HlenG) as [HCEp Hplen].
    destruct (Hcover _ (conj HCEp Hplen)) as (old & Hin & Hiso).
    destruct (Hsound old Hin) as [HCEold <-].
    destruct (extension_covers G old) as (vset & g' & Hvs & Hc & HisoG);
      [apply HCE|done|apply HCEold|done|].
    assert (CE g') as HCE'.
    { apply (counterexample_isomorphic f1 f2 b1 b2 G g'); auto.
      apply (candidate_ok old vset Hvs g' Hc), HCEold. }
    destruct (unique_iso_cover l g') as (g'' & Hin'' & Hiso'').
    { apply Hl_elem. exists old, vset. done. }
    exists g''. split; [done|]. by eapply isomorphic_trans.
  - apply unique_iso_unique.
Qed.

Lemma graph_ok_nil : graph_ok [].
Proof. by intros u l ?. Qed.

Lemma level_zero :
  ∃ L0, _counterexamples_zero graphs f1 f2 b1 b2 = Ok L0 ∧ level O L0.
Proof.
  unfold _counterexamples_zero. rewrite graphs_zero. simpl.
  pose proof graph_ok_nil as Hnil.
  destruct (neither_returns has_fset f1 f2 b1 b2 []) as [keep Hkeep];
    [apply has_fset_returns; auto..|]. rewrite Hkeep. simpl.
  eexists. split; [done|]. destruct keep.
  - apply counterexample_neither in Hkeep; [|done]. split_and!.
    + by intros g ->%list_elem_of_singleton.
    + intros g [HCE Hlen]. exists []. split; [left|].
      destruct g; [apply isomorphic_refl|done].
    + intros i j g1 g2 Hi%lookup_lt_Some Hj%lookup_lt_Some _.
      simpl in *. lia.
  - split_and!.
    + by intros g ?%elem_of_nil.
    + intros g [HCE Hlen]. destruct g; [|done].
      apply counterexample_neither in HCE; [congruence|done].
    + by intros i j g1 g2 ?.
Qed.

Lemma level_nonempty m L :
  level m L → L ≠ [] → ∃ g, CE g ∧ length g = m.
Proof.
  intros (Hsound & _) Hne. destruct L as [|g L]; [done|].
  exists g. apply Hsound. left.
Qed.

Lemma level_empty m :
  level m [] → ¬ ∃ g, CE g ∧ length g = m.
Proof.
  intros (_ & Hcover & _) (g & Hg).
  by destruct (Hcover g Hg) as (g' & ?%elem_of_nil & _).
Qed.

Lemma extremals_loop_spec fuel m L r :
  level m L → L ≠ [] →
  (∀ j, (j < m)%nat → ∃ g, CE g ∧ length g = j) →
  extremals_loop powerset unique_iso f1 f2 b1 b2 fuel (S m) L = Some r →
  ∃ n gs, r = Ok (S n, gs) ∧
    (∀ j, (j ≤ n)%nat → ∃ g, CE g ∧ length g = j) ∧
    (¬ ∃ g, CE g ∧ length g = S n) ∧ level n gs.
Proof.
  revert m L. induction fuel as [|fuel IH]; intros m L Hlev Hne Hbelow;
    simpl; [done|].
  destruct (level_step m L Hlev) as (L' & -> & Hlev').
  assert (∀ j, (j ≤ m)%nat → ∃ g, CE g ∧ length g = j) as Hupto.
  { intros j Hj. destruct (decide (j = m)) as [->|].
    - by apply level_nonempty with L.
    - apply Hbelow. lia. }
  case_decide as Hempty.
  - intros [= <-]. exists m, L. split_and!; [done|done| |done].
    apply length_zero_iff_nil in Hempty. subst L'. by apply level_empty.
  - intros Hr. apply IH in Hr; [done|done| |].
    + by intros ->.
    + intros j Hj. apply Hupto. lia.
Qed.

Lemma extremals_partial fuel r :
  extremals graphs powerset unique_iso f1 f2 b1 b2 fuel = Some r →
  (r = Ok (O, []) ∧ ¬ ∃ g, CE g ∧ length g = O) ∨
  (∃ n gs, r = Ok (S n, gs) ∧
     (∀ j, (j ≤ n)%nat → ∃ g, CE g ∧ length g = j) ∧
     (¬ ∃ g, CE g ∧ length g = S n) ∧ level n gs).
Proof.
  unfold extremals. destruct level_zero as (L0 & -> & Hlev).
  case_decide as Hempty.
  - intros [= <-]. left. split; [done|].
    apply length_zero_iff_nil in Hempty. subst L0. by apply level_empty.
  - intros Hr. right. apply extremals_loop_spec in Hr; [done|done| |].
    + by intros ->.
    + intros j Hj. lia.
Qed.

Lemma extremals_loop_total d m L :
  level m L → L ≠ [] → (¬ ∃ g, CE g ∧ length g = (S m + d)%nat) →
  ∃ r, extremals_loop powerset unique_iso f1 f2 b1 b2 (S d) (S m) L
       = Some r.
Proof.
  revert m L. induction d as [|d IH]; intros m L Hlev Hne Hnone;
    cbn [extremals_loop];
    destruct (level_step m L Hlev) as (L' & -> & Hlev');
    (case_decide as Hempty; [by eexists|]).
  - destruct Hnone. rewrite Nat.add_0_r. apply level_nonempty with L'; [done|].
    by intros ->.
  - apply IH; [done|by intros ->|].
    by replace (S (S m) + d)%nat with (S m + S d)%nat by lia.
Qed.

Lemma extremals_total N :
  (¬ ∃ g, CE g ∧ length g = N) →
  ∃ r, extremals graphs powerset unique_iso f1 f2 b1 b2 N = Some r.
Proof.
  intros Hnone. unfold extremals. destruct level_zero as (L0 & -> & Hlev).
  case_decide as Hempty; [by eexists|].
  assert (L0 ≠ []) as Hne by (by intros ->).
  destruct N as [|d].
  - destruct Hnone. by apply level_nonempty with L0.
  - by apply extremals_loop_total.
Qed.

Lemma extremals_zero fuel :
  (¬ ∃ g, CE g ∧ length g = O) →
  extremals graphs powerset unique_iso f1 f2 b1 b2 fuel = Some (Ok (O, [])).
Proof.
  intros Hnone. unfold extremals. destruct level_zero as (L0 & -> & Hlev).
  case_decide as Hempty; [done|]. destruct Hnone.
  apply level_nonempty with L0; [done|]. by intros ->.
Qed.

Lemma extremals_diverges :
  (∀ N, ∃ g, CE g ∧ length g = N) →
  ∀ fuel, extremals graphs powerset unique_iso f1 f2 b1 b2 fuel = None.
Proof.
  intros Hall fuel.
  destruct (extremals _ _ _ _ _ _ _ _) as [r|] eqn:Hr; [|done].
  apply extremals_partial in Hr as [[_ Hnone]|(n & gs & _ & _ & Hnone & _)];
    by destruct Hnone.
Qed.
End engine_correct.

(** ** The collaborators used to run the engine meet their contracts *)

Lemma graphs_model_zero : isograph.graphs O = [[]].
Proof. done. Qed.

Lemma powerset_model_spec (l s : list nat) :
  s ∈ isograph.powerset l ↔ s `sublist_of` l.
Proof.
  unfold isograph.powerset. rewrite list_elem_of_join. split.
  - intros (ss & Hs & (r & -> & _)%list_elem_of_fmap).
    by apply elem_of_combinations in Hs as [? _].
  - intros Hs. exists (combinations l (length s)). split.
    + by apply elem_of_combinations.
    + apply list_elem_of_fmap. exists (length s). split; [done|].
      apply elem_of_seq. apply sublist_length in Hs. lia.
Qed.

Lemma isomorphic_sym g h : isomorphic g h → isomorphic h g.
Proof.
  intros (σ & τ & Hiso). exists τ, σ.
  pose proof (isomorphism_embedding_inv _ _ _ _ Hiso) as (_ & _ & Hadj).
  destruct Hiso as (Hlen & Hσ & Hτ & _). split_and!; auto.
Qed.

Lemma relabels_true g h p :
  isograph.relabels g h p = true ↔
  ∀ u v, (u < length g)%nat → (v < length g)%nat →
    adj g u v ↔ adj h (p !!! u) (p !!! v).
Proof.
  unfold isograph.relabels. rewrite forallb_forall.
  setoid_rewrite forallb_forall. setoid_rewrite <-list_elem_of_In.
  setoid_rewrite elem_of_xrange. setoid_rewrite Bool.eqb_true_iff.
  split; intros H u v Hu Hv.
  - specialize (H u Hu v Hv).
    by rewrite <-(bool_decide_spec (adj g u v)),
      <-(bool_decide_spec (adj h _ _)), H.
  - apply bool_decide_ext. by apply H.
Qed.

Lemma isomorphic_model_spec g h :
  isograph.isomorphic g h = true ↔ isomorphic g h.
Proof.
  unfold isograph.isomorphic.
  rewrite andb_true_iff, bool_decide_eq_true, existsb_exists.
  setoid_rewrite <-list_elem_of_In.
  setoid_rewrite permutations_Permutation. setoid_rewrite relabels_true.
  split.
  - intros (Hlen & p & Hperm & Hadj).
    assert (NoDup p) as Hnd by (rewrite <-Hperm; apply NoDup_seq).
    assert (∀ x, x ∈ p ↔ (x < length g)%nat) as Hp
      by (intros x; by rewrite <-Hperm, elem_of_xrange).
    assert (length p = length g) as Hplen
      by (by rewrite <-Hperm; unfold xrange; rewrite length_seq).
    exists (λ u, p !!! u),
      (λ v, default O (fst <$> list_find (λ x, x = v) p)).
    split_and!; [done| | |done].
    + intros u Hu. destruct (lookup_lt_is_Some_2 p u) as [x Hx]; [lia|].
      rewrite (list_lookup_total_correct _ _ _ Hx).
      split; [rewrite <-Hlen; apply Hp; by eapply list_elem_of_lookup_2|].
      destruct (list_find_elem_of (λ y, y = x) p x) as [[i y] Hfind];
        [by eapply list_elem_of_lookup_2|done|].
      rewrite Hfind. simpl.
      apply list_find_Some in Hfind as (Hi & -> & _).
      by eapply NoDup_lookup.
    + intros v Hv. rewrite <-Hlen in Hv.
      destruct (list_find_elem_of (λ y, y = v) p v) as [[i y] Hfind];
        [by apply Hp|done|].
      rewrite Hfind. simpl.
      apply list_find_Some in Hfind as (Hi & -> & _).
      split; [|by apply list_lookup_total_correct].
      apply lookup_lt_Some in Hi. lia.
  - intros (σ & τ & Hlen & Hσ & Hτ & Hadj). split; [done|].
    exists (σ <$> xrange (length g)).
    assert (∀ u, (u < length g)%nat →
              (σ <$> xrange (length g)) !!! u = σ u) as Hlk.
    { intros u Hu. apply list_lookup_total_correct.
      rewrite list_lookup_fmap. unfold xrange.
      by rewrite lookup_seq_lt by done. }
    split.
    + apply NoDup_Permutation; [apply NoDup_seq| |].
      * apply NoDup_fmap_2_strong; [|apply NoDup_seq].
        intros x y Hx%elem_of_xrange Hy%elem_of_xrange Heq.
        destruct (Hσ x Hx) as [_ <-]. destruct (Hσ y Hy) as [_ <-].
        by rewrite Heq.
      * intros x. rewrite list_elem_of_fmap.
        setoid_rewrite elem_of_xrange. split.
        -- intros Hx. rewrite Hlen in Hx. destruct (Hτ x Hx) as [? ?].
           eauto.
        -- intros (y & -> & Hy). destruct (Hσ y Hy). lia.
    + intros u v Hu Hv. rewrite !Hlk by done. by apply Hadj.
Qed.

Lemma unique_iso_from_sub seen gs g :
  g ∈ isograph.unique_iso_from seen gs → g ∈ gs.
Proof.
  revert seen. induction gs as [|g0 gs IH]; intros seen; simpl; [done|].
  destruct (existsb _ seen).
  - intros ?%IH. by right.
  - intros [->|?%IH]%elem_of_cons; [left|by right].
Qed.

Lemma existsb_isomorphic g seen :
  existsb (isograph.isomorphic g) seen = true ↔
  ∃ h, h ∈ seen ∧ isomorphic g h.
Proof.
  rewrite existsb_exists. setoid_rewrite <-list_elem_of_In.
  by setoid_rewrite isomorphic_model_spec.
Qed.

Lemma unique_iso_from_cover seen gs g :
  g ∈ gs →
  (∃ g', g' ∈ seen ∧ isomorphic g g') ∨
  (∃ g', g' ∈ isograph.unique_iso_from seen gs ∧ isomorphic g g').
Proof.
  revert seen. induction gs as [|g0 gs IH]; intros seen; simpl.
  { by intros ?%elem_of_nil. }
  destruct (existsb _ seen) eqn:Hex; intros [->|Hin]%elem_of_cons.
  - left. by apply existsb_isomorphic.
  - by apply IH.
  - right. exists g0. split; [left|apply isomorphic_refl].
  - destruct (IH (seen ++ [g0]) Hin) as [(g' & Hg' & Hiso)|(g' & Hg' & Hiso)].
    + apply elem_of_app in Hg' as [?| ->%list_elem_of_singleton].
      * left. eauto.
      * right. exists g0. split; [left|done].
    + right. exists g'. split; [by right|done].
Qed.

Lemma unique_iso_from_fresh seen gs g h :
  g ∈ isograph.unique_iso_from seen gs → h ∈ seen → ¬ isomorphic g h.
Proof.
  revert seen. induction gs as [|g0 gs IH]; intros seen; simpl.
  { by intros ?%elem_of_nil. }
  destruct (existsb _ seen) eqn:Hex.
  - apply IH.
  - intros [->|Hin]%elem_of_cons Hh Hiso.
    + assert (existsb (isograph.isomorphic g0) seen = true); [|congruence].
      apply existsb_isomorphic. eauto.
    + apply (IH _ Hin); [|done]. apply elem_of_app. by left.
Qed.

Lemma unique_iso_from_unique seen gs i j g1 g2 :
  isograph.unique_iso_from seen gs !! i = Some g1 →
  isograph.unique_iso_from seen gs !! j = Some g2 →
  (i < j)%nat → ¬ isomorphic g2 g1.
Proof.
  revert seen i j. induction gs as [|g0 gs IH]; intros seen i j; simpl.
  { done. }
  destruct (existsb _ seen) eqn:Hex; [apply IH|].
  destruct i as [|i], j as [|j]; simpl; try lia.
  - intros [= ->] Hj _. apply (unique_iso_from_fresh (seen ++ [g1]) gs).
    + by eapply list_elem_of_lookup_2.
    + apply elem_of_app. right. left.
  - intros Hi Hj Hlt. apply (IH (seen ++ [g0]) i j); [done|done|lia].
Qed.

Lemma unique_iso_model_sub l g : g ∈ isograph.unique_iso l → g ∈ l.
Proof. apply unique_iso_from_sub. Qed.

Lemma unique_iso_model_cover l g :
  g ∈ l → ∃ g', g' ∈ isograph.unique_iso l ∧ isomorphic g g'.
Proof.
  intros Hg.
  by destruct (unique_iso_from_cover [] l g Hg) as [(? & ?%elem_of_nil & _)|?].
Qed.

Lemma unique_iso_model_unique l i j g1 g2 :
  isograph.unique_iso l !! i = Some g1 →
  isograph.unique_iso l !! j = Some g2 →
  isomorphic g1 g2 → i = j.
Proof.
  intros Hi Hj Hiso. destruct (Nat.lt_trichotomy i j) as [Hlt|[->|Hlt]].
  - destruct (unique_iso_from_unique [] l i j g1 g2 Hi Hj Hlt).
    by apply isomorphic_sym.
  - done.
  - by destruct (unique_iso_from_unique [] l j i g2 g1 Hj Hi Hlt).
Qed.

(** ** The engine: the reported number and graphs *)

Lemma graph_okb_ok g : graph_okb g = true → graph_ok g.
Proof.
  unfold graph_okb. rewrite forallb_forall. intros Hall u l Hl.
  specialize (Hall u). rewrite <-list_elem_of_In, elem_of_seq, Hl in Hall.
  apply lookup_lt_Some in Hl as Hu.
  apply andb_true_iff in Hall as [Hnd%bool_decide_eq_true Hl']; [|lia].
  split; [done|]. intros v Hv. rewrite forallb_forall in Hl'.
  specialize (Hl' v). rewrite <-list_elem_of_In in Hl'.
  apply Hl' in Hv.
  apply andb_true_iff in Hv as [[? ?]%andb_true_iff ?].
  by rewrite !bool_decide_eq_true in *.
Qed.

Lemma never_hereditary : induced_hereditary never.
Proof. by intros h g φ s s' _ _ _ _ _ _. Qed.

Lemma never_predicate : is_predicate never.
Proof. intros g _ s _. by exists false. Qed.

Lemma never_counterexample N :
  counterexample never never 1 1 (replicate N []) ∧
  length (replicate N ([] : list nat)) = N.
Proof.
  split; [|apply length_replicate]. split_and!.
  - intros u l [-> _]%lookup_replicate. split; [constructor|].
    by intros v ?%elem_of_nil.
  - by intros s _ _.
  - by intros s _ _.
Qed.

(** C1, as stated, fails: on a predicate that no set satisfies every
    graph is a counterexample graph and the search never returns. *)
Lemma extremals_never_returns :
  induced_hereditary never ∧ 0 ≤ 1 ∧
  ¬ ∃ fuel n gs,
      extremals isograph.graphs isograph.powerset isograph.unique_iso
        never never 1 1 fuel = Some (Ok (n, gs)).
Proof.
  split; [apply never_hereditary|]. split; [lia|].
  intros (fuel & n & gs & Hret).
  rewrite (extremals_diverges isograph.graphs isograph.powerset
             isograph.unique_iso) in Hret; [done|done|..].
  - intros. apply powerset_model_spec.
  - apply unique_iso_model_sub.
  - apply unique_iso_model_cover.
  - apply unique_iso_model_unique.
  - apply never_predicate.
  - apply never_predicate.
  - apply never_hereditary.
  - apply never_hereditary.
  - intros N. eexists. apply never_counterexample.
Qed.

(** C1, amended.  With collaborators that meet their contracts and
    induced-hereditary predicates [f1], [f2]: a result of [extremals] is
    a pair [(n, gs)] such that a counterexample graph exists at every
    order below [n], none exists at order [n], [gs] is empty when
    [n = 0] and otherwise holds exactly one graph of each isomorphism
    class of the counterexample graphs of order [n-1]; [extremals]
    returns as soon as some order has no counterexample graph, with
    [(0, [])] when there is none of order 0, and does not return when
    every order has one. *)
Theorem extremals_spec (graphs : nat → list graph)
    (powerset : list nat → list (list nat))
    (unique_iso : list graph → list graph)
    (f1 f2 : pred) (b1 b2 : Z) :
  graphs O = [[]] →
  (∀ n s, s ∈ powerset (xrange n) ↔ s `sublist_of` xrange n) →
  (∀ l g, g ∈ unique_iso l → g ∈ l) →
  (∀ l g, g ∈ l → ∃ g', g' ∈ unique_iso l ∧ isomorphic g g') →
  (∀ l i j g1 g2, unique_iso l !! i = Some g1 → unique_iso l !! j = Some g2 →
     isomorphic g1 g2 → i = j) →
  is_predicate f1 → is_predicate f2 →
  induced_hereditary f1 → induced_hereditary f2 →
  let CE := counterexample f1 f2 b1 b2 in
  (∀ fuel r,
     extremals graphs powerset unique_iso f1 f2 b1 b2 fuel = Some r →
     ∃ n gs, r = Ok (n, gs) ∧
       (∀ j, (j < n)%nat → ∃ g, CE g ∧ length g = j) ∧
       (¬ ∃ g, CE g ∧ length g = n) ∧
       (n = O → gs = []) ∧
       ((1 ≤ n)%nat →
          representatives (λ g, CE g ∧ length g = (n - 1)%nat) gs)) ∧
  (∀ N, (¬ ∃ g, CE g ∧ length g = N) →
     ∃ n gs, extremals graphs powerset unique_iso f1 f2 b1 b2 N
             = Some (Ok (n, gs))) ∧
  ((¬ ∃ g, CE g ∧ length g = O) →
     ∀ fuel, extremals graphs powerset unique_iso f1 f2 b1 b2 fuel
             = Some (Ok (O, []))) ∧
  ((∀ N, ∃ g, CE g ∧ length g = N) →
     ∀ fuel, extremals graphs powerset unique_iso f1 f2 b1 b2 fuel = None).
Proof.
  intros Hzero Hpow Hsub Hcover Huniq Hp1 Hp2 Hh1 Hh2 CE.
  pose proof (extremals_partial graphs powerset unique_iso Hzero Hpow Hsub
                Hcover Huniq f1 f2 b1 b2 Hp1 Hp2 Hh1 Hh2) as Hpartial.
  split_and!.
  - intros fuel r Hr.
    destruct (Hpartial fuel r Hr) as
      [[-> Hnone]|(n & gs & -> & Hupto & Hnone & Hlev)].
    + exists O, []. split_and!; [done|lia|done|done|lia].
    + exists (S n), gs. split_and!; [done| |done|done|].
      * intros j Hj. apply Hupto. lia.
      * intros _. by rewrite Nat.sub_succ, Nat.sub_0_r.
  - intros N Hnone.
    destruct (extremals_total graphs powerset unique_iso Hzero Hpow Hsub
                Hcover Huniq f1 f2 b1 b2 Hp1 Hp2 Hh1 Hh2 N Hnone) as [r Hr].
    destruct (Hpartial N r Hr) as [[-> _]|(n & gs & -> & _)]; eauto.
  - intros Hnone fuel.
    by apply extremals_zero.
  - by apply extremals_diverges.
Qed.

(** ** The store: candidates are built from fresh lists *)

Import store.

Lemma preserved_refl h : preserved h h.
Proof. by intros l _. Qed.

Lemma preserved_dom h h' l : preserved h h' → l ∈ dom h → l ∈ dom h'.
Proof.
  intros Hp Hl. apply elem_of_dom. rewrite (Hp l Hl). by apply elem_of_dom.
Qed.

Lemma preserved_trans h1 h2 h3 :
  preserved h1 h2 → preserved h2 h3 → preserved h1 h3.
Proof.
  intros H12 H23 l Hl. rewrite <-(H12 l Hl). apply H23.
  by eapply preserved_dom.
Qed.

Lemma preserved_insert h0 h l (x : list val) :
  preserved h0 h → l ∉ dom h0 → preserved h0 (<[l:=x]> h).
Proof.
  intros Hp Hl l' Hl'. rewrite lookup_insert_ne; [by apply Hp|].
  by intros ->.
Qed.

Lemma bind_run {A B} (m : storeM A) (k : A → storeM B) h h' r :
  (m ≫= k) h = (h', r) →
  (∃ h1 a, m h = (h1, Ok a) ∧ k a h1 = (h', r)) ∨
  (∃ e, m h = (h', Raise e) ∧ r = Raise e).
Proof.
  unfold mbind, storeM_bind. destruct (m h) as [h1 [a|e]].
  - intros ?. left. eauto.
  - intros [= <- <-]. right. eauto.
Qed.

Lemma frame_bind {A B} h0 (m : storeM A) (k : A → storeM B) :
  frame h0 m → (∀ a, frame h0 (k a)) → frame h0 (m ≫= k).
Proof.
  intros Hm Hk h h' r [(h1 & a & Hrun & Hrest)|(e & Hrun & _)]%bind_run Hp.
  - eapply Hk; [done|]. by eapply Hm.
  - by eapply Hm.
Qed.

Lemma frame_ret {A} h0 (a : A) : frame h0 (mret a).
Proof. by intros h h' r [= <- _]. Qed.

Lemma frame_raise {A} h0 e : frame h0 (@raise A e).
Proof. by intros h h' r [= <- _]. Qed.

Lemma frame_items_of h0 l : frame h0 (items_of l).
Proof.
  intros h h' r. unfold items_of. by destruct (h !! l); intros [= <- _].
Qed.

Lemma frame_as_list h0 v : frame h0 (as_list v).
Proof. destruct v; [apply frame_raise|apply frame_ret]. Qed.

Lemma frame_test h0 f1 f2 b1 b2 g : frame h0 (test f1 f2 b1 b2 g).
Proof.
  intros h h' r. unfold test. by destruct (read_graph h g); intros [= <- _].
Qed.

(** A new list is not a list of [h0]. *)
Lemma new_list_run items h h' r :
  new_list items h = (h', r) →
  ∃ l, r = Ok l ∧ (l ∉ dom h) ∧ h' = <[l:=items]> h.
Proof.
  unfold new_list. intros [= <- <-]. eexists. split_and!; [done| |done].
  apply is_fresh.
Qed.

Lemma frame_new_list {B} h0 items (k : loc → storeM B) :
  (∀ l, l ∉ dom h0 → frame h0 (k l)) → frame h0 (new_list items ≫= k).
Proof.
  intros Hk h h' r [(h1 & l & Hrun & Hrest)|(e & Hrun & _)]%bind_run Hp.
  - apply new_list_run in Hrun as (l' & [= <-] & Hl & ->).
    eapply Hk; [|done|].
    + intros Hl0. apply Hl. by eapply preserved_dom.
    + apply preserved_insert; [done|].
      intros Hl0. apply Hl. by eapply preserved_dom.
  - by apply new_list_run in Hrun as (l' & [=] & _).
Qed.

Lemma frame_setitem h0 l i x : l ∉ dom h0 → frame h0 (setitem l i x).
Proof.
  intros Hl h h' r. unfold setitem. destruct (h !! l); [|by intros [= <- _]].
  case_decide; intros [= <- _] Hp; [|done]. by apply preserved_insert.
Qed.

Lemma frame_add_last h0 g n vs : g ∉ dom h0 → frame h0 (add_last g n vs).
Proof.
  intros Hg. induction vs as [|v vs IH]; simpl; [apply frame_ret|].
  apply frame_bind; [apply frame_items_of|]. intros items.
  destruct (items !! v) as [x|]; [|apply frame_raise].
  apply frame_bind; [apply frame_as_list|]. intros lv.
  apply frame_bind; [apply frame_items_of|]. intros nbrs.
  apply frame_new_list. intros single _.
  apply frame_bind; [apply frame_items_of|]. intros extra.
  apply frame_new_list. intros sum _.
  apply frame_bind; [by apply frame_setitem|]. by intros _.
Qed.

Lemma frame_candidate h0 oldg n vset : frame h0 (candidate oldg n vset).
Proof.
  unfold candidate, candidate_with.
  apply frame_bind; [apply frame_items_of|]. intros old_items.
  apply frame_new_list. intros copy _.
  apply frame_new_list. intros single _.
  apply frame_bind; [apply frame_items_of|]. intros extra.
  apply frame_new_list. intros g Hg.
  apply frame_bind; [by apply frame_add_last|]. intros _. apply frame_ret.
Qed.

Lemma frame_extensions h0 f1 f2 n b1 b2 oldg vsets :
  frame h0 (extensions f1 f2 n b1 b2 oldg vsets).
Proof.
  induction vsets as [|vset vsets IH]; simpl; [apply frame_ret|].
  apply frame_bind; [apply frame_candidate|]. intros g.
  apply frame_bind; [apply frame_test|]. intros keep.
  apply frame_bind; [done|]. intros rest. apply frame_ret.
Qed.

Lemma frame_big_list h0 powerset f1 f2 n b1 b2 old :
  frame h0 (counterexamples_up_big_list powerset f1 f2 n b1 b2 old).
Proof.
  induction old as [|oldg old IH]; simpl; [apply frame_ret|].
  apply frame_bind; [apply frame_extensions|]. intros gs.
  apply frame_bind; [done|]. intros rest. apply frame_ret.
Qed.

Lemma read_graph_preserved h h' g gv :
  preserved h h' → read_graph h g = Some gv → read_graph h' g = Some gv.
Proof.
  intros Hp. unfold read_graph.
  destruct (h !! g) as [items|] eqn:Hg; [|done]. simpl.
  rewrite (Hp g) by (by apply elem_of_dom). rewrite Hg. simpl.
  rewrite !mapM_Some. intros HF. eapply Forall2_impl; [done|].
  intros [n|l] nbrs; [done|]. simpl.
  destruct (h !! l) as [x|] eqn:Hl; [|done].
  by rewrite (Hp l) by (by apply elem_of_dom); rewrite Hl.
Qed.

(** ** The store: the candidates are those of the value model *)

Lemma read_ints_Some x nbrs :
  read_ints x = Some nbrs ↔ x = VInt <$> nbrs.
Proof.
  unfold read_ints. rewrite mapM_Some. split.
  - induction 1 as [|[n|l] m x nbrs Hv _ IH]; simplify_eq/=; by f_equal.
  - intros ->. induction nbrs; constructor; done.
Qed.

Lemma read_graph_Some h g gv :
  read_graph h g = Some gv ↔
  ∃ items, h !! g = Some items ∧ Forall2 (reads_list h) items gv.
Proof.
  unfold read_graph. destruct (h !! g) as [items|]; simpl.
  - rewrite mapM_Some. split.
    + intros HF. exists items. split; [done|].
      eapply Forall2_impl; [done|]. intros [n|l] nbrs; [done|]. simpl.
      destruct (h !! l) as [x|] eqn:Hl; [|done]. simpl. intros ?.
      by exists l, x.
    + intros (? & [= <-] & HF). eapply Forall2_impl; [done|].
      intros v nbrs (l & x & -> & Hl & Hx). by rewrite Hl.
  - split; [done|]. by intros (? & [=] & _).
Qed.

Lemma reads_list_preserved h h' v nbrs :
  preserved h h' → reads_list h v nbrs → reads_list h' v nbrs.
Proof.
  intros Hp (l & x & -> & Hl & Hx). exists l, x. split_and!; [done| |done].
  rewrite (Hp l); [done|]. by apply elem_of_dom.
Qed.

Lemma preserved_insert_fresh h l (x : list val) :
  l ∉ dom h → preserved h (<[l:=x]> h).
Proof. intros Hl. apply preserved_insert; [apply preserved_refl|done]. Qed.

(** The loop on the store follows the loop on values. *)
Lemma add_last_refines g n vs h items gv h' r :
  h !! g = Some items → Forall2 (reads_list h) items gv →
  Forall (λ v, v ≠ VRef g) items →
  store.add_last g n vs h = (h', r) →
  preserved (delete g h) h' ∧
  match genramsey.add_last gv n vs with
  | Ok gv' =>
      r = Ok tt ∧ ∃ items', h' !! g = Some items' ∧
        Forall2 (reads_list h') items' gv'
  | Raise e => r = Raise e
  end.
Proof.
  revert h items gv. induction vs as [|v vs IH]; intros h items gv Hg HF Hself;
    simpl.
  { intros [= <- <-]. split; [|by eauto].
    intros l Hl. apply elem_of_dom in Hl as [x Hx].
    apply lookup_delete_Some in Hx as [? Hx]. by rewrite lookup_delete_ne. }
  unfold mbind at 1, storeM_bind at 1, items_of at 1. rewrite Hg.
  unfold getitem. pose proof (Forall2_length _ _ _ HF) as Hlen.
  destruct (gv !! v) as [nbrs|] eqn:Hv; simpl; last first.
  { apply lookup_ge_None in Hv.
    rewrite (proj2 (lookup_ge_None items v)) by lia.
    intros [= <- <-]. split; [|done].
    intros l Hl. apply elem_of_dom in Hl as [x Hx].
    apply lookup_delete_Some in Hx as [? Hx]. by rewrite lookup_delete_ne. }
  destruct (Forall2_lookup_r _ _ _ _ _ HF Hv) as (x & Hx & Hreads).
  rewrite Hx. destruct Hreads as (lv & xs & -> & Hlv & Hxs).
  apply read_ints_Some in Hxs as ->.
  unfold mbind at 1, storeM_bind at 1. simpl.
  unfold mbind at 1, storeM_bind at 1, items_of at 1. rewrite Hlv.
  unfold mbind at 1, storeM_bind at 1, new_list at 1. simpl.
  set (single := fresh (dom h)).
  set (h1 := <[single:=[VInt (n - 1)%nat]]> h).
  unfold mbind at 1, storeM_bind at 1, items_of at 1.
  unfold h1 at 1. rewrite lookup_insert_eq. fold h1.
  unfold mbind at 1, storeM_bind at 1, new_list at 1. simpl.
  set (sum := fresh (dom h1)).
  set (h2 := <[sum:=(VInt <$> nbrs) ++ [VInt (n - 1)%nat]]> h1).
  assert (single ∉ dom h) as Hsingle by apply is_fresh.
  assert (sum ∉ dom h1) as Hsum by apply is_fresh.
  assert (g ∈ dom h) as Hgdom by (by apply elem_of_dom).
  assert (g ≠ single) as Hgs by (by intros ->).
  assert (g ≠ sum) as Hgsum.
  { intros ->. apply Hsum. unfold h1. rewrite dom_insert.
    apply elem_of_union. by right. }
  assert (h2 !! g = Some items) as Hg2.
  { unfold h2, h1. by rewrite !lookup_insert_ne. }
  unfold mbind at 1, storeM_bind at 1, setitem at 1. rewrite Hg2.
  rewrite decide_True by (by eapply lookup_lt_Some).
  set (h3 := <[g:=<[v:=VRef sum]> items]> h2).
  assert (preserved (delete g h) h3) as Hp3.
  { intros l Hl. apply elem_of_dom in Hl as [y Hy].
    apply lookup_delete_Some in Hy as [Hne Hy].
    rewrite lookup_delete_ne by done. unfold h3, h2, h1.
    rewrite !lookup_insert_ne; [done| | |done].
    - intros ->. apply Hsingle. by apply elem_of_dom.
    - intros ->. apply Hsum. unfold h1. rewrite dom_insert.
      apply elem_of_union. right. by apply elem_of_dom. }
  assert (∀ u nb, u ≠ VRef g → reads_list h u nb → reads_list h3 u nb)
    as Hkeep.
  { intros u nb Hu (l & y & -> & Hl & Hy). exists l, y.
    split_and!; [done| |done]. rewrite (Hp3 l); [|].
    - rewrite lookup_delete_ne; [done|]. by intros ->.
    - apply elem_of_dom. exists y. rewrite lookup_delete_ne; [done|].
      by intros ->. }
  intros Hrun.
  destruct (IH h3 (<[v:=VRef sum]> items)
              (<[v:=nbrs ++ [(n - 1)%nat]]> gv)) as [Hp' Hres].
  - unfold h3. by rewrite lookup_insert_eq.
  - apply Forall2_insert.
    + rewrite Forall_forall in Hself.
      apply Forall2_same_length_lookup_2; [done|].
      intros i u nb Hu Hnb. apply Hkeep.
      * apply Hself. by eapply list_elem_of_lookup_2.
      * by eapply Forall2_lookup_lr.
    + exists sum, ((VInt <$> nbrs) ++ [VInt (n - 1)%nat]).
      split_and!; [done| |].
      * unfold h3, h2. rewrite lookup_insert_ne by done.
        by rewrite lookup_insert_eq.
      * apply read_ints_Some. by rewrite fmap_app.
  - apply Forall_insert; [done|]. by intros [= ->].
  - done.
  - split; [|done]. intros l Hl.
    assert (l ≠ g) as Hne.
    { intros ->. apply elem_of_dom in Hl as [? Hl].
      by rewrite lookup_delete_eq in Hl. }
    assert (l ∈ dom (delete g h3)) as Hl3.
    { apply elem_of_dom. rewrite lookup_delete_ne by done.
      rewrite (Hp3 l Hl). by apply elem_of_dom. }
    rewrite (Hp' l Hl3), lookup_delete_ne by done. by apply Hp3.
Qed.

Lemma candidate_refines oldg oldv n vset h h' r :
  read_graph h oldg = Some oldv →
  store.candidate oldg n vset h = (h', r) →
  match genramsey.candidate oldv n vset with
  | Ok gv => ∃ g, r = Ok g ∧ read_graph h' g = Some gv
  | Raise e => r = Raise e
  end.
Proof.
  intros (items & Hold & HF)%read_graph_Some.
  unfold store.candidate, candidate_with, genramsey.candidate.
  unfold mbind at 1, storeM_bind at 1, items_of at 1. rewrite Hold.
  unfold mbind at 1, storeM_bind at 1, new_list at 1. simpl.
  set (copy := fresh (dom h)). set (h1 := <[copy:=VInt <$> vset]> h).
  unfold mbind at 1, storeM_bind at 1, new_list at 1. simpl.
  set (single := fresh (dom h1)). set (h2 := <[single:=[VRef copy]]> h1).
  unfold mbind at 1, storeM_bind at 1, items_of at 1.
  unfold h2 at 1. rewrite lookup_insert_eq. fold h2.
  unfold mbind at 1, storeM_bind at 1, new_list at 1. simpl.
  set (g := fresh (dom h2)).
  set (h3 := <[g:=items ++ [VRef copy]]> h2).
  assert (copy ∉ dom h) as Hcopy by apply is_fresh.
  assert (single ∉ dom h1) as Hsingle by apply is_fresh.
  assert (g ∉ dom h2) as Hg by apply is_fresh.
  assert (preserved h h1) as Hp1 by (by apply preserved_insert_fresh).
  assert (preserved h1 h2) as Hp2 by (by apply preserved_insert_fresh).
  assert (preserved h2 h3) as Hp3 by (by apply preserved_insert_fresh).
  assert (preserved h h3) as Hp
    by (eapply preserved_trans; [|done]; by eapply preserved_trans).
  assert (copy ∈ dom h2) as Hcopy2.
  { eapply preserved_dom; [done|]. unfold h1. rewrite dom_insert.
    apply elem_of_union. left. by apply elem_of_singleton. }
  assert (h3 !! g = Some (items ++ [VRef copy])) as Hg3
    by (unfold h3; by rewrite lookup_insert_eq).
  assert (Forall2 (reads_list h3) (items ++ [VRef copy]) (oldv ++ [vset]))
    as HF3.
  { apply Forall2_app.
    - eapply Forall2_impl; [done|]. intros v nbrs.
      by apply reads_list_preserved.
    - constructor; [|constructor]. exists copy, (VInt <$> vset).
      split_and!; [done| |by apply read_ints_Some].
      rewrite (Hp3 copy Hcopy2), (Hp2 copy).
      + unfold h1. by rewrite lookup_insert_eq.
      + unfold h1. rewrite dom_insert. apply elem_of_union. left.
        by apply elem_of_singleton. }
  assert (Forall (λ v, v ≠ VRef g) (items ++ [VRef copy])) as Hself.
  { apply Forall_app. split.
    - apply Forall_forall. intros v Hv ->.
      apply list_elem_of_lookup in Hv as [i Hi].
      destruct (Forall2_lookup_l _ _ _ _ _ HF Hi) as
        (nb & _ & l & x & [= <-] & Hl & _).
      apply Hg. apply (preserved_dom h h2).
      + by apply (preserved_trans h h1 h2).
      + by apply elem_of_dom.
    - constructor; [|constructor]. intros [= Heq]. apply Hg.
      by rewrite <-Heq. }
  intros [(h4 & [] & Hrun & Hret)|(e & Hrun & ->)]%bind_run.
  - injection Hret as <- <-.
    destruct (add_last_refines g n vset h3 _ _ h4 (Ok tt) Hg3 HF3 Hself Hrun)
      as [_ Hres].
    destruct (genramsey.add_last _ _ _) as [gv|e]; [|done].
    destruct Hres as (_ & items' & Hg' & HF'). exists g.
    split; [done|]. apply read_graph_Some. eauto.
  - destruct (add_last_refines g n vset h3 _ _ h' (Raise e) Hg3 HF3 Hself
                Hrun) as [_ Hres].
    destruct (genramsey.add_last _ _ _) as [gv|e'];
      [by destruct Hres as [[=] _]|]. by injection Hres as ->.
Qed.

Lemma test_refines f1 f2 b1 b2 g gv h :
  read_graph h g = Some gv →
  test f1 f2 b1 b2 g h = (h, neither has_fset_with_last f1 f2 b1 b2 gv).
Proof. intros Hg. unfold test. by rewrite Hg. Qed.

Lemma extensions_refines f1 f2 n b1 b2 oldg oldv vsets h h' r :
  read_graph h oldg = Some oldv →
  store.extensions f1 f2 n b1 b2 oldg vsets h = (h', r) →
  match genramsey.extensions f1 f2 n b1 b2 oldv vsets with
  | Ok gvs =>
      ∃ ls, r = Ok ls ∧ Forall2 (λ l gv, read_graph h' l = Some gv) ls gvs
  | Raise e => r = Raise e
  end.
Proof.
  revert h h' r.
  induction vsets as [|vset vsets IH]; intros h h' r Hold; simpl.
  { intros [= <- <-]. exists []. by split. }
  intros [(h1 & g & Hcand & Hrest)|(e & Hcand & ->)]%bind_run.
  - pose proof (candidate_refines _ _ _ _ _ _ _ Hold Hcand) as Hc.
    pose proof (frame_candidate h oldg n vset h h1 _ Hcand (preserved_refl h))
      as Hp1.
    destruct (genramsey.candidate oldv n vset) as [gv|e]; [|done].
    destruct Hc as (g' & [= <-] & Hg). simpl.
    apply bind_run in Hrest as
      [(h2 & keep & Htest & Hrest)|(e & Htest & ->)];
      rewrite (test_refines _ _ _ _ _ _ _ Hg) in Htest.
    + injection Htest as <- ->. simpl.
      apply bind_run in Hrest as
        [(h3 & rest & Hext & Hret)|(e & Hext & ->)].
      * injection Hret as <- <-.
        pose proof (frame_extensions h1 f1 f2 n b1 b2 oldg vsets h1 h3 _
                      Hext (preserved_refl h1)) as Hp3.
        apply IH in Hext; [|by eapply read_graph_preserved].
        destruct (genramsey.extensions _ _ _ _ _ _ _) as [gvs|e]; [|done].
        destruct Hext as (ls & [= <-] & HF). simpl.
        destruct keep; eexists; (split; [done|]); [|done].
        constructor; [|done]. by eapply read_graph_preserved.
      * apply IH in Hext; [|by eapply read_graph_preserved].
        destruct (genramsey.extensions _ _ _ _ _ _ _) as [gvs|e'];
          [by destruct Hext as (? & [=] & _)|]. by injection Hext as ->.
    + injection Htest as <- ->. done.
  - pose proof (candidate_refines _ _ _ _ _ _ _ Hold Hcand) as Hc.
    destruct (genramsey.candidate oldv n vset) as [gv|e'];
      [by destruct Hc as (? & [=] & _)|]. by injection Hc as ->.
Qed.

(** The store model and the value model of the candidate loop agree. *)
Lemma big_list_refines powerset f1 f2 n b1 b2 old oldvs h h' r :
  Forall2 (λ l gv, read_graph h l = Some gv) old oldvs →
  store.counterexamples_up_big_list powerset f1 f2 n b1 b2 old h = (h', r) →
  match genramsey.counterexamples_up_big_list powerset f1 f2 n b1 b2 oldvs with
  | Ok gvs =>
      ∃ ls, r = Ok ls ∧ Forall2 (λ l gv, read_graph h' l = Some gv) ls gvs
  | Raise e => r = Raise e
  end.
Proof.
  revert oldvs h h' r.
  induction old as [|oldg old IH]; intros oldvs h h' r HF;
    inversion HF as [|? oldv ? oldvs' Hold HF']; subst; simpl.
  { intros [= <- <-]. exists []. by split. }
  intros [(h1 & gs & Hext & Hrest)|(e & Hext & ->)]%bind_run.
  - pose proof (frame_extensions h f1 f2 n b1 b2 oldg _ h h1 _ Hext
                  (preserved_refl h)) as Hp1.
    apply (extensions_refines _ _ _ _ _ _ _ _ _ _ _ Hold) in Hext.
    destruct (genramsey.extensions _ _ _ _ _ _ _) as [gvs|e]; [|done].
    destruct Hext as (ls & [= <-] & HFls). simpl.
    assert (Forall2 (λ l gv, read_graph h1 l = Some gv) old oldvs') as HF1.
    { eapply Forall2_impl; [done|]. intros l gv.
      by apply read_graph_preserved. }
    apply bind_run in Hrest as [(h2 & rest & Hbig & Hret)|(e & Hbig & ->)].
    + injection Hret as <- <-.
      pose proof (frame_big_list h1 powerset f1 f2 n b1 b2 old h1 h2 _ Hbig
                    (preserved_refl h1)) as Hp2.
      apply (IH _ _ _ _ HF1) in Hbig.
      destruct (genramsey.counterexamples_up_big_list _ _ _ _ _ _ _)
        as [restv|e]; [|done].
      destruct Hbig as (ls' & [= <-] & HFrest). simpl.
      eexists. split; [done|]. apply Forall2_app; [|done].
      eapply Forall2_impl; [done|]. intros l gv.
      by apply read_graph_preserved.
    + apply (IH _ _ _ _ HF1) in Hbig.
      destruct (genramsey.counterexamples_up_big_list _ _ _ _ _ _ _)
        as [restv|e']; [by destruct Hbig as (? & [=] & _)|].
      by injection Hbig as ->.
  - apply (extensions_refines _ _ _ _ _ _ _ _ _ _ _ Hold) in Hext.
    destruct (genramsey.extensions _ _ _ _ _ _ _) as [gvs|e'];
      [by destruct Hext as (? & [=] & _)|]. by injection Hext as ->.
Qed.

(** C8.  Running the candidate loop to its end leaves every list object
    of the initial store as it was; in particular every graph of [old]
    still stands for the same value, whether the loop returned or
    raised.  The graphs it yields are new objects that stand for the
    candidates of the value model. *)
Theorem candidates_leave_old_graphs (powerset : list nat → list (list nat))
    (f1 f2 : pred) (n : nat) (b1 b2 : Z) (old : list loc)
    (h h' : heap) (r : result (list loc)) :
  store.counterexamples_up_big_list powerset f1 f2 n b1 b2 old h = (h', r) →
  preserved h h' ∧
  (∀ oldg gv, oldg ∈ old →
     read_graph h oldg = Some gv → read_graph h' oldg = Some gv) ∧
  (∀ oldvs, Forall2 (λ l gv, read_graph h l = Some gv) old oldvs →
     match
       genramsey.counterexamples_up_big_list powerset f1 f2 n b1 b2 oldvs
     with
     | Ok gvs =>
         ∃ ls, r = Ok ls ∧
               Forall2 (λ l gv, read_graph h' l = Some gv) ls gvs
     | Raise e => r = Raise e
     end).
Proof.
  intros Hrun.
  assert (preserved h h') as Hp.
  { eapply (frame_big_list h); [done|apply preserved_refl]. }
  split_and!; [done| |].
  - intros oldg gv _. by apply read_graph_preserved.
  - intros oldvs HF. by eapply big_list_refines.
Qed.

(** The in-place variant does change the graph it extends. *)
Example in_place_changes_old_graph :
  read_graph one_vertex 1%positive = Some [[]] ∧
  read_graph
    (candidate_with add_last_in_place 1%positive 2 [O] one_vertex).1
    1%positive = Some [[1%nat]] ∧
  read_graph (candidate 1%positive 2 [O] one_vertex).1 1%positive
    = Some [[]].
Proof. vm_compute. done. Qed.

(** ** The theorems at work on the doctest graphs *)

Lemma vertex_subset_0134 : vertex_subset path5 [0; 1; 3; 4]%nat.
Proof. split; repeat constructor; simpl; lia. Qed.

Lemma extremals_spec_witness :
  let CE := counterexample is_independent is_clique 3 3 in
  (∀ j, (j < 6)%nat → ∃ g, CE g ∧ length g = j) ∧
  (¬ ∃ g, CE g ∧ length g = 6%nat) ∧
  representatives (λ g, CE g ∧ length g = 5%nat) [cycle5].
Proof.
  intros CE.
  destruct (extremals_spec isograph.graphs isograph.powerset
              isograph.unique_iso is_independent is_clique 3 3)
    as [Hret _].
  - reflexivity.
  - intros n s. apply powerset_model_spec.
  - apply unique_iso_model_sub.
  - apply unique_iso_model_cover.
  - apply unique_iso_model_unique.
  - intros g _. apply is_independent_returns.
  - intros g _. apply is_clique_returns.
  - apply is_independent_hereditary.
  - apply is_clique_hereditary.
  - destruct (Hret 6%nat (Ok (6%nat, [cycle5])))
      as (n & gs & Heq & Hbelow & Hnone & _ & Hrep).
    + vm_compute. reflexivity.
    + injection Heq as <- <-. split_and!; [done|done|].
      apply Hrep. lia.
Defined.

Lemma has_fset_with_last_complete_witness :
  (has_fset_with_last is_clique 2 star3 = Ok true →
   has_fset is_clique 2 star3 = Ok true) ∧
  (has_fset is_clique 2 star3 = Ok true ↔
   has_fset_with_last is_clique 2 star3 = Ok true).
Proof.
  destruct (has_fset_with_last_complete is_clique 2 star3) as [Hsub Hiff].
  - apply is_clique_returns.
  - split; [exact Hsub|]. apply Hiff.
    + apply is_clique_hereditary.
    + apply graph_okb_ok. vm_compute. reflexivity.
    + simpl. lia.
    + vm_compute. reflexivity.
Defined.

Lemma make_k_divided_func_spec_witness :
  ∃ f, make_k_divided_func 2 = Ok f ∧
    (∃ b, f path5 [0; 1; 3; 4]%nat = Ok b ∧
       (b = true ↔ k_divided path5 [0; 1; 3; 4]%nat 2)) ∧
    (∀ x y ys st l,
       pushed st !! y = Some false → path5 !! x = Some l → y ∈ l →
       2 ≤ compsize st →
       scan not_in 2 path5 x (y :: ys) st = Ok None).
Proof.
  apply make_k_divided_func_spec.
  - lia.
  - apply graph_okb_ok. vm_compute. reflexivity.
  - apply vertex_subset_0134.
Defined.

Lemma has_fset_spec_witness :
  has_fset is_independent (-1) star3 = Ok false ∧
  has_fset is_independent 5 star3 = Ok false ∧
  (has_fset is_independent 3 star3 = Ok true ↔
   ∃ s, vertex_subset star3 s ∧ Z.of_nat (length s) = 3 ∧
        is_independent star3 s = Ok true).
Proof.
  destruct (has_fset_spec is_independent (-1) star3) as (Hneg & _ & _).
  destruct (has_fset_spec is_independent 5 star3) as (_ & Hbig & _).
  destruct (has_fset_spec is_independent 3 star3) as (_ & _ & Hmid).
  split_and!.
  - apply Hneg. lia.
  - apply Hbig. simpl. lia.
  - apply Hmid.
    + simpl. lia.
    + apply is_independent_returns.
Defined.

Lemma has_fset_with_last_spec_witness :
  has_fset_with_last is_independent 0 star3 = Ok false ∧
  has_fset_with_last is_independent 5 star3 = Ok false ∧
  (has_fset_with_last is_clique 2 star3 = Ok true ↔
   ∃ s, vertex_subset star3 s ∧ Z.of_nat (length s) = 2 ∧
        3%nat ∈ s ∧ is_clique star3 s = Ok true).
Proof.
  destruct (has_fset_with_last_spec is_independent 0 star3) as (Hlow & _ & _).
  destruct (has_fset_with_last_spec is_independent 5 star3) as (_ & Hbig & _).
  destruct (has_fset_with_last_spec is_clique 2 star3) as (_ & _ & Hmid).
  split_and!.
  - apply Hlow. lia.
  - apply Hbig. simpl. lia.
  - apply Hmid.
    + simpl. lia.
    + apply is_clique_returns.
Defined.

Lemma make_k_sparse_func_spec_witness :
  ∃ f, make_k_sparse_func 1 = Ok f ∧
    (∃ b, f path5 [0; 1; 3; 4]%nat = Ok b ∧
       (b = true ↔
        ∀ v, v ∈ [0; 1; 3; 4]%nat →
          Z.of_nat (induced_degree path5 [0; 1; 3; 4]%nat v) ≤ 1)) ∧
    (∀ v rest, (v < length path5)%nat →
       Z.of_nat (induced_degree path5 [0; 1; 3; 4]%nat v) > 1 →
       is_k_sparse_loop 1 path5 [0; 1; 3; 4]%nat (v :: rest) = Ok false).
Proof.
  apply make_k_sparse_func_spec.
  - lia.
  - apply graph_okb_ok. vm_compute. reflexivity.
  - apply vertex_subset_0134.
Defined.

Lemma complement_variants_spec_witness :
  (∃ fc f,
     make_k_divided_compl_func 2 = Ok fc ∧ make_k_divided_func 2 = Ok f ∧
     fc path5 [0; 1; 3; 4]%nat = f (complement path5) [0; 1; 3; 4]%nat) ∧
  (∃ fc f,
     make_k_sparse_compl_func 2 = Ok fc ∧ make_k_sparse_func 2 = Ok f ∧
     fc path5 [0; 1; 3; 4]%nat = f (complement path5) [0; 1; 3; 4]%nat).
Proof.
  destruct (complement_variants_spec 2 path5 [0; 1; 3; 4]%nat)
    as (_ & Hdiv & Hsp).
  - apply vertex_subset_0134.
  - split; [apply Hdiv|apply Hsp]; lia.
Defined.

Lemma candidates_leave_old_graphs_witness :
  let run := store.counterexamples_up_big_list isograph.powerset
               is_independent is_clique 2 3 3 [1%positive] store.one_vertex in
  store.preserved store.one_vertex run.1 ∧
  store.read_graph run.1 1%positive = Some [[]].
Proof.
  intros run.
  destruct (candidates_leave_old_graphs isograph.powerset
              is_independent is_clique 2 3 3 [1%positive]
              store.one_vertex run.1 run.2) as (Hp & Hold & _).
  - apply surjective_pairing.
  - split; [exact Hp|]. apply Hold; [left|]. vm_compute. reflexivity.
Defined.

Lemma parameter_checks_spec_witness :
  dividedramsey.find_extremals isograph.graphs isograph.powerset
    isograph.unique_iso 0 3 3 0 = Some (Raise AssertionError) ∧
  sparseramsey.find_extremals isograph.graphs isograph.powerset
    isograph.unique_iso 0 (-1) 3 0 = Some (Raise AssertionError) ∧
  make_k_divided_func 0 = Raise AssertionError ∧
  dividedramsey.find_extremals isograph.graphs isograph.powerset
    isograph.unique_iso 1 3 3 6
  = extremals isograph.graphs isograph.powerset isograph.unique_iso
      (is_k_divided 1) (is_k_divided_compl 1) 3 3 6.
Proof.
  destruct (parameter_checks_spec isograph.graphs isograph.powerset
              isograph.unique_iso 0 3 3) as (Hdiv & Hmk & _).
  destruct (parameter_checks_spec isograph.graphs isograph.powerset
              isograph.unique_iso 0 (-1) 3) as (_ & _ & Hsp & _).
  destruct (parameter_checks_spec isograph.graphs isograph.powerset
              isograph.unique_iso 1 3 3) as (_ & _ & _ & _ & Hok & _).
  split_and!.
  - apply Hdiv. lia.
  - apply Hsp. lia.
  - apply Hmk. lia.
  - apply Hok; lia.
Defined.

Lemma extremals_result_consistent_witness :
  ((1 ≤ 6)%nat → [cycle5] ≠ [] ∧ ∀ g, g ∈ [cycle5] → length g = (6 - 1)%nat) ∧
  (6%nat = O → [cycle5] = []).
Proof.
  apply (extremals_result_consistent isograph.graphs isograph.powerset
           isograph.unique_iso is_independent is_clique 3 3 6).
  - intros g Hg. apply list_elem_of_singleton in Hg. by subst g.
  - apply unique_iso_model_sub.
  - vm_compute. reflexivity.
Defined.

(** ** Doctests of the predicates and of the engine *)

Example make_k_divided_func_doctests :
  (λ k, is_k_divided k path5 [0; 1; 2; 3; 4]%nat) <$> [1; 2; 3; 4; 5]
    = Ok <$> [false; false; false; false; true] ∧
  (λ k, is_k_divided k path5 [0; 1; 3; 4]%nat) <$> [1; 2; 3]
    = Ok <$> [false; true; true] ∧
  (λ k, is_k_divided k path5 [0; 2; 4]%nat) <$> [1; 2; 3]
    = Ok <$> [true; true; true] ∧
  (λ k, is_k_divided_compl k path5_compl [0; 1; 2; 3; 4]%nat)
    <$> [1; 2; 3; 4; 5]
    = Ok <$> [false; false; false; false; true].
Proof. vm_compute. done. Qed.

Example make_k_sparse_func_doctests :
  (λ k, is_k_sparse k path5 [0; 1; 2; 3; 4]%nat) <$> [0; 1; 2]
    = Ok <$> [false; false; true] ∧
  (λ k, is_k_sparse k path5 [0; 1; 3; 4]%nat) <$> [0; 1; 2]
    = Ok <$> [false; true; true] ∧
  (λ k, is_k_sparse_compl k path5_compl [0; 1; 3; 4]%nat) <$> [0; 1; 2]
    = Ok <$> [false; true; true].
Proof. vm_compute. done. Qed.

Example extremals_doctest :
  extremals isograph.graphs isograph.powerset isograph.unique_iso
    is_independent is_clique 3 3 6 = Some (Ok (6%nat, [cycle5])) ∧
  dividedramsey.find_extremals isograph.graphs isograph.powerset
    isograph.unique_iso 1 3 3 6 = Some (Ok (6%nat, [cycle5])) ∧
  sparseramsey.find_extremals isograph.graphs isograph.powerset
    isograph.unique_iso 0 3 3 6 = Some (Ok (6%nat, [cycle5])) ∧
  dividedramsey.find_extremals isograph.graphs isograph.powerset
    isograph.unique_iso 1 2 2 6 = Some (Ok (2%nat, [[[]]])).
Proof. vm_compute. done. Qed.

(** * Further properties of the code *)

Import genramsey sparseramsey dividedramsey commandline.

Lemma getitem_Raise {A} (l : list A) i e :
  getitem l i = Raise e ↔ e = IndexError ∧ (length l ≤ i)%nat.
Proof.
  unfold getitem. destruct (l !! i) eqn:Hl.
  - apply lookup_lt_Some in Hl. split; [done|]. intros [_ ?]. lia.
  - apply lookup_ge_None in Hl. split; [by intros [= <-]|]. by intros [-> _].
Qed.




Lemma is_clique_inner_true g v xs :
  is_clique_inner g v xs = Ok true ↔ ∀ x, x ∈ xs → x ≠ v → adj g v x.
Proof.
  induction xs as [|x xs IH]; simpl.
  { split; [|done]. intros _ x Hx. by apply elem_of_nil in Hx. }
  case_bool_decide as Hne.
  - destruct (getitem g v) as [l|e] eqn:Hl; simpl.
    + apply getitem_Ok in Hl. case_bool_decide as Hin.
      * split; [done|]. intros H. destruct Hin.
        apply (adj_lookup _ _ _ _ Hl). apply H; [left|done].
      * rewrite IH. split.
        -- intros H y [->|Hy]%elem_of_cons ?; [|by apply H].
           apply (adj_lookup _ _ _ _ Hl).
           destruct (decide (x ∈ l)); first [done|tauto].
        -- intros H y Hy. apply H. by right.
    + apply getitem_Raise in Hl as [-> Hge]. split; [done|]. intros H.
      destruct (H x) as (l & Hl%lookup_lt_Some & _); [left|done|lia].
  - rewrite IH. split.
    + intros H y [->|Hy]%elem_of_cons ?; [|by apply H].
      destruct Hne. done.
    + intros H y Hy. apply H. by right.
Qed.

Lemma is_clique_inner_Raise g v xs e :
  is_clique_inner g v xs = Raise e →
  e = IndexError ∧ (length g ≤ v)%nat ∧ ∃ x, x ∈ xs ∧ x ≠ v.
Proof.
  induction xs as [|x xs IH]; simpl; [done|].
  case_bool_decide as Hne.
  - destruct (getitem g v) as [l|e'] eqn:Hl; simpl.
    + case_bool_decide; [done|].
      intros (-> & ? & y & ? & ?)%IH. split_and!; [done..|].
      exists y. split; [by right|done].
    + intros [= ->]. apply getitem_Raise in Hl as [-> Hge].
      split_and!; [done..|]. exists x. split; [left|done].
  - intros (-> & ? & y & ? & ?)%IH. split_and!; [done..|].
    exists y. split; [by right|done].
Qed.

Lemma is_clique_loop_true g s vs :
  is_clique_loop g s vs = Ok true ↔
  ∀ u v, u ∈ vs → v ∈ s → v ≠ u → adj g u v.
Proof.
  induction vs as [|u vs IH]; simpl.
  { split; [|done]. intros _ u v Hu. by apply elem_of_nil in Hu. }
  destruct (is_clique_inner g u s) as [[]|e] eqn:Hin; simpl.
  - pose proof (proj1 (is_clique_inner_true _ _ _) Hin) as Hin'.
    rewrite IH. split.
    + intros H u' v [->|Hu']%elem_of_cons Hv Hne; [by apply Hin'|by apply H].
    + intros H u' v Hu'. apply H. by right.
  - split; [done|]. intros H.
    assert (is_clique_inner g u s = Ok true); [|congruence].
    apply is_clique_inner_true. intros x Hx Hne. apply H; [left|done..].
  - split; [done|]. intros H.
    assert (is_clique_inner g u s = Ok true); [|congruence].
    apply is_clique_inner_true. intros x Hx Hne. apply H; [left|done..].
Qed.

Lemma is_clique_loop_Raise g s vs e :
  is_clique_loop g s vs = Raise e →
  e = IndexError ∧ ∃ u v, u ∈ vs ∧ v ∈ s ∧ v ≠ u ∧ (length g ≤ u)%nat.
Proof.
  induction vs as [|u vs IH]; simpl; [done|].
  destruct (is_clique_inner g u s) as [[]|e'] eqn:Hin; simpl; [|done|].
  - intros (-> & u' & v & ? & ?)%IH. split; [done|]. exists u', v.
    split; [by right|done].
  - intros [= ->]. apply is_clique_inner_Raise in Hin as (-> & ? & x & ? & ?).
    split; [done|]. exists u, x. split_and!; [left|done..].
Qed.

(** X2.  [is_clique] on every input: it returns [True] exactly when
    every vertex of [s] lists every other vertex of [s] among its
    neighbours.  [g[v]] is only looked up for a pair of distinct
    vertices, so that a set with one vertex is a clique even when the
    vertex is out of range; the only exception is [IndexError], raised
    for a vertex out of range that has another vertex beside it. *)
Theorem is_clique_correct (g : graph) (s : list nat) :
  (is_clique g s = Ok true ↔
     ∀ u v, u ∈ s → v ∈ s → v ≠ u → adj g u v) ∧
  (Forall (λ v, (v < length g)%nat) s → ∃ b, is_clique g s = Ok b) ∧
  (∀ e, is_clique g s = Raise e →
     e = IndexError ∧ ∃ u v, u ∈ s ∧ v ∈ s ∧ v ≠ u ∧ (length g ≤ u)%nat) ∧
  (∀ v, is_clique g [v] = Ok true).
Proof.
  split_and!.
  - apply is_clique_loop_true.
  - intros Hs. destruct (is_clique_spec g s Hs) as (b & Hb & _). eauto.
  - apply is_clique_loop_Raise.
  - intros v. apply is_clique_loop_true.
    intros u w ->%list_elem_of_singleton ->%list_elem_of_singleton. done.
Qed.

Lemma result_bool_ext (r r' : result bool) b b' :
  r = Ok b → r' = Ok b' → (b = true ↔ b' = true) → r = r'.
Proof.
  intros -> -> Hiff. f_equal. destruct b, b'; try done.
  - symmetry. by apply Hiff.
  - by apply Hiff.
Qed.

Lemma is_clique_complement (g : graph) (s : list nat) :
  Forall (λ v, (v < length g)%nat) s →
  is_clique g s = is_independent (complement g) s.
Proof.
  intros Hs.
  assert (Forall (λ v, (v < length (complement g))%nat) s) as Hs'
    by (by rewrite complement_length).
  destruct (is_clique_spec g s Hs) as (b & Hb & Hiff).
  destruct (is_independent_spec (complement g) s Hs') as (b' & Hb' & Hiff').
  apply (result_bool_ext _ _ b b'); [done..|].
  rewrite Hiff, Hiff'. setoid_rewrite complement_adj.
  rewrite Forall_forall in Hs. split.
  - intros H u v Hu Hv (_ & _ & Hne & Hnadj). by apply Hnadj, H.
  - intros H u v Hu Hv Hne. destruct (decide (adj g u v)); [done|].
    destruct (H u v); auto.
Qed.

Lemma is_independent_complement (g : graph) (s : list nat) :
  Forall (λ v, (v < length g)%nat) s → (∀ v, ¬ adj g v v) →
  is_independent g s = is_clique (complement g) s.
Proof.
  intros Hs Hloop.
  assert (Forall (λ v, (v < length (complement g))%nat) s) as Hs'
    by (by rewrite complement_length).
  destruct (is_independent_spec g s Hs) as (b & Hb & Hiff).
  destruct (is_clique_spec (complement g) s Hs') as (b' & Hb' & Hiff').
  apply (result_bool_ext _ _ b b'); [done..|].
  rewrite Hiff, Hiff'. setoid_rewrite complement_adj.
  rewrite Forall_forall in Hs. split.
  - intros H u v Hu Hv Hne. split_and!; auto.
  - intros H u v Hu Hv Hadj. destruct (decide (v = u)) as [->|Hne].
    + by apply (Hloop u).
    + by destruct (H u v Hu Hv Hne) as (_ & _ & _ & Hnadj).
Qed.

(** X3.  On vertices in range, [is_clique] on [g] is [is_independent]
    on the complement of [g], and
    when no vertex lists itself [is_independent] on [g] is [is_clique]
    on the complement. *)
Theorem clique_is_independent_in_complement (g : graph) (s : list nat) :
  Forall (λ v, (v < length g)%nat) s →
  is_clique g s = is_independent (complement g) s ∧
  ((∀ v, ¬ adj g v v) → is_independent g s = is_clique (complement g) s).
Proof.
  intros Hs. split.
  - by apply is_clique_complement.
  - intros Hloop. by apply is_independent_complement.
Qed.

Lemma is_k_sparse_count_nonpositive k s nbrs :
  k ≤ 0 →
  is_k_sparse_count k s nbrs 0 =
  if is_independent_nbrs s nbrs then Some 0 else None.
Proof.
  intros Hk. induction nbrs as [|x nbrs IH]; simpl; [done|].
  case_bool_decide; [|done]. by destruct (Z.gtb_spec (0 + 1) k); [|lia].
Qed.

Lemma is_k_sparse_loop_nonpositive k g s vs :
  k ≤ 0 → is_k_sparse_loop k g s vs = is_independent_loop g s vs.
Proof.
  intros Hk. induction vs as [|v vs IH]; simpl; [done|].
  destruct (getitem g v) as [l|e]; simpl; [|done].
  rewrite is_k_sparse_count_nonpositive by done.
  by destruct (is_independent_nbrs s l).
Qed.

Lemma is_k_sparse_compl_count_nonpositive k g v xs :
  k ≤ 0 →
  is_k_sparse_compl_count k g v xs 0 =
  ok ← is_clique_inner g v xs; Ok (if ok : bool then Some 0 else None).
Proof.
  intros Hk. induction xs as [|x xs IH]; simpl; [done|].
  case_bool_decide; simpl; [|done].
  destruct (getitem g v) as [l|e]; simpl; [|done].
  case_bool_decide; simpl; [|done].
  by destruct (Z.gtb_spec (0 + 1) k); [|lia].
Qed.

Lemma is_k_sparse_compl_loop_nonpositive k g s vs :
  k ≤ 0 → is_k_sparse_compl_loop k g s vs = is_clique_loop g s vs.
Proof.
  intros Hk. induction vs as [|v vs IH]; simpl; [done|].
  rewrite is_k_sparse_compl_count_nonpositive by done.
  by destruct (is_clique_inner g v s) as [[]|e]; simpl.
Qed.

(** X4.  [make_k_sparse_func] and [make_k_sparse_compl_func] check
    nothing: for [k <= 0], negative [k] included, their predicates are
    [is_independent] and [is_clique], on every input. *)
Theorem k_sparse_nonpositive (k : Z) (g : graph) (s : list nat) :
  k ≤ 0 →
  is_k_sparse k g s = is_independent g s ∧
  is_k_sparse_compl k g s = is_clique g s.
Proof.
  intros Hk. split.
  - by apply is_k_sparse_loop_nonpositive.
  - by apply is_k_sparse_compl_loop_nonpositive.
Qed.

(** ** Complement graphs and induced subgraphs *)

Lemma complement_ok g : graph_ok g → graph_ok (complement g).
Proof.
  intros Hg u l Hl. rewrite complement_length.
  assert (∀ v, v ∈ l ↔ adj (complement g) u v) as Hadj
    by (intros v; by rewrite (adj_lookup _ _ _ _ Hl)).
  split.
  - rewrite complement_lookup in Hl.
    destruct (g !! u) as [l0|]; simplify_eq/=.
    apply NoDup_filter, NoDup_seq.
  - intros v Hv%Hadj. apply complement_adj in Hv as (Hu & Hv & Hne & Hnadj).
    split_and!; [done|done|]. apply complement_adj.
    split_and!; [done|done|by intros ->|].
    intros Hvu. apply Hnadj.
    by apply (graph_ok_adj g v u) in Hvu as (_ & _ & _ & ?).
Qed.

Lemma complement_embedding h g φ :
  embedding h g φ → embedding (complement h) (complement g) φ.
Proof.
  intros (Hrange & Hinj & Hadj). unfold embedding.
  rewrite !complement_length. split_and!; [done|done|].
  intros u v Hu Hv. rewrite !complement_adj, (Hadj u v) by done.
  split.
  - intros (_ & _ & Hne & Hnadj). split_and!; auto.
  - intros (_ & _ & Hne & Hnadj). split_and!; [done|done| |done].
    by intros ->.
Qed.

Lemma complement_vertex_subset g s :
  vertex_subset (complement g) s ↔ vertex_subset g s.
Proof. unfold vertex_subset. by rewrite complement_length. Qed.

Lemma hereditary_complement (f fc : pred) :
  (∀ g s, vertex_subset g s → fc g s = f (complement g) s) →
  induced_hereditary f → induced_hereditary fc.
Proof.
  intros Heq Hf h g φ s s' Hh Hg Hemb Hs Hs' Hperm.
  rewrite !Heq by done.
  apply (Hf _ _ φ); auto using complement_ok, complement_embedding.
  - by apply complement_vertex_subset.
  - by apply complement_vertex_subset.
Qed.

Lemma predicate_complement (f fc : pred) :
  (∀ g s, vertex_subset g s → fc g s = f (complement g) s) →
  is_predicate f → is_predicate fc.
Proof.
  intros Heq Hf g Hg s Hs. rewrite Heq by done.
  apply (Hf (complement g)); [by apply complement_ok|].
  by apply complement_vertex_subset.
Qed.

(** A predicate that decides a property preserved by embeddings is
    induced-hereditary. *)

Lemma induced_hereditary_by_spec (f : pred) (P : graph → list nat → Prop) :
  (∀ g s, graph_ok g → vertex_subset g s →
     ∃ b, f g s = Ok b ∧ (b = true ↔ P g s)) →
  (∀ h g φ s s', graph_ok h → graph_ok g → embedding h g φ →
     vertex_subset h s → vertex_subset g s' → s' ≡ₚ φ <$> s →
     P h s ↔ P g s') →
  induced_hereditary f.
Proof.
  intros Hspec HP h g φ s s' Hh Hg Hemb Hs Hs' Hperm.
  destruct (Hspec h s Hh Hs) as (b & -> & Hb).
  destruct (Hspec g s' Hg Hs') as (b' & -> & Hb').
  specialize (HP h g φ s s' Hh Hg Hemb Hs Hs' Hperm).
  split; intros [= ->]; f_equal; [apply Hb', HP, Hb|apply Hb, HP, Hb']; done.
Qed.

(** ** The k-sparse predicates are induced-hereditary *)

Lemma is_k_sparse_any k g s :
  graph_ok g → vertex_subset g s →
  ∃ b, is_k_sparse k g s = Ok b ∧
    (b = true ↔ ∀ v, v ∈ s → (1 ≤ induced_degree g s v)%nat →
                  Z.of_nat (induced_degree g s v) ≤ k).
Proof.
  intros Hg Hs. pose proof (vertex_subset_NoDup _ _ Hs) as Hnd.
  destruct Hs as [_ Hs].
  destruct (is_k_sparse_loop_spec k g s s Hs) as (b & Hb & Hfalse).
  exists b. split; [done|].
  rewrite Forall_forall in Hs. destruct b.
  - split; [intros _|done]. intros v Hv Hpos.
    destruct (lookup_lt_is_Some_2 g v (Hs v Hv)) as [l Hl].
    destruct (Z.le_gt_cases (Z.of_nat (induced_degree g s v)) k) as [|Hgt];
      [done|].
    assert (false = true) as [=]. symmetry. apply Hfalse. exists v, l.
    split_and!; [done|done|]. apply is_k_sparse_count_None. simpl.
    rewrite filter_swap_length by (done || by apply (Hg v l)).
    rewrite <-(induced_degree_lookup g s v l) by done. lia.
  - split; [done|]. intros Hdeg. exfalso.
    destruct Hfalse as [(v & l & Hv & Hl & Hc) _]; [done|].
    apply is_k_sparse_count_None in Hc. simpl in Hc.
    rewrite filter_swap_length in Hc by (done || by apply (Hg v l)).
    rewrite <-(induced_degree_lookup g s v l) in Hc by done.
    specialize (Hdeg v Hv). lia.
Qed.

Lemma filter_fmap_length (φ : nat → nat) (P Q : nat → Prop)
    `{!∀ x, Decision (P x)} `{!∀ x, Decision (Q x)} (s : list nat) :
  (∀ x, x ∈ s → P (φ x) ↔ Q x) →
  length (filter P (φ <$> s)) = length (filter Q s).
Proof.
  induction s as [|x s IH]; intros HPQ; [done|].
  rewrite fmap_cons, !filter_cons.
  assert (P (φ x) ↔ Q x) as Hx by (apply HPQ; left).
  assert (length (filter P (φ <$> s)) = length (filter Q s)) as IH'.
  { apply IH. intros y Hy. apply HPQ. by right. }
  destruct (decide (P (φ x))), (decide (Q x)); try tauto.
  by rewrite !length_cons, IH'.
Qed.

Lemma induced_degree_embedding h g φ s s' v :
  embedding h g φ → Forall (λ x, (x < length h)%nat) s → v ∈ s →
  s' ≡ₚ φ <$> s →
  induced_degree g s' (φ v) = induced_degree h s v.
Proof.
  intros (_ & _ & Hadj) Hs Hv Hperm. unfold induced_degree.
  rewrite Hperm. apply filter_fmap_length. intros x Hx.
  rewrite Forall_forall in Hs. symmetry. apply Hadj; auto.
Qed.

Lemma is_k_sparse_hereditary k : induced_hereditary (is_k_sparse k).
Proof.
  apply (induced_hereditary_by_spec _ (λ g s,
    ∀ v, v ∈ s → (1 ≤ induced_degree g s v)%nat →
      Z.of_nat (induced_degree g s v) ≤ k)).
  { intros g s. apply is_k_sparse_any. }
  intros h g φ s s' _ _ Hemb [_ Hs] _ Hperm. split.
  - intros H v' Hv'. rewrite Hperm in Hv'.
    apply list_elem_of_fmap in Hv' as (v & -> & Hv).
    rewrite (induced_degree_embedding h g φ s s' v) by done. by apply H.
  - intros H v Hv.
    rewrite <-(induced_degree_embedding h g φ s s' v) by done.
    apply H. rewrite Hperm. by apply list_elem_of_fmap_2.
Qed.

Lemma is_k_sparse_predicate k : is_predicate (is_k_sparse k).
Proof.
  intros g Hg s Hs. destruct (is_k_sparse_any k g s Hg Hs) as (b & ? & _).
  eauto.
Qed.

(** ** The k-divided predicates are induced-hereditary *)

Lemma connected_embedding h g φ s s' u v :
  embedding h g φ → Forall (λ x, (x < length h)%nat) s →
  s' ≡ₚ φ <$> s →
  connected h s u v → connected g s' (φ u) (φ v).
Proof.
  intros (_ & _ & Hadj) Hs Hperm. rewrite Forall_forall in Hs.
  induction 1 as [|x y z (Hx & Hy & Hxy) _ IH]; [done|].
  eapply rtc_l; [|done]. split_and!.
  - rewrite Hperm. by apply list_elem_of_fmap_2.
  - rewrite Hperm. by apply list_elem_of_fmap_2.
  - apply Hadj; auto.
Qed.

Lemma connected_embedding_inv h g φ s s' u w' :
  embedding h g φ → Forall (λ x, (x < length h)%nat) s →
  s' ≡ₚ φ <$> s → u ∈ s →
  connected g s' (φ u) w' →
  ∃ w, w ∈ s ∧ w' = φ w ∧ connected h s u w.
Proof.
  intros (_ & _ & Hadj) Hs Hperm Hu. rewrite Forall_forall in Hs.
  revert w'. apply rtc_ind_r; [by exists u|].
  intros y' z' _ (_ & Hz' & Hyz) (y & Hy & -> & Hc).
  rewrite Hperm in Hz'. apply list_elem_of_fmap in Hz' as (z & -> & Hz).
  exists z. split_and!; [done|done|].
  eapply rtc_r; [done|]. split_and!; [done|done|].
  apply Hadj; auto.
Qed.

Lemma preimage_list {A B} (φ : A → B) (Q : A → Prop) (c' : list B) :
  (∀ y, y ∈ c' → ∃ x, y = φ x ∧ Q x) →
  ∃ c, c' = φ <$> c ∧ Forall Q c.
Proof.
  induction c' as [|y c' IH]; intros H.
  - by exists [].
  - destruct (H y) as (x & -> & Hx); [left|].
    destruct IH as (c & -> & Hc); [intros; apply H; by right|].
    exists (x :: c). split; [done|]. by constructor.
Qed.

Lemma k_divided_embedding k h g φ s s' :
  embedding h g φ → Forall (λ x, (x < length h)%nat) s →
  NoDup s → s' ≡ₚ φ <$> s →
  k_divided h s k ↔ k_divided g s' k.
Proof.
  intros Hemb Hs Hnd Hperm. pose proof Hemb as (_ & Hinj & _).
  pose proof Hs as Hlt. rewrite Forall_forall in Hlt. split.
  - intros Hdiv v' c' Hv' Hc' Hconn.
    rewrite Hperm in Hv'. apply list_elem_of_fmap in Hv' as (v & -> & Hv).
    destruct (preimage_list φ (λ u, u ∈ s ∧ connected h s v u) c')
      as (c & -> & Hc).
    { intros u' Hu'.
      destruct (connected_embedding_inv h g φ s s' v u')
        as (u & ? & ? & ?); eauto. }
    rewrite length_fmap. rewrite Forall_forall in Hc.
    apply (Hdiv v); [done|by eapply NoDup_fmap_1|].
    intros u Hu. by apply Hc.
  - intros Hdiv v c Hv Hc Hconn.
    rewrite <-(length_fmap φ). apply (Hdiv (φ v)).
    + rewrite Hperm. by apply list_elem_of_fmap_2.
    + apply NoDup_fmap_2_strong; [|done]. intros x y Hx Hy.
      apply Hinj; apply Hlt; apply (connected_in h s v); auto.
    + intros u' (u & -> & Hu)%list_elem_of_fmap.
      by apply (connected_embedding h g φ s s'); auto.
Qed.

Lemma is_k_divided_hereditary k : 1 ≤ k → induced_hereditary (is_k_divided k).
Proof.
  intros Hk. apply (induced_hereditary_by_spec _ (λ g s, k_divided g s k)).
  { intros g s Hg [_ Hs]. by apply is_k_divided_spec. }
  intros h g φ s s' _ _ Hemb Hs _ Hperm.
  apply (k_divided_embedding k h g φ s s'); [done|by destruct Hs| |done].
  by eapply vertex_subset_NoDup.
Qed.

Lemma is_k_divided_predicate k : 1 ≤ k → is_predicate (is_k_divided k).
Proof.
  intros Hk g Hg s [_ Hs].
  destruct (is_k_divided_spec k g s Hk Hg Hs) as (b & ? & _). eauto.
Qed.

(** ** The predicates of the three modules are induced-hereditary *)

(** X5.  As their docstrings say, [is_independent] and [is_clique] are
    induced-hereditary predicates. *)
Theorem independent_clique_induced_hereditary :
  (is_predicate is_independent ∧ induced_hereditary is_independent) ∧
  (is_predicate is_clique ∧ induced_hereditary is_clique).
Proof.
  split; split.
  - intros g _. apply is_independent_returns.
  - apply is_independent_hereditary.
  - intros g _. apply is_clique_returns.
  - apply is_clique_hereditary.
Qed.

(** X6.  As the docstrings say, the functions returned by
    [make_k_sparse_func] and [make_k_sparse_compl_func] are
    induced-hereditary predicates, for every [k]. *)
Theorem k_sparse_funcs_induced_hereditary (k : Z) :
  ∃ f fc, make_k_sparse_func k = Ok f ∧ make_k_sparse_compl_func k = Ok fc ∧
    (is_predicate f ∧ induced_hereditary f) ∧
    (is_predicate fc ∧ induced_hereditary fc).
Proof.
  exists (is_k_sparse k), (is_k_sparse_compl k).
  pose proof (is_k_sparse_compl_eq k) as Heq.
  split_and!; [done|done|..].
  - apply is_k_sparse_predicate.
  - apply is_k_sparse_hereditary.
  - apply (predicate_complement (is_k_sparse k)); [done|].
    apply is_k_sparse_predicate.
  - apply (hereditary_complement (is_k_sparse k)); [done|].
    apply is_k_sparse_hereditary.
Qed.

(** X7.  As the docstrings say, for [k >= 1] the functions returned
    by [make_k_divided_func] and [make_k_divided_compl_func] are
    induced-hereditary predicates. *)
Theorem k_divided_funcs_induced_hereditary (k : Z) :
  1 ≤ k →
  ∃ f fc, make_k_divided_func k = Ok f ∧
    make_k_divided_compl_func k = Ok fc ∧
    (is_predicate f ∧ induced_hereditary f) ∧
    (is_predicate fc ∧ induced_hereditary fc).
Proof.
  intros Hk. exists (is_k_divided k), (is_k_divided_compl k).
  assert (∀ g s, vertex_subset g s →
            is_k_divided_compl k g s = is_k_divided k (complement g) s) as Heq
    by (intros; apply is_k_divided_compl_eq).
  unfold make_k_divided_func, make_k_divided_compl_func.
  destruct (Z.geb_spec k 1); [simpl|lia].
  split_and!; [done|done|..].
  - by apply is_k_divided_predicate.
  - by apply is_k_divided_hereditary.
  - apply (predicate_complement (is_k_divided k)); [done|].
    by apply is_k_divided_predicate.
  - apply (hereditary_complement (is_k_divided k)); [done|].
    by apply is_k_divided_hereditary.
Qed.

Lemma k_divided_funcs_induced_hereditary_witness :
  1 ≤ 2 ∧
  ∃ f fc, make_k_divided_func 2 = Ok f ∧
    make_k_divided_compl_func 2 = Ok fc ∧
    (is_predicate f ∧ induced_hereditary f) ∧
    (is_predicate fc ∧ induced_hereditary fc).
Proof.
  split; [lia|]. apply (k_divided_funcs_induced_hereditary 2). lia.
Defined.

(** Ramsey's theorem, on sets of vertices given as duplicate-free
    lists. *)
Lemma ramsey (a b : nat) :
  ∃ N : nat, ∀ (g : graph) (V : list nat),
    (∀ u v, adj g u v → adj g v u) → (∀ v, ¬ adj g v v) →
    NoDup V → (N ≤ length V)%nat →
    (∃ S, S ⊆ V ∧ NoDup S ∧ length S = a ∧ independent g S) ∨
    (∃ S, S ⊆ V ∧ NoDup S ∧ length S = b ∧ clique g S).
Proof.
  revert b. induction a as [|a IHa]; intros b.
  { exists O. intros g V _ _ _ _. left. exists [].
    split_and!; [by intros x ?%elem_of_nil|constructor|done|].
    by intros u v ?%elem_of_nil. }
  induction b as [|b IHb].
  { exists O. intros g V _ _ _ _. right. exists [].
    split_and!; [by intros x ?%elem_of_nil|constructor|done|].
    by intros u v ?%elem_of_nil. }
  destruct (IHa (S b)) as [N1 HN1]. destruct IHb as [N2 HN2].
  exists (S (N1 + N2)). intros g V Hsym Hloop Hnd Hlen.
  destruct V as [|v V]; [simpl in Hlen; lia|].
  apply NoDup_cons in Hnd as [Hv Hnd]. simpl in Hlen.
  set (A := filter (adj g v) V). set (B := filter (λ x, ¬ adj g v x) V).
  assert (length A + length B = length V)%nat as Hsum.
  { unfold A, B. by rewrite <-length_app, filter_app_complement. }
  assert (A ⊆ V) as HA by (intros x [_ ?]%list_elem_of_filter; done).
  assert (B ⊆ V) as HB by (intros x [_ ?]%list_elem_of_filter; done).
  destruct (decide (N1 ≤ length B)%nat) as [HlenB|HlenB].
  - destruct (HN1 g B Hsym Hloop) as
      [(S & HS & HSnd & HSlen & Hind)|(S & HS & HSnd & HSlen & Hcl)];
      [by apply NoDup_filter|done|left|right].
    + exists (v :: S). split_and!.
      * intros x [->|Hx]%elem_of_cons; [left|right; auto].
      * constructor; [|done]. intros Hin. apply Hv. auto.
      * simpl. by rewrite HSlen.
      * assert (∀ x, x ∈ S → ¬ adj g v x) as Hvx.
        { intros x Hx%HS. by apply list_elem_of_filter in Hx as [? _]. }
        intros u w [->|Hu]%elem_of_cons [->|Hw]%elem_of_cons; auto.
        intros ?%Hsym. by apply (Hvx u).
    + exists S. split_and!; [|done..]. intros x Hx. right. auto.
  - destruct (HN2 g A Hsym Hloop) as
      [(S & HS & HSnd & HSlen & Hind)|(S & HS & HSnd & HSlen & Hcl)];
      [by apply NoDup_filter|lia|left|right].
    + exists S. split_and!; [|done..]. intros x Hx. right. auto.
    + exists (v :: S). split_and!.
      * intros x [->|Hx]%elem_of_cons; [left|right; auto].
      * constructor; [|done]. intros Hin. apply Hv. auto.
      * simpl. by rewrite HSlen.
      * assert (∀ x, x ∈ S → adj g v x) as Hvx.
        { intros x Hx%HS. by apply list_elem_of_filter in Hx as [? _]. }
        intros u w [->|Hu]%elem_of_cons [->|Hw]%elem_of_cons Hne; auto.
        done.
Qed.

(** The same for the sorted vertex subsets of a graph. *)
Lemma ramsey_graph (a b : nat) :
  ∃ N : nat, ∀ g : graph, graph_ok g → (N ≤ length g)%nat →
    (∃ s, vertex_subset g s ∧ length s = a ∧ independent g s) ∨
    (∃ s, vertex_subset g s ∧ length s = b ∧ clique g s).
Proof.
  destruct (ramsey a b) as [N HN]. exists N. intros g Hg Hlen.
  assert (∀ S, S ⊆ xrange (length g) → NoDup S →
    ∃ s, vertex_subset g s ∧ s ≡ₚ S) as Hsort.
  { intros S HS HSnd.
    destruct (sorted_image id S (length g)) as (s & Hs & Hperm).
    - by rewrite list_fmap_id.
    - apply Forall_forall. intros x Hx%HS. by apply elem_of_xrange in Hx.
    - exists s. split; [by apply vertex_subset_sublist|].
      by rewrite list_fmap_id in Hperm. }
  destruct (HN g (xrange (length g))) as
    [(S & HS & HSnd & HSlen & HP)|(S & HS & HSnd & HSlen & HP)].
  - intros u v Hadj. by apply (graph_ok_adj g u v) in Hadj as (_ & _ & _ & ?).
  - intros v Hadj. by apply (graph_ok_adj g v v) in Hadj as (_ & _ & ? & _).
  - apply NoDup_seq.
  - unfold xrange. by rewrite length_seq.
  - left. destruct (Hsort S HS HSnd) as (s & Hs & Hperm). exists s.
    split_and!; [done|by rewrite Hperm|].
    intros u v. rewrite !Hperm. apply HP.
  - right. destruct (Hsort S HS HSnd) as (s & Hs & Hperm). exists s.
    split_and!; [done|by rewrite Hperm|].
    intros u v. rewrite !Hperm. apply HP.
Qed.

Lemma counterexample_semantic (f fc : pred) (P : graph → list nat → Prop)
    a b g :
  (∀ g s, graph_ok g → vertex_subset g s →
     ∃ r, f g s = Ok r ∧ (r = true ↔ P g s)) →
  (∀ g s, vertex_subset g s → fc g s = f (complement g) s) →
  counterexample f fc a b g ↔ ramsey_counterexample P a b g.
Proof.
  intros Hspec Heq. unfold counterexample, ramsey_counterexample, no_fset.
  split; intros (Hg & H1 & H2); (split_and!; [done|..]).
  - intros s Hs Hl HP. apply (H1 s Hs Hl).
    destruct (Hspec g s Hg Hs) as (r & -> & Hr). f_equal. by apply Hr.
  - intros s Hs Hl HP. apply (H2 s Hs Hl). rewrite Heq by done.
    destruct (Hspec (complement g) s) as (r & -> & Hr);
      [by apply complement_ok|by apply complement_vertex_subset|].
    f_equal. by apply Hr.
  - intros s Hs Hl Hf. apply (H1 s Hs Hl).
    destruct (Hspec g s Hg Hs) as (r & Hfr & Hr). apply Hr. congruence.
  - intros s Hs Hl Hf. apply (H2 s Hs Hl). rewrite Heq in Hf by done.
    destruct (Hspec (complement g) s) as (r & Hfr & Hr);
      [by apply complement_ok|by apply complement_vertex_subset|].
    apply Hr. congruence.
Qed.

Lemma representatives_ext (P Q : graph → Prop) gs :
  (∀ g, P g ↔ Q g) → representatives P gs → representatives Q gs.
Proof.
  intros HPQ (Hsound & Hcover & Huniq). split_and!; [| |done].
  - intros g Hg. by apply HPQ, Hsound.
  - intros g Hg%HPQ. by apply Hcover.
Qed.

Lemma extremals_loop_fuel powerset unique_iso f1 f2 b1 b2 fuel fuel' n gs r :
  extremals_loop powerset unique_iso f1 f2 b1 b2 fuel n gs = Some r →
  (fuel ≤ fuel')%nat →
  extremals_loop powerset unique_iso f1 f2 b1 b2 fuel' n gs = Some r.
Proof.
  revert fuel' n gs. induction fuel as [|fuel IH]; intros fuel' n gs; [done|].
  destruct fuel' as [|fuel']; [lia|]. simpl.
  destruct (_counterexamples_up _ _ _ _ _ _ _ _) as [new|e]; [|done].
  case_decide; [done|]. intros Hr Hle. apply IH; [done|lia].
Qed.

Lemma extremals_fuel graphs powerset unique_iso f1 f2 b1 b2 fuel fuel' r :
  extremals graphs powerset unique_iso f1 f2 b1 b2 fuel = Some r →
  (fuel ≤ fuel')%nat →
  extremals graphs powerset unique_iso f1 f2 b1 b2 fuel' = Some r.
Proof.
  unfold extremals. destruct (_counterexamples_zero _ _ _ _ _); [|done].
  case_decide; [done|]. apply extremals_loop_fuel.
Qed.

Lemma independent_k_sparse g s k :
  0 ≤ k → independent g s → k_sparse g s k.
Proof.
  intros Hk Hind v Hv. unfold induced_degree.
  destruct (filter (adj g v) s) as [|x l] eqn:Hf; [simpl; lia|].
  assert (x ∈ filter (adj g v) s) as [Hadj Hx]%list_elem_of_filter
    by (rewrite Hf; left).
  by destruct (Hind v x).
Qed.

Lemma independent_k_divided g s k :
  1 ≤ k → independent g s → k_divided g s k.
Proof.
  intros Hk Hind v c Hv Hc Hconn.
  assert (c ⊆+ [v]) as Hsub%submseteq_length; [|simpl in Hsub; lia].
  apply NoDup_submseteq; [done|]. intros u Hu%Hconn.
  apply rtc_inv in Hu as [->|(y & (_ & Hy & Hadj) & _)]; [left|].
  by destruct (Hind v y).
Qed.

Lemma clique_independent_complement g s :
  clique g s → independent (complement g) s.
Proof.
  intros Hcl u v Hu Hv (_ & _ & Hne & Hnadj)%complement_adj.
  by apply Hnadj, Hcl.
Qed.

Lemma ramsey_no_counterexample (P : graph → list nat → Prop) (a b : Z) :
  (∀ g s, graph_ok g → vertex_subset g s → independent g s → P g s) →
  0 ≤ a → 0 ≤ b →
  ∃ N : nat, ¬ ∃ g, ramsey_counterexample P a b g ∧ length g = N.
Proof.
  intros HP Ha Hb. destruct (ramsey_graph (Z.to_nat a) (Z.to_nat b)) as [N HN].
  exists N. intros (g & (Hg & H1 & H2) & Hlen).
  destruct (HN g Hg) as [(s & Hs & Hl & Hind)|(s & Hs & Hl & Hcl)]; [lia|..].
  - apply (H1 s Hs); [lia|]. by apply HP.
  - apply (H2 s Hs); [lia|]. apply HP.
    + by apply complement_ok.
    + by apply complement_vertex_subset.
    + by apply clique_independent_complement.
Qed.

(** The search, run on a predicate for a property [P] of vertex sets
    and on the same predicate on the complement graph, returns whenever
    independent sets have the property. *)
Lemma ramsey_search_total graphs powerset unique_iso (f fc : pred)
    (P : graph → list nat → Prop) (a b : Z) :
  graphs O = [[]] →
  (∀ n s, s ∈ powerset (xrange n) ↔ s `sublist_of` xrange n) →
  (∀ l g, g ∈ unique_iso l → g ∈ l) →
  (∀ l g, g ∈ l → ∃ g', g' ∈ unique_iso l ∧ isomorphic g g') →
  (∀ l i j g1 g2, unique_iso l !! i = Some g1 → unique_iso l !! j = Some g2 →
     isomorphic g1 g2 → i = j) →
  (∀ g s, graph_ok g → vertex_subset g s →
     ∃ r, f g s = Ok r ∧ (r = true ↔ P g s)) →
  (∀ g s, vertex_subset g s → fc g s = f (complement g) s) →
  induced_hereditary f →
  (∀ g s, graph_ok g → vertex_subset g s → independent g s → P g s) →
  0 ≤ a → 0 ≤ b →
  ∃ (fuel0 n : nat) (gs : list graph),
    (∀ fuel, (fuel0 ≤ fuel)%nat →
       extremals graphs powerset unique_iso f fc a b fuel
       = Some (Ok (n, gs))) ∧
    (∀ j, (j < n)%nat → ∃ g, ramsey_counterexample P a b g ∧ length g = j) ∧
    (¬ ∃ g, ramsey_counterexample P a b g ∧ length g = n) ∧
    (n = O → gs = []) ∧
    ((1 ≤ n)%nat →
       representatives
         (λ g, ramsey_counterexample P a b g ∧ length g = (n - 1)%nat) gs).
Proof.
  intros Hzero Hpow Hsub Hcover Huniq Hspec Heq Hher Hind Ha Hb.
  assert (is_predicate f) as Hp.
  { intros g Hg s Hs. destruct (Hspec g s Hg Hs) as (r & ? & _). eauto. }
  pose proof (predicate_complement f fc Heq Hp) as Hpc.
  pose proof (hereditary_complement f fc Heq Hher) as Hherc.
  assert (∀ g, counterexample f fc a b g ↔ ramsey_counterexample P a b g)
    as HCE by (intros; by apply counterexample_semantic).
  assert (∀ m g, counterexample f fc a b g ∧ length g = m ↔
                 ramsey_counterexample P a b g ∧ length g = m) as HCE'
    by (intros; by rewrite HCE).
  destruct (ramsey_no_counterexample P a b Hind Ha Hb) as [N HN].
  destruct (extremals_total graphs powerset unique_iso Hzero Hpow Hsub
              Hcover Huniq f fc a b Hp Hpc Hher Hherc N) as [r Hr].
  { intros (g & Hg). apply HN. exists g. by apply HCE'. }
  pose proof (extremals_partial graphs powerset unique_iso Hzero Hpow Hsub
                Hcover Huniq f fc a b Hp Hpc Hher Hherc N r Hr) as
    [[-> Hnone]|(n & gs & -> & Hupto & Hnone & Hlev)].
  - exists N, O, []. split_and!; [|lia| |done|lia].
    + intros fuel Hfuel. by eapply extremals_fuel.
    + intros (g & Hg). apply Hnone. exists g. by apply HCE'.
  - exists N, (S n), gs. split_and!; [| | |done|].
    + intros fuel Hfuel. by eapply extremals_fuel.
    + intros j Hj. destruct (Hupto j) as (g & Hg); [lia|].
      exists g. by apply HCE'.
    + intros (g & Hg). apply Hnone. exists g. by apply HCE'.
    + intros _. rewrite Nat.sub_succ, Nat.sub_0_r.
      by apply (representatives_ext _ _ gs (HCE' n)).
Qed.

(** X8.  [sparseramsey.find_extremals] always returns.  With
    collaborators that meet their contracts and [k, a, b >= 0], there
    are a number of iterations and a pair [(n, gs)] that every longer
    run returns, where [n] is the least order with no counterexample
    graph (a graph with no k-sparse set of [a] vertices whose complement
    has no k-sparse set of [b] vertices) and [gs] holds one graph of
    each isomorphism class of the counterexample graphs of order
    [n-1]. *)
Theorem sparse_find_extremals_total (graphs : nat → list graph)
    (powerset : list nat → list (list nat))
    (unique_iso : list graph → list graph) (k a b : Z) :
  graphs O = [[]] →
  (∀ n s, s ∈ powerset (xrange n) ↔ s `sublist_of` xrange n) →
  (∀ l g, g ∈ unique_iso l → g ∈ l) →
  (∀ l g, g ∈ l → ∃ g', g' ∈ unique_iso l ∧ isomorphic g g') →
  (∀ l i j g1 g2, unique_iso l !! i = Some g1 → unique_iso l !! j = Some g2 →
     isomorphic g1 g2 → i = j) →
  0 ≤ k → 0 ≤ a → 0 ≤ b →
  let CE := ramsey_counterexample (λ g s, k_sparse g s k) a b in
  ∃ (fuel0 n : nat) (gs : list graph),
    (∀ fuel, (fuel0 ≤ fuel)%nat →
       sparseramsey.find_extremals graphs powerset unique_iso k a b fuel
       = Some (Ok (n, gs))) ∧
    (∀ j, (j < n)%nat → ∃ g, CE g ∧ length g = j) ∧
    (¬ ∃ g, CE g ∧ length g = n) ∧
    (n = O → gs = []) ∧
    ((1 ≤ n)%nat →
       representatives (λ g, CE g ∧ length g = (n - 1)%nat) gs).
Proof.
  intros Hzero Hpow Hsub Hcover Huniq Hk Ha Hb CE.
  unfold sparseramsey.find_extremals, make_k_sparse_func,
    make_k_sparse_compl_func.
  destruct (Z.geb_spec k 0); [simpl|lia].
  destruct (Z.geb_spec a 0); [simpl|lia].
  destruct (Z.geb_spec b 0); [simpl|lia].
  apply ramsey_search_total; try done.
  - intros g s. by apply is_k_sparse_true.
  - apply is_k_sparse_compl_eq.
  - apply is_k_sparse_hereditary.
  - intros g s _ _. by apply independent_k_sparse.
Qed.

(** X9.  [dividedramsey.find_extremals] always returns: the same for
    [k >= 1] and k-divided sets. *)
Theorem divided_find_extremals_total (graphs : nat → list graph)
    (powerset : list nat → list (list nat))
    (unique_iso : list graph → list graph) (k a b : Z) :
  graphs O = [[]] →
  (∀ n s, s ∈ powerset (xrange n) ↔ s `sublist_of` xrange n) →
  (∀ l g, g ∈ unique_iso l → g ∈ l) →
  (∀ l g, g ∈ l → ∃ g', g' ∈ unique_iso l ∧ isomorphic g g') →
  (∀ l i j g1 g2, unique_iso l !! i = Some g1 → unique_iso l !! j = Some g2 →
     isomorphic g1 g2 → i = j) →
  1 ≤ k → 0 ≤ a → 0 ≤ b →
  let CE := ramsey_counterexample (λ g s, k_divided g s k) a b in
  ∃ (fuel0 n : nat) (gs : list graph),
    (∀ fuel, (fuel0 ≤ fuel)%nat →
       dividedramsey.find_extremals graphs powerset unique_iso k a b fuel
       = Some (Ok (n, gs))) ∧
    (∀ j, (j < n)%nat → ∃ g, CE g ∧ length g = j) ∧
    (¬ ∃ g, CE g ∧ length g = n) ∧
    (n = O → gs = []) ∧
    ((1 ≤ n)%nat →
       representatives (λ g, CE g ∧ length g = (n - 1)%nat) gs).
Proof.
  intros Hzero Hpow Hsub Hcover Huniq Hk Ha Hb CE.
  unfold dividedramsey.find_extremals, make_k_divided_func,
    make_k_divided_compl_func.
  destruct (Z.geb_spec k 1); [simpl|lia].
  destruct (Z.geb_spec a 0); [simpl|lia].
  destruct (Z.geb_spec b 0); [simpl|lia].
  apply ramsey_search_total; try done.
  - intros g s Hg [_ Hs]. by apply is_k_divided_spec.
  - intros g s _. apply is_k_divided_compl_eq.
  - by apply is_k_divided_hereditary.
  - intros g s _ _. by apply independent_k_divided.
Qed.

Lemma sparse_find_extremals_total_witness :
  0 ≤ 0 ∧ 0 ≤ 3 ∧ 0 ≤ 3 ∧
  ∃ (fuel0 n : nat) (gs : list graph),
    (∀ fuel, (fuel0 ≤ fuel)%nat →
       sparseramsey.find_extremals isograph.graphs isograph.powerset
         isograph.unique_iso 0 3 3 fuel = Some (Ok (n, gs))) ∧
    (∀ j, (j < n)%nat →
       ∃ g, ramsey_counterexample (λ g s, k_sparse g s 0) 3 3 g ∧
            length g = j) ∧
    (¬ ∃ g, ramsey_counterexample (λ g s, k_sparse g s 0) 3 3 g ∧
            length g = n) ∧
    (n = O → gs = []) ∧
    ((1 ≤ n)%nat →
       representatives
         (λ g, ramsey_counterexample (λ g s, k_sparse g s 0) 3 3 g ∧
               length g = (n - 1)%nat) gs).
Proof.
  split_and!; [lia..|].
  apply (sparse_find_extremals_total isograph.graphs isograph.powerset
           isograph.unique_iso 0 3 3).
  - reflexivity.
  - intros n s. apply powerset_model_spec.
  - apply unique_iso_model_sub.
  - apply unique_iso_model_cover.
  - apply unique_iso_model_unique.
  - lia.
  - lia.
  - lia.
Defined.

(** ** The component search and vertices out of range *)

Section divided_safe.
Context (skip : nat → list nat → bool) (k : Z) (g : graph).







End divided_safe.


(** ** The graphs built by the engine *)

Lemma candidate_sorted oldg vset g :
  vset `sublist_of` xrange (length oldg) →
  candidate oldg (S (length oldg)) vset = Ok g →
  graph_ok oldg → sorted_lists oldg → sorted_lists g.
Proof.
  intros Hvset Hg Hold Hsorted u l.
  rewrite (candidate_lookup_eq oldg vset Hvset g Hg u).
  destruct (decide (u < length oldg)%nat) as [Hu|Hu].
  - destruct (oldg !! u) as [l0|] eqn:Hl0; simpl; [|done].
    intros [= <-]. pose proof (Hsorted u l0 Hl0) as Hs0.
    case_decide; [|done].
    apply StronglySorted_app_2; [|done|repeat constructor].
    intros x y Hx ->%list_elem_of_singleton.
    by destruct (Hold u l0 Hl0) as [_ Hall]; destruct (Hall x Hx).
  - case_decide; [|done]. intros [= <-].
    by apply sublist_seq in Hvset as [? _].
Qed.

Section engine_graphs.
Context (graphs : nat → list graph).
Context (powerset : list nat → list (list nat)).
Context (unique_iso : list graph → list graph).
Context (graphs_zero : graphs O = [[]]).
Context (powerset_sub :
  ∀ n s, s ∈ powerset (xrange n) → s `sublist_of` xrange n).
Context (unique_iso_sub : ∀ l g, g ∈ unique_iso l → g ∈ l).

Local Abbreviation wf m g := (graph_ok g ∧ sorted_lists g ∧ length g = m).

Section one_run.
Context (f1 f2 : pred) (b1 b2 : Z).

Lemma counterexamples_zero_wf gs :
  _counterexamples_zero graphs f1 f2 b1 b2 = Ok gs →
  ∀ g, g ∈ gs → wf O g.
Proof.
  unfold _counterexamples_zero. rewrite graphs_zero. intros Hgs g Hg.
  apply (counterexamples_zero_loop_elem _ _ _ _ _ _ _ Hgs) in Hg
    as [->%list_elem_of_singleton _].
  split_and!; [apply graph_ok_nil| |done]. by intros u l ?.
Qed.

Lemma counterexamples_up_wf m old gs :
  (∀ g, g ∈ old → wf m g) →
  _counterexamples_up powerset unique_iso f1 f2 b1 b2 (S m) old = Ok gs →
  ∀ g, g ∈ gs → wf (S m) g.
Proof.
  intros Hold (l & Hl & [= <-])%bind_Ok g Hg%unique_iso_sub.
  apply (counterexamples_up_big_list_elem _ _ _ _ _ _ _ _ _ Hl) in Hg
    as (oldg & vset & Hin & Hvset%powerset_sub & Hc & _).
  destruct (Hold oldg Hin) as (Hok & Hsorted & <-).
  rewrite Nat.sub_succ, Nat.sub_0_r in Hvset. split_and!.
  - by apply (candidate_ok oldg vset Hvset g).
  - by apply (candidate_sorted oldg vset g).
  - by apply (candidate_length_eq oldg vset Hvset g).
Qed.

Lemma extremals_loop_wf fuel m gs n gs' :
  (∀ g, g ∈ gs → wf m g) →
  extremals_loop powerset unique_iso f1 f2 b1 b2 fuel (S m) gs
    = Some (Ok (n, gs')) →
  ∀ g, g ∈ gs' → wf (n - 1)%nat g.
Proof.
  revert m gs. induction fuel as [|fuel IH]; intros m gs Hgs; simpl; [done|].
  destruct (_counterexamples_up _ _ _ _ _ _ _ _) as [new|e] eqn:Hup; [|done].
  case_decide.
  - intros [= <- <-]. by rewrite Nat.sub_succ, Nat.sub_0_r.
  - apply IH. by apply (counterexamples_up_wf m gs).
Qed.
End one_run.

(** Two runs on predicates that agree on the vertex subsets of graphs. *)
Section two_runs.
Context (f1 f1' f2 f2' : pred) (b1 b2 : Z).
Context (agree1 : ∀ g s, graph_ok g → vertex_subset g s → f1 g s = f1' g s).
Context (agree2 : ∀ g s, graph_ok g → vertex_subset g s → f2 g s = f2' g s).

Lemma any_fset_ext f f' g ss :
  (∀ s, s ∈ ss → f g s = f' g s) → any_fset f g ss = any_fset f' g ss.
Proof.
  induction ss as [|s ss IH]; intros Hss; simpl; [done|].
  rewrite <-(Hss s) by left. destruct (f g s) as [[]|]; simpl; [done| |done].
  apply IH. intros; apply Hss; by right.
Qed.

Lemma has_fset_ext f f' b g :
  (∀ s, vertex_subset g s → f g s = f' g s) →
  has_fset f b g = has_fset f' b g.
Proof.
  intros Hf. unfold has_fset. destruct (b <? 0); [done|].
  destruct (b >? _); [done|]. apply any_fset_ext.
  intros s [Hs _]%elem_of_combinations_xrange. by apply Hf.
Qed.

Lemma has_fset_with_last_ext f f' b g :
  (∀ s, vertex_subset g s → f g s = f' g s) →
  has_fset_with_last f b g = has_fset_with_last f' b g.
Proof.
  intros Hf. unfold has_fset_with_last.
  destruct (Z.ltb_spec b 1); [done|].
  destruct (Z.gtb_spec b (Z.of_nat (length g))); [done|].
  rewrite !any_fset_with_fmap. apply any_fset_ext.
  intros s (ss & -> & [Hss _]%elem_of_combinations)%list_elem_of_fmap.
  apply Hf. apply vertex_subset_snoc; [lia|done].
Qed.

Lemma neither_ext g :
  graph_ok g →
  neither has_fset f1 f2 b1 b2 g = neither has_fset f1' f2' b1 b2 g ∧
  neither has_fset_with_last f1 f2 b1 b2 g
  = neither has_fset_with_last f1' f2' b1 b2 g.
Proof.
  intros Hg. unfold neither.
  rewrite (has_fset_ext f1 f1'), (has_fset_ext f2 f2'),
    (has_fset_with_last_ext f1 f1'), (has_fset_with_last_ext f2 f2');
    auto.
Qed.

Lemma extensions_ext oldg vsets :
  graph_ok oldg →
  (∀ vset, vset ∈ vsets → vset `sublist_of` xrange (length oldg)) →
  extensions f1 f2 (S (length oldg)) b1 b2 oldg vsets
  = extensions f1' f2' (S (length oldg)) b1 b2 oldg vsets.
Proof.
  intros Hold. induction vsets as [|vset vsets IH]; intros Hvs; simpl; [done|].
  destruct (candidate oldg _ vset) as [g|e] eqn:Hg; simpl; [|done].
  assert (graph_ok g) as Hgok.
  { apply (candidate_ok oldg vset); [apply Hvs; left|done..]. }
  destruct (neither_ext g Hgok) as [_ ->].
  rewrite IH; [done|]. intros; apply Hvs; by right.
Qed.

Lemma counterexamples_up_ext m old :
  (∀ g, g ∈ old → graph_ok g ∧ length g = m) →
  _counterexamples_up powerset unique_iso f1 f2 b1 b2 (S m) old
  = _counterexamples_up powerset unique_iso f1' f2' b1 b2 (S m) old.
Proof.
  intros Hold. unfold _counterexamples_up. f_equal.
  induction old as [|oldg old IH]; simpl; [done|].
  destruct (Hold oldg) as [Hok <-]; [left|].
  rewrite Nat.sub_0_r, extensions_ext by auto.
  rewrite IH; [done|]. intros; apply Hold; by right.
Qed.

Lemma extremals_loop_ext fuel m gs :
  (∀ g, g ∈ gs → wf m g) →
  extremals_loop powerset unique_iso f1 f2 b1 b2 fuel (S m) gs
  = extremals_loop powerset unique_iso f1' f2' b1 b2 fuel (S m) gs.
Proof.
  revert m gs. induction fuel as [|fuel IH]; intros m gs Hgs; simpl; [done|].
  rewrite <-counterexamples_up_ext by (intros g Hg; by destruct (Hgs g Hg) as (? & _ & ?)).
  destruct (_counterexamples_up _ _ _ _ _ _ _ _) as [new|e] eqn:Hup; [|done].
  case_decide; [done|]. apply IH.
  by apply (counterexamples_up_wf f1 f2 b1 b2 m gs).
Qed.

Lemma extremals_ext fuel :
  extremals graphs powerset unique_iso f1 f2 b1 b2 fuel
  = extremals graphs powerset unique_iso f1' f2' b1 b2 fuel.
Proof.
  unfold extremals.
  assert (_counterexamples_zero graphs f1 f2 b1 b2
          = _counterexamples_zero graphs f1' f2' b1 b2) as <-.
  { unfold _counterexamples_zero. rewrite graphs_zero. simpl.
    by destruct (neither_ext [] graph_ok_nil) as [-> _]. }
  destruct (_counterexamples_zero _ _ _ _ _) as [gs|e] eqn:Hz; [|done].
  case_decide; [done|]. apply extremals_loop_ext.
  by apply (counterexamples_zero_wf f1 f2 b1 b2).
Qed.
End two_runs.
End engine_graphs.

(** X11.  Whatever the predicates, the graphs returned by [extremals]
    are well formed: symmetric adjacency lists without duplicates or
    loops, in ascending order, on [n-1] vertices. *)
Theorem extremals_graphs_well_formed (graphs : nat → list graph)
    (powerset : list nat → list (list nat))
    (unique_iso : list graph → list graph)
    (f1 f2 : pred) (b1 b2 : Z) (fuel n : nat) (gs : list graph) :
  graphs O = [[]] →
  (∀ n s, s ∈ powerset (xrange n) → s `sublist_of` xrange n) →
  (∀ l g, g ∈ unique_iso l → g ∈ l) →
  extremals graphs powerset unique_iso f1 f2 b1 b2 fuel = Some (Ok (n, gs)) →
  ∀ g, g ∈ gs → graph_ok g ∧ sorted_lists g ∧ S (length g) = n.
Proof.
  intros Hzero Hpow Hsub Hret g Hg.
  destruct (extremals_order graphs powerset unique_iso) with
    (f1 := f1) (f2 := f2) (b1 := b1) (b2 := b2) (fuel := fuel) (n := n)
    (gs := gs) as [[_ ->]|(Hn & _ & _)]; [|done..| |].
  { rewrite Hzero. by intros g0 ->%list_elem_of_singleton. }
  { by apply elem_of_nil in Hg. }
  revert Hret. unfold extremals.
  destruct (_counterexamples_zero _ _ _ _ _) as [l|e] eqn:Hz; [|done].
  case_decide; [intros [= <- <-]; lia|]. intros Hloop.
  destruct (extremals_loop_wf powerset unique_iso Hpow Hsub f1 f2 b1 b2
              fuel O l n gs) with (g := g) as (? & ? & ?); [|done..|].
  { by apply (counterexamples_zero_wf graphs Hzero f1 f2 b1 b2). }
  split_and!; [done|done|lia].
Qed.

Lemma k_divided_one g s :
  graph_ok g → k_divided g s 1 ↔ independent g s.
Proof.
  intros Hg. split; [|by apply independent_k_divided].
  intros Hdiv u v Hu Hv Hadj.
  pose proof (graph_ok_adj g u v Hg Hadj) as (_ & _ & Hne & _).
  assert (Z.of_nat (length [u; v]) ≤ 1) as Hle; [|simpl in Hle; lia].
  apply (Hdiv u); [done| |].
  - apply NoDup_cons. split; [|apply NoDup_singleton].
    by intros ->%list_elem_of_singleton.
  - intros w [->| ->%list_elem_of_singleton]%elem_of_cons; [done|].
    by apply rtc_once.
Qed.

Lemma is_k_divided_one g s :
  graph_ok g → Forall (λ v, (v < length g)%nat) s →
  is_k_divided 1 g s = is_independent g s.
Proof.
  intros Hg Hs.
  destruct (is_k_divided_spec 1 g s) as (b & Hb & Hiff); [lia|done..|].
  destruct (is_independent_spec g s Hs) as (b' & Hb' & Hiff').
  apply (result_bool_ext _ _ b b'); [done..|].
  by rewrite Hiff, Hiff', k_divided_one.
Qed.

Lemma is_k_divided_compl_one g s :
  graph_ok g → Forall (λ v, (v < length g)%nat) s →
  is_k_divided_compl 1 g s = is_clique g s.
Proof.
  intros Hg Hs. rewrite is_k_divided_compl_eq, is_k_divided_one.
  - symmetry. by apply is_clique_complement.
  - by apply complement_ok.
  - by rewrite complement_length.
Qed.

(** X12.  On the vertex subsets of a graph, the 1-divided sets are the
    independent sets and the 0-sparse sets: the predicates return the
    same. *)
Theorem one_divided_is_independent (g : graph) (s : list nat) :
  graph_ok g → Forall (λ v, (v < length g)%nat) s →
  is_k_divided 1 g s = is_independent g s ∧
  is_k_divided_compl 1 g s = is_clique g s ∧
  is_k_divided 1 g s = is_k_sparse 0 g s ∧
  is_k_divided_compl 1 g s = is_k_sparse_compl 0 g s.
Proof.
  intros Hg Hs.
  pose proof (is_k_divided_one g s Hg Hs) as H1.
  pose proof (is_k_divided_compl_one g s Hg Hs) as H2.
  split_and!; [done|done| |].
  - rewrite H1. symmetry. by apply is_k_sparse_loop_nonpositive.
  - rewrite H2. symmetry. by apply is_k_sparse_compl_loop_nonpositive.
Qed.

(** X13.  [sparseramsey.find_extremals(0, a, b)] and
    [dividedramsey.find_extremals(1, a, b)] return the same for every
    [a] and [b] and every number of iterations, namely what [extremals]
    returns on [is_independent] and [is_clique]. *)
Theorem classical_ramsey_searches_agree (graphs : nat → list graph)
    (powerset : list nat → list (list nat))
    (unique_iso : list graph → list graph) (a b : Z) (fuel : nat) :
  graphs O = [[]] →
  (∀ n s, s ∈ powerset (xrange n) → s `sublist_of` xrange n) →
  (∀ l g, g ∈ unique_iso l → g ∈ l) →
  sparseramsey.find_extremals graphs powerset unique_iso 0 a b fuel
  = dividedramsey.find_extremals graphs powerset unique_iso 1 a b fuel ∧
  (0 ≤ a → 0 ≤ b →
   sparseramsey.find_extremals graphs powerset unique_iso 0 a b fuel
   = extremals graphs powerset unique_iso is_independent is_clique a b fuel).
Proof.
  intros Hzero Hpow Hsub.
  unfold sparseramsey.find_extremals, dividedramsey.find_extremals,
    make_k_sparse_func, make_k_sparse_compl_func,
    make_k_divided_func, make_k_divided_compl_func. simpl.
  assert (extremals graphs powerset unique_iso
            (is_k_sparse 0) (is_k_sparse_compl 0) a b fuel
          = extremals graphs powerset unique_iso
              is_independent is_clique a b fuel) as Hsparse.
  { apply extremals_ext; try done.
    - intros g s _ _. by apply is_k_sparse_loop_nonpositive.
    - intros g s _ _. by apply is_k_sparse_compl_loop_nonpositive. }
  assert (extremals graphs powerset unique_iso
            (is_k_divided 1) (is_k_divided_compl 1) a b fuel
          = extremals graphs powerset unique_iso
              is_independent is_clique a b fuel) as Hdivided.
  { apply extremals_ext; try done.
    - intros g s Hg [_ Hs]. by apply is_k_divided_one.
    - intros g s Hg [_ Hs]. by apply is_k_divided_compl_one. }
  destruct (Z.geb_spec a 0); simpl.
  - destruct (Z.geb_spec b 0); simpl.
    + split; [congruence|done].
    + split; [done|lia].
  - split; [done|lia].
Qed.

(** ** The smallest sizes *)

Lemma has_fset_nil f b :
  has_fset f b [] = if decide (b = 0) then (r ← f [] []; Ok r) else Ok false.
Proof.
  unfold has_fset. destruct (Z.ltb_spec b 0).
  { rewrite decide_False by lia. done. }
  simpl. destruct (Z.gtb_spec b (Z.of_nat 0)).
  { rewrite decide_False by lia. done. }
  assert (b = 0) as -> by lia. simpl.
  by destruct (f [] []) as [[]|].
Qed.

Lemma extremals_size_zero graphs powerset unique_iso f1 f2 b1 b2 fuel :
  graphs O = [[]] → f1 [] [] = Ok true → f2 [] [] = Ok true →
  0 ≤ b1 → 0 ≤ b2 → b1 = 0 ∨ b2 = 0 →
  extremals graphs powerset unique_iso f1 f2 b1 b2 fuel = Some (Ok (O, [])).
Proof.
  intros Hzero H1 H2 Hb1 Hb2 Hb. unfold extremals, _counterexamples_zero.
  rewrite Hzero. simpl. unfold neither. rewrite !has_fset_nil, H1, H2.
  destruct (decide (b1 = 0)); simpl; [done|].
  rewrite decide_True by lia. done.
Qed.

Lemma has_fset_with_last_one f b :
  1 ≤ b → f [[]] [0%nat] = Ok true →
  has_fset_with_last f b [[]] = Ok (bool_decide (b = 1)).
Proof.
  intros Hb Hf. unfold has_fset_with_last.
  destruct (Z.ltb_spec b 1); [lia|]. simpl.
  destruct (Z.gtb_spec b (Z.of_nat 1)).
  { rewrite bool_decide_false by lia. done. }
  assert (b = 1) as -> by lia. simpl. by rewrite Hf.
Qed.

Lemma extremals_size_one graphs powerset unique_iso f1 f2 b1 b2 fuel :
  graphs O = [[]] →
  (∀ n s, s ∈ powerset (xrange n) → s `sublist_of` xrange n) →
  (∀ l g, g ∈ unique_iso l → g ∈ l) →
  f1 [[]] [0%nat] = Ok true → f2 [[]] [0%nat] = Ok true →
  1 ≤ b1 → 1 ≤ b2 → b1 = 1 ∨ b2 = 1 →
  extremals graphs powerset unique_iso f1 f2 b1 b2 (S fuel)
  = Some (Ok (1%nat, [[]])).
Proof.
  intros Hzero Hpow Hsub H1 H2 Hb1 Hb2 Hb.
  unfold extremals, _counterexamples_zero. rewrite Hzero. simpl.
  unfold neither at 1. rewrite !has_fset_nil, !decide_False by lia. simpl.
  assert (∀ vsets, (∀ vset, vset ∈ vsets → vset = []) →
            extensions f1 f2 1 b1 b2 [] vsets = Ok []) as Hext.
  { induction vsets as [|vset vsets IH]; intros Hvs; simpl; [done|].
    rewrite (Hvs vset) by left. simpl. unfold neither.
    rewrite !has_fset_with_last_one by done.
    rewrite IH by (intros; apply Hvs; by right).
    repeat case_bool_decide; simpl; try done. lia. }
  unfold _counterexamples_up. simpl.
  rewrite Hext.
  2:{ intros vset Hvset%Hpow. apply sublist_nil_r in Hvset. done. }
  simpl. destruct (unique_iso []) as [|g l] eqn:Hu; [done|].
  assert (g ∈ @nil graph) as []%elem_of_nil.
  apply Hsub. rewrite Hu. left.
Qed.

Lemma is_k_divided_singleton skip k :
  divided_loop skip k [[]] [0%nat] [0%nat] [false] = Ok true.
Proof.
  simpl. rewrite while_stack_cons. simpl. by rewrite while_stack_equation_1.
Qed.

(** X14.  The smallest sizes: [find_extremals(k, a, b)] returns
    [(0, [])] when [a] or [b] is 0, and [(1, [[]])] when [a, b >= 1] and
    one of them is 1, in both modules. *)
Theorem find_extremals_small_sizes (graphs : nat → list graph)
    (powerset : list nat → list (list nat))
    (unique_iso : list graph → list graph) (k a b : Z) :
  graphs O = [[]] →
  (∀ n s, s ∈ powerset (xrange n) → s `sublist_of` xrange n) →
  (∀ l g, g ∈ unique_iso l → g ∈ l) →
  0 ≤ a → 0 ≤ b →
  (a = 0 ∨ b = 0 → ∀ fuel,
     (0 ≤ k →
      sparseramsey.find_extremals graphs powerset unique_iso k a b fuel
      = Some (Ok (O, []))) ∧
     (1 ≤ k →
      dividedramsey.find_extremals graphs powerset unique_iso k a b fuel
      = Some (Ok (O, [])))) ∧
  (1 ≤ a → 1 ≤ b → a = 1 ∨ b = 1 → ∀ fuel,
     (0 ≤ k →
      sparseramsey.find_extremals graphs powerset unique_iso k a b (S fuel)
      = Some (Ok (1%nat, [[]]))) ∧
     (1 ≤ k →
      dividedramsey.find_extremals graphs powerset unique_iso k a b (S fuel)
      = Some (Ok (1%nat, [[]])))).
Proof.
  intros Hzero Hpow Hsub Ha Hb.
  unfold sparseramsey.find_extremals, dividedramsey.find_extremals,
    make_k_sparse_func, make_k_sparse_compl_func,
    make_k_divided_func, make_k_divided_compl_func.
  destruct (Z.geb_spec a 0); [simpl|lia].
  destruct (Z.geb_spec b 0); [simpl|lia].
  split.
  - intros Hab fuel. split; intros Hk.
    + destruct (Z.geb_spec k 0); [simpl|lia].
      by apply extremals_size_zero.
    + destruct (Z.geb_spec k 1); [simpl|lia].
      by apply extremals_size_zero.
  - intros Ha1 Hb1 Hab fuel. split; intros Hk.
    + destruct (Z.geb_spec k 0); [simpl|lia].
      by apply extremals_size_one.
    + destruct (Z.geb_spec k 1); [simpl|lia].
      apply extremals_size_one; try done; apply is_k_divided_singleton.
Qed.

Lemma extremals_loop_with_printflag_result powerset unique_iso f1 f2 b1 b2
    printflag fuel n gs :
  (extremals_loop_with_printflag powerset unique_iso f1 f2 b1 b2 printflag
     fuel n gs).2
  = extremals_loop powerset unique_iso f1 f2 b1 b2 fuel n gs.
Proof.
  revert n gs. induction fuel as [|fuel IH]; intros n gs; simpl; [done|].
  destruct (_counterexamples_up _ _ _ _ _ _ _ _) as [new|e]; [|done].
  case_decide; [done|]. rewrite <-IH.
  by destruct (extremals_loop_with_printflag _ _ _ _ _ _ _ _ _ _).
Qed.

Lemma extremals_loop_quiet powerset unique_iso f1 f2 b1 b2 fuel n gs :
  (extremals_loop_with_printflag powerset unique_iso f1 f2 b1 b2 false
     fuel n gs).1 = [].
Proof.
  revert n gs. induction fuel as [|fuel IH]; intros n gs; simpl; [done|].
  destruct (_counterexamples_up _ _ _ _ _ _ _ _) as [new|e]; [|done].
  case_decide; [done|]. specialize (IH (S n) new).
  by destruct (extremals_loop_with_printflag _ _ _ _ _ _ _ _ _ _).
Qed.

(** X15.  [printflag] only prints: the run with [printflag] returns
    what the run without it returns, and prints nothing when
    [printflag] is false. *)
Theorem printflag_only_prints (graphs : nat → list graph)
    (powerset : list nat → list (list nat))
    (unique_iso : list graph → list graph)
    (f1 f2 : pred) (b1 b2 : Z) (printflag : bool) (fuel : nat) :
  (extremals_with_printflag graphs powerset unique_iso f1 f2 b1 b2
     printflag fuel).2
  = extremals graphs powerset unique_iso f1 f2 b1 b2 fuel ∧
  (extremals_with_printflag graphs powerset unique_iso f1 f2 b1 b2
     false fuel).1 = [].
Proof.
  unfold extremals_with_printflag, extremals.
  destruct (_counterexamples_zero _ _ _ _ _) as [gs|e]; [|done].
  case_decide; [done|].
  pose proof (extremals_loop_with_printflag_result powerset unique_iso
                f1 f2 b1 b2 printflag fuel 1 gs) as Hres.
  pose proof (extremals_loop_quiet powerset unique_iso
                f1 f2 b1 b2 fuel 1 gs) as Hquiet.
  destruct (extremals_loop_with_printflag _ _ _ _ _ _ printflag _ _ _).
  by destruct (extremals_loop_with_printflag _ _ _ _ _ _ false _ _ _).
Qed.

Example extremals_with_printflag_doctest :
  extremals_with_printflag isograph.graphs isograph.powerset
    isograph.unique_iso is_independent is_clique 3 3 true 6
  = ([table_header; "0 1"; "1 1"; "2 2"; "3 2"; "4 3"; "5 1"; "6 0"],
     Some (Ok (6%nat, [cycle5]))).
Proof. vm_compute. reflexivity. Qed.

Section table.
Context (graphs : nat → list graph).
Context (powerset : list nat → list (list nat)).
Context (unique_iso : list graph → list graph).
Context (graphs_zero : graphs O = [[]]).
Context (powerset_spec :
  ∀ n s, s ∈ powerset (xrange n) ↔ s `sublist_of` xrange n).
Context (unique_iso_sub : ∀ l g, g ∈ unique_iso l → g ∈ l).
Context (unique_iso_cover :
  ∀ l g, g ∈ l → ∃ g', g' ∈ unique_iso l ∧ isomorphic g g').
Context (unique_iso_unique :
  ∀ l i j g1 g2, unique_iso l !! i = Some g1 → unique_iso l !! j = Some g2 →
    isomorphic g1 g2 → i = j).
Context (f1 f2 : pred) (b1 b2 : Z).
Context (Hp1 : is_predicate f1) (Hp2 : is_predicate f2).
Context (Hh1 : induced_hereditary f1) (Hh2 : induced_hereditary f2).

Local Abbreviation level m :=
  (representatives (λ g, counterexample f1 f2 b1 b2 g ∧ length g = m)).

Lemma extremals_loop_table fuel m L out n gs :
  level m L → L ≠ [] →
  extremals_loop_with_printflag powerset unique_iso f1 f2 b1 b2 true
    fuel (S m) L = (out, Some (Ok (n, gs))) →
  ∃ levels : list (list graph),
    out = imap (λ i L', table_line (S m + i)%nat (length L')) levels ∧
    n = (m + length levels)%nat ∧
    (∀ i L', levels !! i = Some L' → level (S m + i)%nat L') ∧
    last levels = Some [] ∧
    (∀ i L', levels !! i = Some L' → (S i < length levels)%nat → L' ≠ []) ∧
    (L :: levels) !! (length levels - 1)%nat = Some gs.
Proof.
  revert m L out. induction fuel as [|fuel IH]; intros m L out Hlev Hne;
    simpl; [done|].
  destruct (level_step powerset unique_iso powerset_spec unique_iso_sub
              unique_iso_cover unique_iso_unique f1 f2 b1 b2 Hp1 Hp2 Hh1 Hh2
              m L Hlev) as (L' & -> & Hlev').
  case_decide as Hempty.
  - intros [= <- <- <-]. apply length_zero_iff_nil in Hempty. subst L'.
    exists [[]]. simpl. rewrite Nat.add_0_r. split_and!; try done.
    + lia.
    + intros [|i] L'; [|done]. intros [= <-]. by rewrite Nat.add_0_r.
    + intros [|i] L'; simpl; [lia|done].
  - destruct (extremals_loop_with_printflag _ _ _ _ _ _ _ _ _ _)
      as [out' r] eqn:Hrec.
    intros [= <- ->].
    destruct (IH (S m) L' out' Hlev') as
      (levels & -> & -> & Hlevs & Hlast & Hnonempty & Hgs); [|done|].
    { by intros ->. }
    exists (L' :: levels). split_and!.
    + simpl. rewrite Nat.add_0_r. f_equal. apply imap_ext.
      intros i L'' _. simpl. f_equal. lia.
    + simpl. lia.
    + intros [|i] L'' Hi.
      * injection Hi as <-. by rewrite Nat.add_0_r.
      * replace (S (m + S i)) with (S (S m) + i)%nat by lia.
        by apply Hlevs.
    + destruct levels; [done|]. done.
    + intros [|i] L''; simpl.
      * intros [= <-] _. by intros ->.
      * intros Hi Hlt. apply (Hnonempty i); [done|lia].
    + simpl. rewrite Nat.sub_0_r. destruct levels as [|L1 levels]; [done|].
      simpl in *. by rewrite Nat.sub_0_r in Hgs.
Qed.

Lemma extremals_table fuel out n gs :
  extremals_with_printflag graphs powerset unique_iso f1 f2 b1 b2 true fuel
    = (out, Some (Ok (n, gs))) →
  ∃ levels : list (list graph),
    length levels = S n ∧
    out = table_header :: imap (λ u L, table_line u (length L)) levels ∧
    (∀ u L, levels !! u = Some L → level u L) ∧
    levels !! n = Some [] ∧
    (∀ u L, levels !! u = Some L → (u < n)%nat → L ≠ []) ∧
    ((1 ≤ n)%nat → levels !! (n - 1)%nat = Some gs).
Proof.
  unfold extremals_with_printflag.
  destruct (level_zero graphs graphs_zero f1 f2 b1 b2 Hp1 Hp2)
    as (L0 & -> & Hlev0).
  case_decide as Hempty.
  - intros [= <- <- <-]. apply length_zero_iff_nil in Hempty. subst L0.
    exists [[]]. split_and!; try done.
    + intros [|u] L; simpl; [|done]. by intros [= <-].
    + intros u L _ ?. lia.
  - destruct (extremals_loop_with_printflag _ _ _ _ _ _ _ _ _ _)
      as [out' r] eqn:Hrec.
    intros [= <- ->].
    destruct (extremals_loop_table fuel O L0 out' n gs Hlev0) as
      (levels & -> & -> & Hlevs & Hlast & Hnonempty & Hgs); [|done|].
    { by intros ->. }
    assert (1 ≤ length levels)%nat as Hpos.
    { destruct levels; [done|simpl; lia]. }
    exists (L0 :: levels). simpl. split_and!.
    + done.
    + done.
    + intros [|u] L; simpl; [by intros [= <-]|]. apply Hlevs.
    + rewrite last_lookup in Hlast.
      destruct (length levels) as [|d] eqn:Hd; [lia|]. done.
    + intros [|u] L; simpl.
      * intros [= <-] _. by intros ->.
      * intros Hu Hlt. apply (Hnonempty u); [done|lia].
    + intros _. done.
Qed.
End table.

(** X16.  What [extremals] prints when [printflag] is true and it
    returns [(n, gs)]: the header, then one line for each order from 0
    to [n], with the number of isomorphism classes of counterexample
    graphs of that order; the count is 0 at order [n] only, and the
    graphs counted at order [n-1] are [gs]. *)
Theorem extremals_prints_level_counts (graphs : nat → list graph)
    (powerset : list nat → list (list nat))
    (unique_iso : list graph → list graph)
    (f1 f2 : pred) (b1 b2 : Z) (fuel : nat)
    (out : list string) (n : nat) (gs : list graph) :
  graphs O = [[]] →
  (∀ n s, s ∈ powerset (xrange n) ↔ s `sublist_of` xrange n) →
  (∀ l g, g ∈ unique_iso l → g ∈ l) →
  (∀ l g, g ∈ l → ∃ g', g' ∈ unique_iso l ∧ isomorphic g g') →
  (∀ l i j g1 g2, unique_iso l !! i = Some g1 → unique_iso l !! j = Some g2 →
     isomorphic g1 g2 → i = j) →
  is_predicate f1 → is_predicate f2 →
  induced_hereditary f1 → induced_hereditary f2 →
  extremals_with_printflag graphs powerset unique_iso f1 f2 b1 b2 true fuel
    = (out, Some (Ok (n, gs))) →
  ∃ levels : list (list graph),
    length levels = S n ∧
    out = table_header :: imap (λ u L, table_line u (length L)) levels ∧
    (∀ u L, levels !! u = Some L →
       representatives
         (λ g, counterexample f1 f2 b1 b2 g ∧ length g = u) L) ∧
    levels !! n = Some [] ∧
    (∀ u L, levels !! u = Some L → (u < n)%nat → L ≠ []) ∧
    ((1 ≤ n)%nat → levels !! (n - 1)%nat = Some gs).
Proof.
  intros Hzero Hpow Hsub Hcover Huniq Hp1 Hp2 Hh1 Hh2 Hrun.
  by apply (extremals_table graphs powerset unique_iso Hzero Hpow Hsub
              Hcover Huniq f1 f2 b1 b2 Hp1 Hp2 Hh1 Hh2 fuel).
Qed.

Lemma extremals_loop_with_printflag_fuel powerset unique_iso f1 f2 b1 b2
    printflag fuel fuel' n gs out r :
  extremals_loop_with_printflag powerset unique_iso f1 f2 b1 b2 printflag
    fuel n gs = (out, Some r) →
  (fuel ≤ fuel')%nat →
  extremals_loop_with_printflag powerset unique_iso f1 f2 b1 b2 printflag
    fuel' n gs = (out, Some r).
Proof.
  revert fuel' n gs out. induction fuel as [|fuel IH];
    intros fuel' n gs out; [done|].
  destruct fuel' as [|fuel']; [lia|]. simpl.
  destruct (_counterexamples_up _ _ _ _ _ _ _ _) as [new|e]; [|done].
  case_decide; [done|].
  destruct (extremals_loop_with_printflag _ _ _ _ _ _ _ fuel _ _)
    as [out1 r1] eqn:Hrec.
  intros [= <- ->] Hle. by rewrite (IH fuel' _ _ _ Hrec) by lia.
Qed.

Lemma extremals_with_printflag_fuel graphs powerset unique_iso f1 f2 b1 b2
    printflag fuel fuel' out r :
  extremals_with_printflag graphs powerset unique_iso f1 f2 b1 b2 printflag
    fuel = (out, Some r) →
  (fuel ≤ fuel')%nat →
  extremals_with_printflag graphs powerset unique_iso f1 f2 b1 b2 printflag
    fuel' = (out, Some r).
Proof.
  unfold extremals_with_printflag.
  destruct (_counterexamples_zero _ _ _ _ _) as [gs|e]; [|done].
  case_decide; [done|].
  destruct (extremals_loop_with_printflag _ _ _ _ _ _ _ fuel _ _)
    as [out1 r1] eqn:Hrec.
  intros [= <- ->] Hle.
  by rewrite (extremals_loop_with_printflag_fuel _ _ _ _ _ _ _ _ fuel'
                _ _ _ _ Hrec) by lia.
Qed.

Section print_doctest.
Variable dot_str : graph → string → string.

Example print_extremals_doctest :
  dividedramsey.print_extremals isograph.graphs isograph.powerset
    isograph.unique_iso dot_str 1 2 2 true 2
  = (["Finding R*_1(2,2)"; "";
      "Order & number of counterexample graphs:"; "0 1"; "1 1"; "2 0"; "";
      "1 extremal graph(s):"; "";
      dot_str [[]] "rs1_2_2e1"; "";
      "R*_1(2,2) = 2"; "1 extremal graph(s)"], Some (Ok tt)).
Proof. vm_compute. reflexivity. Qed.
End print_doctest.

Lemma extremals_with_printflag_result graphs powerset unique_iso f1 f2 b1 b2
    printflag fuel :
  (extremals_with_printflag graphs powerset unique_iso f1 f2 b1 b2
     printflag fuel).2
  = extremals graphs powerset unique_iso f1 f2 b1 b2 fuel.
Proof.
  unfold extremals_with_printflag, extremals.
  destruct (_counterexamples_zero _ _ _ _ _) as [gs|e]; [|done].
  case_decide; [done|].
  pose proof (extremals_loop_with_printflag_result powerset unique_iso
                f1 f2 b1 b2 printflag fuel 1 gs) as Hres.
  by destruct (extremals_loop_with_printflag _ _ _ _ _ _ printflag _ _ _).
Qed.

Lemma extremals_with_printflag_quiet graphs powerset unique_iso f1 f2 b1 b2
    fuel :
  (extremals_with_printflag graphs powerset unique_iso f1 f2 b1 b2
     false fuel).1 = [].
Proof.
  unfold extremals_with_printflag.
  destruct (_counterexamples_zero _ _ _ _ _) as [gs|e]; [|done].
  case_decide; [done|].
  pose proof (extremals_loop_quiet powerset unique_iso
                f1 f2 b1 b2 fuel 1 gs) as Hquiet.
  by destruct (extremals_loop_with_printflag _ _ _ _ _ _ false _ _ _).
Qed.

(** What the search prints and returns when independent sets have the
    property [P]. *)
Lemma ramsey_search_output graphs powerset unique_iso (f fc : pred)
    (P : graph → list nat → Prop) (a b : Z) :
  graphs O = [[]] →
  (∀ n s, s ∈ powerset (xrange n) ↔ s `sublist_of` xrange n) →
  (∀ l g, g ∈ unique_iso l → g ∈ l) →
  (∀ l g, g ∈ l → ∃ g', g' ∈ unique_iso l ∧ isomorphic g g') →
  (∀ l i j g1 g2, unique_iso l !! i = Some g1 → unique_iso l !! j = Some g2 →
     isomorphic g1 g2 → i = j) →
  (∀ g s, graph_ok g → vertex_subset g s →
     ∃ r, f g s = Ok r ∧ (r = true ↔ P g s)) →
  (∀ g s, vertex_subset g s → fc g s = f (complement g) s) →
  induced_hereditary f →
  (∀ g s, graph_ok g → vertex_subset g s → independent g s → P g s) →
  0 ≤ a → 0 ≤ b →
  ∃ (fuel0 n : nat) (gs : list graph) (levels : list (list graph)),
    length levels = S n ∧
    (∀ u L, levels !! u = Some L →
       representatives
         (λ g, ramsey_counterexample P a b g ∧ length g = u) L) ∧
    levels !! n = Some [] ∧
    (∀ u L, levels !! u = Some L → (u < n)%nat → L ≠ []) ∧
    (n = O → gs = []) ∧
    ((1 ≤ n)%nat → levels !! (n - 1)%nat = Some gs) ∧
    ∀ printflag fuel, (fuel0 ≤ fuel)%nat →
      extremals_with_printflag graphs powerset unique_iso f fc a b
        printflag fuel
      = (if printflag : bool
         then table_header :: imap (λ u L, table_line u (length L)) levels
         else [],
         Some (Ok (n, gs))).
Proof.
  intros Hzero Hpow Hsub Hcover Huniq Hspec Heq Hher Hind Ha Hb.
  assert (is_predicate f) as Hp.
  { intros g Hg s Hs. destruct (Hspec g s Hg Hs) as (r & ? & _). eauto. }
  pose proof (predicate_complement f fc Heq Hp) as Hpc.
  pose proof (hereditary_complement f fc Heq Hher) as Hherc.
  assert (∀ m g, counterexample f fc a b g ∧ length g = m ↔
                 ramsey_counterexample P a b g ∧ length g = m) as HCE
    by (intros; by rewrite (counterexample_semantic f fc P)).
  destruct (ramsey_search_total graphs powerset unique_iso f fc P a b)
    as (fuel0 & n & gs & Hrun & _ & _ & Hgs0 & _); [done..|].
  pose proof (extremals_with_printflag_result graphs powerset unique_iso
                f fc a b true fuel0) as Hres.
  rewrite Hrun in Hres by done.
  destruct (extremals_with_printflag _ _ _ _ _ _ _ true fuel0)
    as [out r] eqn:Hprint. simpl in Hres. subst r.
  destruct (extremals_table graphs powerset unique_iso Hzero Hpow Hsub
              Hcover Huniq f fc a b Hp Hpc Hher Hherc fuel0 out n gs Hprint)
    as (levels & Hlen & -> & Hlevs & Hlast & Hnonempty & Hgs).
  exists fuel0, n, gs, levels. split_and!; [done| |done..|].
  { intros u L HL. by apply (representatives_ext _ _ L (HCE u)), Hlevs. }
  intros [] fuel Hfuel.
  - by apply (extremals_with_printflag_fuel _ _ _ _ _ _ _ _ fuel0 fuel).
  - pose proof (extremals_with_printflag_result graphs powerset unique_iso
                  f fc a b false fuel) as Hres.
    pose proof (extremals_with_printflag_quiet graphs powerset unique_iso
                  f fc a b fuel) as Hquiet.
    rewrite Hrun in Hres by done.
    destruct (extremals_with_printflag _ _ _ _ _ _ _ false fuel) as [o r].
    simpl in *. by subst.
Qed.

Lemma print_graphs_imap (dot_str : graph → string → string) base c gs :
  dividedramsey.print_graphs dot_str base c gs
  = mjoin (imap (λ i g, [dot_str g (base +:+ pretty (S (c + i))); ""]) gs).
Proof.
  revert c. induction gs as [|g gs IH]; intros c; simpl; [done|].
  rewrite Nat.add_0_r. do 2 f_equal. rewrite IH. f_equal.
  apply imap_ext. intros i g' _. simpl.
  by replace (c + S i)%nat with (S (c + i))%nat by lia.
Qed.

Lemma sparse_print_graphs_eq dot_str base c gs :
  sparseramsey.print_graphs dot_str base c gs
  = dividedramsey.print_graphs dot_str base c gs.
Proof. revert c. induction gs as [|g gs IH]; intros c; simpl; by rewrite ?IH. Qed.

(** X17.  [dividedramsey.print_extremals] with valid parameters
    terminates, and this is all it prints: the title, the table of
    counts when [printflag] is true, the number of extremal graphs, one
    DOT text per extremal graph, named [rs<k>_<a>_<b>e1], [...e2], and so
    on in the order of [gs], and the number [n], which is the least
    order with no counterexample graph. *)
Theorem divided_print_extremals_output (graphs : nat → list graph)
    (powerset : list nat → list (list nat))
    (unique_iso : list graph → list graph)
    (dot_str : graph → string → string) (k a b : Z) :
  graphs O = [[]] →
  (∀ n s, s ∈ powerset (xrange n) ↔ s `sublist_of` xrange n) →
  (∀ l g, g ∈ unique_iso l → g ∈ l) →
  (∀ l g, g ∈ l → ∃ g', g' ∈ unique_iso l ∧ isomorphic g g') →
  (∀ l i j g1 g2, unique_iso l !! i = Some g1 → unique_iso l !! j = Some g2 →
     isomorphic g1 g2 → i = j) →
  1 ≤ k → 0 ≤ a → 0 ≤ b →
  let CE := ramsey_counterexample (λ g s, k_divided g s k) a b in
  let base :=
    "rs" +:+ pretty k +:+ "_" +:+ pretty a +:+ "_" +:+ pretty b +:+ "e" in
  ∃ (fuel0 n : nat) (gs : list graph) (levels : list (list graph)),
    length levels = S n ∧
    (∀ u L, levels !! u = Some L →
       representatives (λ g, CE g ∧ length g = u) L) ∧
    levels !! n = Some [] ∧
    (∀ u L, levels !! u = Some L → (u < n)%nat → L ≠ []) ∧
    (n = O → gs = []) ∧
    ((1 ≤ n)%nat → levels !! (n - 1)%nat = Some gs) ∧
    ∀ printflag fuel, (fuel0 ≤ fuel)%nat →
      dividedramsey.print_extremals graphs powerset unique_iso dot_str
        k a b printflag fuel
      = (["Finding R*_" +:+ pretty k +:+ "(" +:+ pretty a +:+ "," +:+
            pretty b +:+ ")"; ""] ++
         (if printflag : bool
          then table_header ::
               imap (λ u L, table_line u (length L)) levels ++ [""]
          else []) ++
         [pretty (length gs) +:+ " extremal graph(s):"; ""] ++
         mjoin (imap (λ i g, [dot_str g (base +:+ pretty (S i)); ""]) gs) ++
         ["R*_" +:+ pretty k +:+ "(" +:+ pretty a +:+ "," +:+ pretty b +:+
            ") = " +:+ pretty n;
          pretty (length gs) +:+ " extremal graph(s)"],
         Some (Ok tt)).
Proof.
  intros Hzero Hpow Hsub Hcover Huniq Hk Ha Hb CE base.
  destruct (ramsey_search_output graphs powerset unique_iso
              (dividedramsey.is_k_divided k)
              (dividedramsey.is_k_divided_compl k)
              (λ g s, k_divided g s k) a b)
    as (fuel0 & n & gs & levels & Hlen & Hlevs & Hlast & Hne & Hgs0 & Hgs
        & Hrun); try done.
  { intros g s Hg [_ Hs]. by apply is_k_divided_spec. }
  { intros g s _. apply is_k_divided_compl_eq. }
  { by apply is_k_divided_hereditary. }
  { intros g s _ _. by apply independent_k_divided. }
  exists fuel0, n, gs, levels. split_and!; [done..|].
  intros printflag fuel Hfuel.
  unfold dividedramsey.print_extremals,
    dividedramsey.find_extremals_with_printflag,
    dividedramsey.make_k_divided_func, dividedramsey.make_k_divided_compl_func.
  destruct (Z.geb_spec k 1); [simpl|lia].
  destruct (Z.geb_spec a 0); [simpl|lia].
  destruct (Z.geb_spec b 0); [simpl|lia].
  rewrite (Hrun printflag fuel Hfuel), print_graphs_imap.
  unfold base. destruct printflag; simpl; [|done].
  by rewrite <-(assoc_L (++)).
Qed.

(** X18.  The same for [sparseramsey.print_extremals], with [R_] and
    graphs named [r<k>_<a>_<b>e<i>]. *)
Theorem sparse_print_extremals_output (graphs : nat → list graph)
    (powerset : list nat → list (list nat))
    (unique_iso : list graph → list graph)
    (dot_str : graph → string → string) (k a b : Z) :
  graphs O = [[]] →
  (∀ n s, s ∈ powerset (xrange n) ↔ s `sublist_of` xrange n) →
  (∀ l g, g ∈ unique_iso l → g ∈ l) →
  (∀ l g, g ∈ l → ∃ g', g' ∈ unique_iso l ∧ isomorphic g g') →
  (∀ l i j g1 g2, unique_iso l !! i = Some g1 → unique_iso l !! j = Some g2 →
     isomorphic g1 g2 → i = j) →
  0 ≤ k → 0 ≤ a → 0 ≤ b →
  let CE := ramsey_counterexample (λ g s, k_sparse g s k) a b in
  let base :=
    "r" +:+ pretty k +:+ "_" +:+ pretty a +:+ "_" +:+ pretty b +:+ "e" in
  ∃ (fuel0 n : nat) (gs : list graph) (levels : list (list graph)),
    length levels = S n ∧
    (∀ u L, levels !! u = Some L →
       representatives (λ g, CE g ∧ length g = u) L) ∧
    levels !! n = Some [] ∧
    (∀ u L, levels !! u = Some L → (u < n)%nat → L ≠ []) ∧
    (n = O → gs = []) ∧
    ((1 ≤ n)%nat → levels !! (n - 1)%nat = Some gs) ∧
    ∀ printflag fuel, (fuel0 ≤ fuel)%nat →
      sparseramsey.print_extremals graphs powerset unique_iso dot_str
        k a b printflag fuel
      = (["Finding R_" +:+ pretty k +:+ "(" +:+ pretty a +:+ "," +:+
            pretty b +:+ ")"; ""] ++
         (if printflag : bool
          then table_header ::
               imap (λ u L, table_line u (length L)) levels ++ [""]
          else []) ++
         [pretty (length gs) +:+ " extremal graph(s):"; ""] ++
         mjoin (imap (λ i g, [dot_str g (base +:+ pretty (S i)); ""]) gs) ++
         ["R_" +:+ pretty k +:+ "(" +:+ pretty a +:+ "," +:+ pretty b +:+
            ") = " +:+ pretty n;
          pretty (length gs) +:+ " extremal graph(s)"],
         Some (Ok tt)).
Proof.
  intros Hzero Hpow Hsub Hcover Huniq Hk Ha Hb CE base.
  destruct (ramsey_search_output graphs powerset unique_iso
              (sparseramsey.is_k_sparse k) (sparseramsey.is_k_sparse_compl k)
              (λ g s, k_sparse g s k) a b)
    as (fuel0 & n & gs & levels & Hlen & Hlevs & Hlast & Hne & Hgs0 & Hgs
        & Hrun); try done.
  { intros g s. by apply is_k_sparse_true. }
  { apply is_k_sparse_compl_eq. }
  { apply is_k_sparse_hereditary. }
  { intros g s _ _. by apply independent_k_sparse. }
  exists fuel0, n, gs, levels. split_and!; [done..|].
  intros printflag fuel Hfuel.
  unfold sparseramsey.print_extremals,
    sparseramsey.find_extremals_with_printflag,
    sparseramsey.make_k_sparse_func, sparseramsey.make_k_sparse_compl_func.
  destruct (Z.geb_spec k 0); [simpl|lia].
  destruct (Z.geb_spec a 0); [simpl|lia].
  destruct (Z.geb_spec b 0); [simpl|lia].
  rewrite (Hrun printflag fuel Hfuel), sparse_print_graphs_eq,
    print_graphs_imap.
  unfold base. destruct printflag; simpl; [|done].
  by rewrite <-(assoc_L (++)).
Qed.

Lemma main_options_quiet optlist flag :
  Forall quiet_option optlist →
  main_options optlist flag
  = ([], Ok (inl (if optlist is [] then flag else false))).
Proof.
  intros Hq. revert flag. induction Hq as [|[o x] optlist Ho _ IH];
    intros flag; [done|].
  cbn [main_options]. rewrite IH.
  unfold quiet_option in Ho. simpl in Ho.
  repeat (apply elem_of_cons in Ho as [->|Ho]);
    [..|by apply elem_of_nil in Ho]; by destruct optlist.
Qed.

Lemma main_options_special quiet o x rest flag :
  Forall quiet_option quiet →
  o ∈ ["-h"; "--help"; "--test"; "--Test"] →
  main_options (quiet ++ (o, x) :: rest) flag
  = if bool_decide (o ∈ ["-h"; "--help"]) then ([Usage], Ok (inr 0))
    else ([Stdout (if bool_decide (o = "--Test")
                   then "Running doctests (verbose mode)"
                   else "Running doctests");
           Testmod (bool_decide (o = "--Test"))], Ok (inr 0)).
Proof.
  intros Hq Ho. revert flag. induction Hq as [|[o' x'] quiet Ho' _ IH];
    intros flag.
  - repeat (apply elem_of_cons in Ho as [->|Ho]);
      [..|by apply elem_of_nil in Ho]; done.
  - rewrite <-app_comm_cons. cbn [main_options]. rewrite IH.
    unfold quiet_option in Ho'. simpl in Ho'.
    repeat (apply elem_of_cons in Ho' as [->|Ho']);
      [..|by apply elem_of_nil in Ho']; done.
Qed.

(** X19.  Usage errors of [main]: when [getopt] fails, or when no
    option but the quiet ones is given and the arguments are not
    exactly three integers, [main] writes the message and the pointer
    to the help on the error stream and returns 2, and [print_extremals]
    is not run.  With an empty [argv] the handler itself raises
    [IndexError]. *)
Theorem main_usage_errors
    (getopt : list string → string + (list (string * string) * list string))
    (int : string → option Z)
    (print_extremals :
       Z → Z → Z → bool → nat → list string * option (result unit))
    (prog : string) (rest : list string) (fuel : nat) :
  let run := main getopt int print_extremals in
  let exit_2 msg :=
    ([Stderr (prog +:+ ": " +:+ msg); Stderr "For help use --help"],
     Some (Ok 2)) in
  (∀ msg, getopt rest = inl msg → run (prog :: rest) fuel = exit_2 msg) ∧
  (∀ optlist args, getopt rest = inr (optlist, args) →
     Forall quiet_option optlist →
     (length args ≠ 3%nat →
      run (prog :: rest) fuel = exit_2 "Must have exactly 3 arguments") ∧
     (length args = 3%nat → (∃ x, x ∈ args ∧ int x = None) →
      run (prog :: rest) fuel = exit_2 "Arguments must be integers")) ∧
  (∀ optlist args, getopt [] = inr (optlist, args) →
     Forall quiet_option optlist → length args ≠ 3%nat →
     run [] fuel = ([], Some (Raise IndexError))).
Proof.
  intros run exit_2. unfold run, main. simpl. rewrite drop_0. split_and!.
  - by intros msg ->.
  - intros optlist args -> Hq. rewrite main_options_quiet by done. split.
    + intros Hlen. by rewrite bool_decide_true by done.
    + intros Hlen (x & Hx & Hint). rewrite bool_decide_false by lia.
      destruct args as [|x1 [|x2 [|x3 [|]]]]; simplify_eq/=.
      destruct (int x1) as [k|] eqn:H1; simpl; [|done].
      destruct (int x2) as [a|] eqn:H2; simpl; [|done].
      destruct (int x3) as [b|] eqn:H3; simpl; [|done].
      repeat (apply elem_of_cons in Hx as [->|Hx]);
        [congruence..|by apply elem_of_nil in Hx].
  - intros optlist args -> Hq Hlen. rewrite main_options_quiet by done.
    by rewrite bool_decide_true by done.
Qed.

(** X20.  What [main] does otherwise: the first option that is not a
    quiet one prints the usage message or runs the doctests, and [main]
    returns 0 whatever the arguments; with three integers it prints
    what [print_extremals] prints, silencing the table when a quiet
    option was given, and returns 0. *)
Theorem main_runs_print_extremals
    (getopt : list string → string + (list (string * string) * list string))
    (int : string → option Z)
    (print_extremals :
       Z → Z → Z → bool → nat → list string * option (result unit))
    (argv : list string) (fuel : nat)
    (optlist : list (string * string)) (args : list string) :
  getopt (drop 1 argv) = inr (optlist, args) →
  let run := main getopt int print_extremals in
  (∀ quiet o x rest, optlist = quiet ++ (o, x) :: rest →
     Forall quiet_option quiet →
     (o ∈ ["-h"; "--help"] → run argv fuel = ([Usage], Some (Ok 0))) ∧
     (o = "--test" →
      run argv fuel
      = ([Stdout "Running doctests"; Testmod false], Some (Ok 0))) ∧
     (o = "--Test" →
      run argv fuel
      = ([Stdout "Running doctests (verbose mode)"; Testmod true],
         Some (Ok 0)))) ∧
  (∀ x1 x2 x3 k a b, Forall quiet_option optlist → args = [x1; x2; x3] →
     int x1 = Some k → int x2 = Some a → int x3 = Some b →
     let printcounterexamples := if optlist is [] then true else false in
     let '(lines, r) := print_extremals k a b printcounterexamples fuel in
     run argv fuel
     = (Stdout <$> lines,
        match r with
        | Some (Ok _) => Some (Ok 0)
        | Some (Raise e) => Some (Raise e)
        | None => None
        end)).
Proof.
  intros Hopt run. unfold run, main. rewrite Hopt. split.
  - intros quiet o x rest -> Hq. split_and!.
    + intros Ho. rewrite main_options_special; [|done|].
      * by rewrite bool_decide_true.
      * repeat (apply elem_of_cons in Ho as [->|Ho]);
          [..|by apply elem_of_nil in Ho]; set_solver.
    + intros ->. rewrite main_options_special; [done|done|]. set_solver.
    + intros ->. rewrite main_options_special; [done|done|]. set_solver.
  - intros x1 x2 x3 k a b Hq -> H1 H2 H3. simpl.
    rewrite main_options_quiet by done. simpl. rewrite H1, H2, H3. simpl.
    destruct (print_extremals _ _ _ _ _) as [lines [[[]|]|]]; done.
Qed.

(** ** Parameter checks come before any output *)

(** X21.  Integers outside the domain are not a usage error:
    [print_extremals] fails its assertion before printing anything, and
    [main] lets the [AssertionError] through. *)
Theorem main_parameter_checks_escape
    (getopt : list string → string + (list (string * string) * list string))
    (int : string → option Z)
    (graphs : nat → list graph) (powerset : list nat → list (list nat))
    (unique_iso : list graph → list graph)
    (dot_str : graph → string → string)
    (argv : list string) (optlist : list (string * string))
    (x1 x2 x3 : string) (k a b : Z) (fuel : nat) :
  getopt (drop 1 argv) = inr (optlist, [x1; x2; x3]) →
  Forall quiet_option optlist →
  int x1 = Some k → int x2 = Some a → int x3 = Some b →
  (k < 1 ∨ a < 0 ∨ b < 0 →
   (∀ printflag,
      dividedramsey.print_extremals graphs powerset unique_iso dot_str
        k a b printflag fuel = ([], Some (Raise AssertionError))) ∧
   main getopt int
     (dividedramsey.print_extremals graphs powerset unique_iso dot_str)
     argv fuel = ([], Some (Raise AssertionError))) ∧
  (k < 0 ∨ a < 0 ∨ b < 0 →
   (∀ printflag,
      sparseramsey.print_extremals graphs powerset unique_iso dot_str
        k a b printflag fuel = ([], Some (Raise AssertionError))) ∧
   main getopt int
     (sparseramsey.print_extremals graphs powerset unique_iso dot_str)
     argv fuel = ([], Some (Raise AssertionError))).
Proof.
  intros Hopt Hq H1 H2 H3.
  assert (∀ pe : Z → Z → Z → bool → nat → list string * option (result unit),
    (∀ printflag, pe k a b printflag fuel
                  = ([], Some (Raise AssertionError))) →
    main getopt int pe argv fuel = ([], Some (Raise AssertionError))) as Hmain.
  { intros pe Hpe. unfold main. rewrite Hopt, main_options_quiet by done.
    simpl. rewrite H1, H2, H3. simpl. by rewrite Hpe. }
  split; intros Hbad.
  - assert (∀ printflag,
      dividedramsey.print_extremals graphs powerset unique_iso dot_str
        k a b printflag fuel = ([], Some (Raise AssertionError))) as Hpe.
    { intros printflag. unfold dividedramsey.print_extremals.
      destruct (Z.geb_spec k 1); simpl; [|done].
      destruct (Z.geb_spec a 0); simpl; [|done].
      destruct (Z.geb_spec b 0); simpl; [|done]. lia. }
    split; [done|]. by apply Hmain.
  - assert (∀ printflag,
      sparseramsey.print_extremals graphs powerset unique_iso dot_str
        k a b printflag fuel = ([], Some (Raise AssertionError))) as Hpe.
    { intros printflag. unfold sparseramsey.print_extremals.
      destruct (Z.geb_spec k 0); simpl; [|done].
      destruct (Z.geb_spec a 0); simpl; [|done].
      destruct (Z.geb_spec b 0); simpl; [|done]. lia. }
    split; [done|]. by apply Hmain.
Qed.

(** ** The oracle at the extreme sizes *)

Lemma combinations_0 {A} (l : list A) : combinations l 0 = [[]].
Proof. by destruct l. Qed.

Lemma combinations_gt {A} (l : list A) r :
  (length l < r)%nat → combinations l r = [].
Proof.
  revert r. induction l as [|x l IH]; intros [|r] Hr; simpl in *; try lia.
  - done.
  - by rewrite !IH by lia.
Qed.

Lemma combinations_all {A} (l : list A) : combinations l (length l) = [l].
Proof.
  induction l as [|x l IH]; simpl; [done|].
  by rewrite IH, combinations_gt by lia.
Qed.

Lemma any_fset_singleton f g s : any_fset f g [s] = f g s.
Proof. simpl. by destruct (f g s) as [[]|]. Qed.

(** X22.  The oracle at the extreme sizes: for [b = 0], [has_fset] is
    the predicate on the empty set, and for [b = n] the predicate on
    all the vertices; [has_fset_with_last] is [False] on the empty
    graph, for [b = 1] the predicate on the last vertex alone, and for
    [b = n] the predicate on all the vertices. *)
Theorem has_fset_extreme_sizes (f : pred) (g : graph) :
  let n := length g in
  has_fset f 0 g = f g [] ∧
  has_fset f (Z.of_nat n) g = f g (xrange n) ∧
  (n = O → ∀ b, has_fset_with_last f b g = Ok false) ∧
  ((1 ≤ n)%nat →
     has_fset_with_last f 1 g = f g [(n - 1)%nat] ∧
     has_fset_with_last f (Z.of_nat n) g = f g (xrange n)).
Proof.
  intros n. unfold n. split_and!.
  - unfold has_fset. simpl.
    destruct (Z.gtb_spec 0 (Z.of_nat (length g))); [lia|].
    change (Z.to_nat 0) with O. rewrite combinations_0.
    apply any_fset_singleton.
  - unfold has_fset. destruct (Z.ltb_spec (Z.of_nat (length g)) 0); [lia|].
    destruct (Z.gtb_spec (Z.of_nat (length g)) (Z.of_nat (length g))); [lia|].
    rewrite Nat2Z.id.
    replace (combinations (xrange (length g)) (length g))
      with [xrange (length g)]; [apply any_fset_singleton|].
    rewrite <-(combinations_all (xrange (length g))) at 1.
    unfold xrange. by rewrite length_seq.
  - intros Hn b. unfold has_fset_with_last.
    destruct (Z.ltb_spec b 1); [done|].
    by destruct (Z.gtb_spec b (Z.of_nat (length g))); [|lia].
  - intros Hn. unfold has_fset_with_last. split.
    + simpl. destruct (Z.gtb_spec 1 (Z.of_nat (length g))); [lia|].
      change (Z.to_nat (1 - 1)) with O. rewrite combinations_0.
      simpl. by destruct (f g _) as [[]|].
    + destruct (Z.ltb_spec (Z.of_nat (length g)) 1); [lia|].
      destruct (Z.gtb_spec (Z.of_nat (length g)) (Z.of_nat (length g)));
        [lia|].
      replace (Z.to_nat (Z.of_nat (length g) - 1)) with (length g - 1)%nat
        by lia.
      replace (combinations (xrange (length g - 1)) (length g - 1))
        with [xrange (length g - 1)].
      2:{ rewrite <-(combinations_all (xrange (length g - 1))) at 1.
          unfold xrange. by rewrite length_seq. }
      simpl.
      replace (xrange (length g - 1) ++ [(length g - 1)%nat])
        with (xrange (length g)).
      2:{ unfold xrange. destruct (length g) as [|m]; [lia|].
          by rewrite Nat.sub_succ, Nat.sub_0_r, seq_S. }
      by destruct (f g _) as [[]|].
Qed.

(** ** Candidates and their restriction *)

Lemma filter_all {A} (P : A → Prop) `{!∀ x, Decision (P x)} (l : list A) :
  Forall P l → filter P l = l.
Proof.
  induction 1 as [|x l Hx _ IH]; [done|].
  by rewrite filter_cons_True, IH.
Qed.

Lemma candidate_prefix oldg vset g :
  graph_ok oldg → vset `sublist_of` xrange (length oldg) →
  candidate oldg (S (length oldg)) vset = Ok g →
  induced_prefix g (length oldg) = oldg.
Proof.
  intros Hold Hvset Hg. apply list_eq. intros u.
  rewrite induced_prefix_lookup, (candidate_lookup_eq oldg vset Hvset g Hg).
  destruct (decide (u < length oldg)%nat) as [Hu|Hu].
  - destruct (oldg !! u) as [l|] eqn:Hl; simpl; [|done]. f_equal.
    assert (Forall (λ x, (x < length oldg)%nat) l) as Hlt.
    { apply Forall_forall. intros x Hx.
      by destruct (Hold u l Hl) as [_ Hall]; destruct (Hall x Hx). }
    case_decide; [|by apply filter_all].
    rewrite filter_app, filter_all by done.
    rewrite filter_cons_False, filter_nil by lia. by rewrite app_nil_r.
  - symmetry. apply lookup_ge_None. lia.
Qed.

Lemma sorted_last_split (l : list nat) m :
  StronglySorted lt l → Forall (λ x, (x < S m)%nat) l → m ∈ l →
  ∃ l', l = l' ++ [m] ∧ Forall (λ x, (x < m)%nat) l'.
Proof.
  intros Hs Hlt Hm. destruct l as [|y l' _] using rev_ind.
  { by apply elem_of_nil in Hm. }
  apply StronglySorted_app in Hs as (Hbelow & _ & _).
  apply Forall_app in Hlt as [_ Hy]. rewrite Forall_singleton in Hy.
  assert (y = m) as ->.
  { apply elem_of_app in Hm as [Hm| ->%list_elem_of_singleton]; [|done].
    specialize (Hbelow _ y Hm (list_elem_of_here _ _)). lia. }
  exists l'. split; [done|]. apply Forall_forall. intros x Hx.
  exact (Hbelow x _ Hx (list_elem_of_here _ _)).
Qed.

Lemma candidate_of_prefix G m lm :
  graph_ok G → sorted_lists G → length G = S m → G !! m = Some lm →
  lm `sublist_of` xrange m ∧
  candidate (induced_prefix G m) (S (length (induced_prefix G m))) lm = Ok G.
Proof.
  intros HG Hsorted Hlen Hlm.
  assert (length (induced_prefix G m) = m) as Hplen
    by (apply induced_prefix_length; lia).
  assert (∀ u l, G !! u = Some l → Forall (λ x, (x < S m)%nat) l) as Hrange.
  { intros u l Hl. apply Forall_forall. intros x Hx.
    destruct (HG u l Hl) as [_ Hall]. destruct (Hall x Hx) as (? & _). lia. }
  assert (lm `sublist_of` xrange m) as Hvset.
  { apply sublist_seq. split; [by apply (Hsorted m)|].
    apply Forall_forall. intros x Hx.
    destruct (HG m lm Hlm) as [_ Hall]. destruct (Hall x Hx) as (? & ? & _).
    simpl. lia. }
  split; [done|]. rewrite Hplen.
  rewrite <-Hplen in Hvset.
  destruct (candidate_lookup (induced_prefix G m) lm Hvset)
    as (g & Hg & Hglen & Hlk).
  rewrite Hplen in Hg, Hglen, Hlk. rewrite Hg. f_equal.
  apply list_eq. intros u. rewrite Hlk, induced_prefix_lookup.
  destruct (decide (u < m)%nat) as [Hu|Hu].
  - destruct (lookup_lt_is_Some_2 G u) as [l Hl]; [lia|]. rewrite Hl. simpl.
    f_equal.
    assert (u ∈ lm ↔ m ∈ l) as Hsym.
    { rewrite <-(adj_lookup G m lm u), <-(adj_lookup G u l m) by done.
      split; intros Hadj;
        by apply (graph_ok_adj G) in Hadj as (_ & _ & _ & ?). }
    destruct (decide (u ∈ lm)) as [Hin|Hnin].
    + destruct (sorted_last_split l m) as (l' & -> & Hl');
        [by apply (Hsorted u)|by apply (Hrange u)|by apply Hsym|].
      rewrite filter_app, filter_all by done.
      rewrite filter_cons_False, filter_nil by lia. by rewrite app_nil_r.
    + apply filter_all. apply Forall_forall. intros x Hx.
      pose proof (Hrange u l Hl) as Hr. rewrite Forall_forall in Hr.
      specialize (Hr x Hx). simpl in Hr.
      assert (x ≠ m) by (intros ->; by apply Hnin, Hsym). lia.
  - destruct (decide (u = m)) as [->|Hne]; [done|].
    symmetry. apply lookup_ge_None. lia.
Qed.

(** X23.  Candidates and restrictions are inverse to each other: the
    candidate built from [oldg] and [vset] has [oldg] as its subgraph
    induced by the old vertices and [vset] as the adjacency list of the
    new vertex; and a well-formed graph with sorted adjacency lists is
    the candidate built from its restriction and the adjacency list of
    its last vertex. *)
Theorem candidate_round_trip (oldg G : graph) (vset : list nat) :
  (graph_ok oldg → vset `sublist_of` xrange (length oldg) →
   ∃ g, candidate oldg (S (length oldg)) vset = Ok g ∧
     length g = S (length oldg) ∧
     induced_prefix g (length oldg) = oldg ∧
     g !! length oldg = Some vset) ∧
  (graph_ok G → sorted_lists G → (1 ≤ length G)%nat →
   ∃ lm, G !! (length G - 1)%nat = Some lm ∧
     lm `sublist_of` xrange (length G - 1) ∧
     candidate (induced_prefix G (length G - 1)) (length G) lm = Ok G).
Proof.
  split.
  - intros Hold Hvset.
    destruct (candidate_lookup oldg vset Hvset) as (g & Hg & Hlen & Hlk).
    exists g. split_and!; [done|done|by apply (candidate_prefix oldg vset)|].
    rewrite Hlk. rewrite decide_False by lia. by rewrite decide_True.
  - intros HG Hsorted Hn.
    destruct (lookup_lt_is_Some_2 G (length G - 1)) as [lm Hlm]; [lia|].
    exists lm. split; [done|].
    destruct (candidate_of_prefix G (length G - 1) lm) as [Hsub Hc];
      [done|done|lia|done|].
    split; [done|]. rewrite induced_prefix_length in Hc by lia.
    by replace (S (length G - 1)) with (length G) in Hc by lia.
Qed.

(** ** The k-sparse predicates and vertices out of range *)







(** ** The contract of one level *)

(** X25.  The contract of [_counterexamples_up]: given one graph of
    each isomorphism class of the counterexample graphs of order [m],
    it returns one graph of each class of order [m+1], each of them an
    extension of a graph of [old]. *)
Theorem counterexamples_up_spec (powerset : list nat → list (list nat))
    (unique_iso : list graph → list graph)
    (f1 f2 : pred) (b1 b2 : Z) (m : nat) (old : list graph) :
  (∀ n s, s ∈ powerset (xrange n) ↔ s `sublist_of` xrange n) →
  (∀ l g, g ∈ unique_iso l → g ∈ l) →
  (∀ l g, g ∈ l → ∃ g', g' ∈ unique_iso l ∧ isomorphic g g') →
  (∀ l i j g1 g2, unique_iso l !! i = Some g1 → unique_iso l !! j = Some g2 →
     isomorphic g1 g2 → i = j) →
  is_predicate f1 → is_predicate f2 →
  induced_hereditary f1 → induced_hereditary f2 →
  representatives (λ g, counterexample f1 f2 b1 b2 g ∧ length g = m) old →
  ∃ gs, _counterexamples_up powerset unique_iso f1 f2 b1 b2 (S m) old = Ok gs ∧
    (∀ g, g ∈ gs → counterexample f1 f2 b1 b2 g ∧ length g = S m) ∧
    (∀ g, counterexample f1 f2 b1 b2 g → length g = S m →
       ∃ g', g' ∈ gs ∧ isomorphic g g') ∧
    (∀ i j g1 g2, gs !! i = Some g1 → gs !! j = Some g2 →
       isomorphic g1 g2 → i = j) ∧
    (∀ g, g ∈ gs → ∃ oldg, oldg ∈ old ∧ induced_prefix g m = oldg).
Proof.
  intros Hpow Hsub Hcover Huniq Hp1 Hp2 Hh1 Hh2 Hold.
  destruct (level_step powerset unique_iso Hpow Hsub Hcover Huniq
              f1 f2 b1 b2 Hp1 Hp2 Hh1 Hh2 m old Hold)
    as (gs & Hgs & Hsound & Hcov & Hun).
  exists gs. split_and!; [done|done| |done|].
  - intros g HCE Hlen. by apply Hcov.
  - intros g Hg. apply bind_Ok in Hgs as (l & Hl & [= <-]).
    apply Hsub in Hg.
    apply (counterexamples_up_big_list_elem _ _ _ _ _ _ _ _ _ Hl) in Hg
      as (oldg & vset & Hin & Hvset%Hpow & Hc & _).
    destruct Hold as (Hsound_old & _).
    destruct (Hsound_old oldg Hin) as [(Hok & _) <-].
    rewrite Nat.sub_succ, Nat.sub_0_r in Hvset.
    exists oldg. split; [done|]. by apply (candidate_prefix oldg vset).
Qed.

(** ** Instances of the properties *)

Lemma path5_ok : graph_ok path5.
Proof. apply graph_okb_ok. vm_compute. reflexivity. Qed.

Lemma in_range_024 : Forall (λ v, (v < length path5)%nat) [0; 2; 4]%nat.
Proof. repeat constructor; simpl; lia. Qed.

Lemma powerset_model_sub n s :
  s ∈ isograph.powerset (xrange n) → s `sublist_of` xrange n.
Proof. apply powerset_model_spec. Qed.

Lemma clique_is_independent_in_complement_witness :
  is_clique path5 [0; 2; 4]%nat
  = is_independent (complement path5) [0; 2; 4]%nat ∧
  ((∀ v, ¬ adj path5 v v) →
   is_independent path5 [0; 2; 4]%nat
   = is_clique (complement path5) [0; 2; 4]%nat).
Proof.
  apply (clique_is_independent_in_complement path5 [0; 2; 4]%nat).
  apply in_range_024.
Defined.

Lemma k_sparse_nonpositive_witness :
  is_k_sparse (-1) path5 [0; 2; 4]%nat = is_independent path5 [0; 2; 4]%nat ∧
  is_k_sparse_compl (-1) path5 [0; 2; 4]%nat = is_clique path5 [0; 2; 4]%nat.
Proof. apply (k_sparse_nonpositive (-1) path5 [0; 2; 4]%nat). lia. Defined.

Lemma one_divided_is_independent_witness :
  is_k_divided 1 path5 [0; 2; 4]%nat = is_independent path5 [0; 2; 4]%nat ∧
  is_k_divided_compl 1 path5 [0; 2; 4]%nat = is_clique path5 [0; 2; 4]%nat ∧
  is_k_divided 1 path5 [0; 2; 4]%nat = is_k_sparse 0 path5 [0; 2; 4]%nat ∧
  is_k_divided_compl 1 path5 [0; 2; 4]%nat
  = is_k_sparse_compl 0 path5 [0; 2; 4]%nat.
Proof.
  apply (one_divided_is_independent path5 [0; 2; 4]%nat).
  - apply path5_ok.
  - apply in_range_024.
Defined.

Lemma extremals_graphs_well_formed_witness :
  graph_ok cycle5 ∧ sorted_lists cycle5 ∧ S (length cycle5) = 6%nat.
Proof.
  apply (extremals_graphs_well_formed isograph.graphs isograph.powerset
           isograph.unique_iso is_independent is_clique 3 3 6 6 [cycle5]).
  - reflexivity.
  - apply powerset_model_sub.
  - apply unique_iso_model_sub.
  - vm_compute. reflexivity.
  - left.
Defined.

Lemma classical_ramsey_searches_agree_witness :
  sparseramsey.find_extremals isograph.graphs isograph.powerset
    isograph.unique_iso 0 3 3 6
  = dividedramsey.find_extremals isograph.graphs isograph.powerset
      isograph.unique_iso 1 3 3 6 ∧
  (0 ≤ 3 → 0 ≤ 3 →
   sparseramsey.find_extremals isograph.graphs isograph.powerset
     isograph.unique_iso 0 3 3 6
   = extremals isograph.graphs isograph.powerset isograph.unique_iso
       is_independent is_clique 3 3 6).
Proof.
  apply (classical_ramsey_searches_agree isograph.graphs isograph.powerset
           isograph.unique_iso 3 3 6).
  - reflexivity.
  - apply powerset_model_sub.
  - apply unique_iso_model_sub.
Defined.

Lemma find_extremals_small_sizes_witness :
  (∀ fuel,
     sparseramsey.find_extremals isograph.graphs isograph.powerset
       isograph.unique_iso 2 0 3 fuel = Some (Ok (O, []))) ∧
  (∀ fuel,
     dividedramsey.find_extremals isograph.graphs isograph.powerset
       isograph.unique_iso 2 1 3 (S fuel) = Some (Ok (1%nat, [[]]))).
Proof.
  destruct (find_extremals_small_sizes isograph.graphs isograph.powerset
              isograph.unique_iso 2 0 3) as [Hzero _];
    [reflexivity|apply powerset_model_sub|apply unique_iso_model_sub|lia..|].
  destruct (find_extremals_small_sizes isograph.graphs isograph.powerset
              isograph.unique_iso 2 1 3) as [_ Hone];
    [reflexivity|apply powerset_model_sub|apply unique_iso_model_sub|lia..|].
  split.
  - intros fuel. apply Hzero; [by left|lia].
  - intros fuel. apply Hone; [lia|lia|by left|lia].
Defined.

Lemma divided_find_extremals_total_witness :
  ∃ (fuel0 n : nat) (gs : list graph),
    (∀ fuel, (fuel0 ≤ fuel)%nat →
       dividedramsey.find_extremals isograph.graphs isograph.powerset
         isograph.unique_iso 2 3 3 fuel = Some (Ok (n, gs))) ∧
    (∀ j, (j < n)%nat →
       ∃ g, ramsey_counterexample (λ g s, k_divided g s 2) 3 3 g ∧
            length g = j) ∧
    (¬ ∃ g, ramsey_counterexample (λ g s, k_divided g s 2) 3 3 g ∧
            length g = n) ∧
    (n = O → gs = []) ∧
    ((1 ≤ n)%nat →
       representatives
         (λ g, ramsey_counterexample (λ g s, k_divided g s 2) 3 3 g ∧
               length g = (n - 1)%nat) gs).
Proof.
  apply (divided_find_extremals_total isograph.graphs isograph.powerset
           isograph.unique_iso 2 3 3).
  - reflexivity.
  - intros n s. apply powerset_model_spec.
  - apply unique_iso_model_sub.
  - apply unique_iso_model_cover.
  - apply unique_iso_model_unique.
  - lia.
  - lia.
  - lia.
Defined.

Lemma extremals_prints_level_counts_witness :
  ∃ levels : list (list graph),
    length levels = 7%nat ∧
    [table_header; "0 1"; "1 1"; "2 2"; "3 2"; "4 3"; "5 1"; "6 0"]
    = table_header :: imap (λ u L, table_line u (length L)) levels ∧
    (∀ u L, levels !! u = Some L →
       representatives
         (λ g, counterexample is_independent is_clique 3 3 g ∧ length g = u)
         L) ∧
    levels !! 6%nat = Some [] ∧
    (∀ u L, levels !! u = Some L → (u < 6)%nat → L ≠ []) ∧
    ((1 ≤ 6)%nat → levels !! (6 - 1)%nat = Some [cycle5]).
Proof.
  apply (extremals_prints_level_counts isograph.graphs isograph.powerset
           isograph.unique_iso is_independent is_clique 3 3 6).
  - reflexivity.
  - intros n s. apply powerset_model_spec.
  - apply unique_iso_model_sub.
  - apply unique_iso_model_cover.
  - apply unique_iso_model_unique.
  - intros g _. apply is_independent_returns.
  - intros g _. apply is_clique_returns.
  - apply is_independent_hereditary.
  - apply is_clique_hereditary.
  - vm_compute. reflexivity.
Defined.

Lemma divided_print_extremals_output_witness :
  ∃ (fuel0 n : nat) (gs : list graph) (levels : list (list graph)),
    length levels = S n ∧
    (∀ u L, levels !! u = Some L →
       representatives
         (λ g, ramsey_counterexample (λ g s, k_divided g s 1) 2 2 g ∧
               length g = u) L) ∧
    levels !! n = Some [] ∧
    (∀ u L, levels !! u = Some L → (u < n)%nat → L ≠ []) ∧
    (n = O → gs = []) ∧
    ((1 ≤ n)%nat → levels !! (n - 1)%nat = Some gs) ∧
    ∀ printflag fuel, (fuel0 ≤ fuel)%nat →
      dividedramsey.print_extremals isograph.graphs isograph.powerset
        isograph.unique_iso (λ _ name, name) 1 2 2 printflag fuel
      = (["Finding R*_" +:+ pretty 1 +:+ "(" +:+ pretty 2 +:+ "," +:+
            pretty 2 +:+ ")"; ""] ++
         (if printflag : bool
          then table_header ::
               imap (λ u L, table_line u (length L)) levels ++ [""]
          else []) ++
         [pretty (length gs) +:+ " extremal graph(s):"; ""] ++
         mjoin (imap (λ i (_ : graph),
                        [("rs" +:+ pretty 1 +:+ "_" +:+ pretty 2 +:+ "_" +:+
                          pretty 2 +:+ "e") +:+ pretty (S i); ""]) gs) ++
         ["R*_" +:+ pretty 1 +:+ "(" +:+ pretty 2 +:+ "," +:+ pretty 2 +:+
            ") = " +:+ pretty n;
          pretty (length gs) +:+ " extremal graph(s)"],
         Some (Ok tt)).
Proof.
  apply (divided_print_extremals_output isograph.graphs isograph.powerset
           isograph.unique_iso (λ _ name, name) 1 2 2).
  - reflexivity.
  - intros n s. apply powerset_model_spec.
  - apply unique_iso_model_sub.
  - apply unique_iso_model_cover.
  - apply unique_iso_model_unique.
  - lia.
  - lia.
  - lia.
Defined.

Lemma sparse_print_extremals_output_witness :
  ∃ (fuel0 n : nat) (gs : list graph) (levels : list (list graph)),
    length levels = S n ∧
    (∀ u L, levels !! u = Some L →
       representatives
         (λ g, ramsey_counterexample (λ g s, k_sparse g s 0) 2 2 g ∧
               length g = u) L) ∧
    levels !! n = Some [] ∧
    (∀ u L, levels !! u = Some L → (u < n)%nat → L ≠ []) ∧
    (n = O → gs = []) ∧
    ((1 ≤ n)%nat → levels !! (n - 1)%nat = Some gs) ∧
    ∀ printflag fuel, (fuel0 ≤ fuel)%nat →
      sparseramsey.print_extremals isograph.graphs isograph.powerset
        isograph.unique_iso (λ _ name, name) 0 2 2 printflag fuel
      = (["Finding R_" +:+ pretty 0 +:+ "(" +:+ pretty 2 +:+ "," +:+
            pretty 2 +:+ ")"; ""] ++
         (if printflag : bool
          then table_header ::
               imap (λ u L, table_line u (length L)) levels ++ [""]
          else []) ++
         [pretty (length gs) +:+ " extremal graph(s):"; ""] ++
         mjoin (imap (λ i (_ : graph),
                        [("r" +:+ pretty 0 +:+ "_" +:+ pretty 2 +:+ "_" +:+
                          pretty 2 +:+ "e") +:+ pretty (S i); ""]) gs) ++
         ["R_" +:+ pretty 0 +:+ "(" +:+ pretty 2 +:+ "," +:+ pretty 2 +:+
            ") = " +:+ pretty n;
          pretty (length gs) +:+ " extremal graph(s)"],
         Some (Ok tt)).
Proof.
  apply (sparse_print_extremals_output isograph.graphs isograph.powerset
           isograph.unique_iso (λ _ name, name) 0 2 2).
  - reflexivity.
  - intros n s. apply powerset_model_spec.
  - apply unique_iso_model_sub.
  - apply unique_iso_model_cover.
  - apply unique_iso_model_unique.
  - lia.
  - lia.
  - lia.
Defined.

Lemma main_runs_print_extremals_witness :
  main getopt_plain int_small
    (dividedramsey.print_extremals isograph.graphs isograph.powerset
       isograph.unique_iso (λ _ name, name))
    ["dividedramsey.py"; "1"; "2"; "2"] 2
  = (Stdout <$>
       ["Finding R*_1(2,2)"; "";
        "Order & number of counterexample graphs:"; "0 1"; "1 1"; "2 0"; "";
        "1 extremal graph(s):"; ""; "rs1_2_2e1"; "";
        "R*_1(2,2) = 2"; "1 extremal graph(s)"],
     Some (Ok 0)).
Proof.
  destruct (main_runs_print_extremals getopt_plain int_small
              (dividedramsey.print_extremals isograph.graphs isograph.powerset
                 isograph.unique_iso (λ _ name, name))
              ["dividedramsey.py"; "1"; "2"; "2"] 2 [] ["1"; "2"; "2"])
    as [_ Hrun]; [reflexivity|].
  apply (Hrun "1" "2" "2" 1 2 2); [constructor|reflexivity..].
Defined.

Lemma main_parameter_checks_escape_witness :
  main getopt_plain int_small
    (dividedramsey.print_extremals isograph.graphs isograph.powerset
       isograph.unique_iso (λ _ name, name))
    ["dividedramsey.py"; "0"; "2"; "2"] 2
  = ([], Some (Raise AssertionError)).
Proof.
  destruct (main_parameter_checks_escape getopt_plain int_small
              isograph.graphs isograph.powerset isograph.unique_iso
              (λ _ name, name) ["dividedramsey.py"; "0"; "2"; "2"] []
              "0" "2" "2" 0 2 2 2) as [Hdiv _];
    [reflexivity|constructor|reflexivity..|].
  apply Hdiv. lia.
Defined.

Lemma level_zero_33 :
  representatives
    (λ g, counterexample is_independent is_clique 3 3 g ∧ length g = O)
    [[]].
Proof.
  destruct (level_zero isograph.graphs eq_refl is_independent is_clique 3 3)
    as (L0 & HL0 & Hlev).
  - intros g _. apply is_independent_returns.
  - intros g _. apply is_clique_returns.
  - vm_compute in HL0. by injection HL0 as <-.
Qed.

Lemma counterexamples_up_spec_witness :
  ∃ gs, _counterexamples_up isograph.powerset isograph.unique_iso
          is_independent is_clique 3 3 1 [[]] = Ok gs ∧
    (∀ g, g ∈ gs →
       counterexample is_independent is_clique 3 3 g ∧ length g = 1%nat) ∧
    (∀ g, counterexample is_independent is_clique 3 3 g → length g = 1%nat →
       ∃ g', g' ∈ gs ∧ isomorphic g g') ∧
    (∀ i j g1 g2, gs !! i = Some g1 → gs !! j = Some g2 →
       isomorphic g1 g2 → i = j) ∧
    (∀ g, g ∈ gs → ∃ oldg, oldg ∈ [[]] ∧ induced_prefix g 0 = oldg).
Proof.
  apply (counterexamples_up_spec isograph.powerset isograph.unique_iso
           is_independent is_clique 3 3 0 [[]]).
  - intros n s. apply powerset_model_spec.
  - apply unique_iso_model_sub.
  - apply unique_iso_model_cover.
  - apply unique_iso_model_unique.
  - intros g _. apply is_independent_returns.
  - intros g _. apply is_clique_returns.
  - apply is_independent_hereditary.
  - apply is_clique_hereditary.
  - apply level_zero_33.
Defined.
